(** * go-ahead: ACL style permission sets

    A verification development for [permissions.go] (package [goahead]).
    A [PermissionSet] is an identifier, a growable bit vector and a map from
    bit index to a nested [PermissionSet].

    Conventions of the embedding.
    - Go's [uint], [uint64] and [byte] values are natural numbers in [N]; the
      code never relies on wrap-around (sizes and offsets stay far below
      [2^64] for every buffer that fits in memory), and where the bound of a
      type matters it is stated.
    - A method with a pointer receiver that mutates [p] is a function that
      returns the receiver after the call.  Where a method takes a second
      set, the function on values is the call for an argument that shares
      nothing with the receiver; calls on two sets of one tree are modelled
      on the tree, each read seeing the writes made so far.
    - A Go [map[uint]T] is a [gmap N T]; the [nil] map and the empty map are
      told apart with [option], because the code tests [children == nil].
    - A run-time panic is the outcome [Panic]. *)

From Stdlib Require Import NArith ZArith Lia.
From stdpp Require Import gmap list fin_maps.

Set Warnings "-register-all".
Local Open Scope N_scope.

(** ** Byte slices

    A Go slice has a length and a capacity; [data[a:b]] is legal up to the
    capacity, not the length.  [spare] holds the elements of the backing
    array that lie between the length and the capacity. *)

Record slice := mkSlice { elems : list N; spare : list N }.

Definition slice_of (l : list N) : slice := {| elems := l; spare := [] |}.

Definition len (s : slice) : N := N.of_nat (length (elems s)).
Definition cap (s : slice) : N := N.of_nat (length (elems s ++ spare s)).

(** [data[a:b]]: [None] stands for the panic "slice bounds out of range". *)
Definition subslice (s : slice) (a b : N) : option slice :=
  if (a <=? b) && (b <=? cap s) then
    let arr := elems s ++ spare s in
    Some {| elems := take (N.to_nat (b - a)) (drop (N.to_nat a) arr);
            spare := drop (N.to_nat b) arr |}
  else None.

(** ** encoding/binary: variable-length unsigned integers *)

Module Binary.

Definition MaxVarintLen64 : nat := 10.

(** [binary.PutUvarint] without its buffer: the bytes it writes, low
    seven-bit group first.  [steps] bounds the loop; ten groups hold any
    64-bit value. *)
Fixpoint uvarint_bytes (steps : nat) (x : N) : list N :=
  match steps with
  | O => [N.land x 255]
  | S k => if x <? 128 then [x]
           else N.lor (N.land x 255) 128 :: uvarint_bytes k (N.shiftr x 7)
  end.

(** [binary.PutUvarint(buf, x)]: writes at the front of [buf]; an index
    past the end of [buf] panics ([None]). *)
Definition PutUvarint (buf : list N) (x : N) : option (list N) :=
  let bs := uvarint_bytes MaxVarintLen64 x in
  if (length bs <=? length buf)%nat then Some (bs ++ drop (length bs) buf)
  else None.

(** [binary.Uvarint(buf)]: the decoded value and the number of bytes read;
    [0] bytes when the buffer ends inside the integer, a negative count on
    overflow of 64 bits. *)
Fixpoint Uvarint_loop (buf : list N) (i : nat) (x : N) (s : N) : N * Z :=
  match buf with
  | [] => (0, 0%Z)
  | b :: rest =>
      if (i =? MaxVarintLen64)%nat then (0, (- Z.of_nat (i + 1))%Z)
      else if b <? 128 then
        if (i =? MaxVarintLen64 - 1)%nat && (1 <? b)
        then (0, (- Z.of_nat (i + 1))%Z)
        else (N.lor x (N.shiftl b s), Z.of_nat (i + 1))
      else Uvarint_loop rest (S i) (N.lor x (N.shiftl (N.land b 127) s)) (s + 7)
  end.

Definition Uvarint (buf : list N) : N * Z := Uvarint_loop buf 0 0 0.

(** [binary.BigEndian.PutUint64] and [binary.BigEndian.Uint64]. *)
Definition be64 (x : N) : list N :=
  [N.land (N.shiftr x 56) 255; N.land (N.shiftr x 48) 255;
   N.land (N.shiftr x 40) 255; N.land (N.shiftr x 32) 255;
   N.land (N.shiftr x 24) 255; N.land (N.shiftr x 16) 255;
   N.land (N.shiftr x 8) 255; N.land x 255].

Definition of_be (bs : list N) : N :=
  foldl (fun acc b => N.lor (N.shiftl acc 8) b) 0 bs.

End Binary.

(** ** github.com/willf/bitset

    The package is imported, not part of the repository.  Its [BitSet] is
    modelled after the library: a length in bits and the backing 64-bit
    words, bit [i] living in word [i / 64] at position [i mod 64]. *)

Module BitSet.

Record t := mk { b_length : N; b_set : list N }.

(** The zero value [bitset.BitSet{}]. *)
Definition zero : t := {| b_length := 0; b_set := [] |}.

Definition wordsNeeded (i : N) : nat := N.to_nat ((i + 63) / 64).

Definition word (b : t) (x : N) : N := nth (N.to_nat x) (b_set b) 0.

(** The stored bit at position [i], whatever the length says. *)
Definition bit (b : t) (i : N) : bool := N.testbit (word b (i / 64)) (i mod 64).

Definition Len (b : t) : N := b_length b.

Definition Test (b : t) (i : N) : bool :=
  if b_length b <=? i then false else bit b i.

(** [extendSetMaybe]: grows the vector to hold bit [i]; new words are
    zero. *)
Definition extendSetMaybe (b : t) (i : N) : t :=
  if b_length b <=? i
  then {| b_length := i + 1; b_set := resize (wordsNeeded (i + 1)) 0 (b_set b) |}
  else b.

Definition Set_ (b : t) (i : N) : t :=
  let b' := extendSetMaybe b i in
  {| b_length := b_length b';
     b_set := alter (fun w => N.lor w (N.shiftl 1 (i mod 64)))
                    (N.to_nat (i / 64)) (b_set b') |}.

Definition Clear (b : t) (i : N) : t :=
  if b_length b <=? i then b
  else {| b_length := b_length b;
          b_set := alter (fun w => N.ldiff w (N.shiftl 1 (i mod 64)))
                         (N.to_nat (i / 64)) (b_set b) |}.

Fixpoint ctz_pos (p : positive) : N :=
  match p with
  | xO q => N.succ (ctz_pos q)
  | _ => 0
  end.

Definition trailingZeroes64 (w : N) : N :=
  match w with
  | N0 => 64
  | Npos p => ctz_pos p
  end.

(** The scan of [NextSet] over the words that follow the first one. *)
Fixpoint scan_words (ws : list N) (x : N) : option N :=
  match ws with
  | [] => None
  | w :: rest =>
      if w =? 0 then scan_words rest (x + 1)
      else Some (x * 64 + trailingZeroes64 w)
  end.

(** [NextSet(i)]: the next set bit at or after [i]; [None] is the [false]
    of the Go result. *)
Definition NextSet (b : t) (i : N) : option N :=
  let x := i / 64 in
  if N.of_nat (length (b_set b)) <=? x then None
  else
    let w := N.shiftr (word b x) (i mod 64) in
    if w =? 0 then scan_words (drop (N.to_nat (x + 1)) (b_set b)) (x + 1)
    else Some (i + trailingZeroes64 w).

(** The idiom [for i, e := b.NextSet(0); e; i, e = b.NextSet(i + 1) { body }]
    with [b] not modified by the body. *)
Fixpoint forNextSet {A} (fuel : nat) (b : t) (cur : option N)
         (body : N -> A -> A) (a : A) : A :=
  match fuel, cur with
  | S k, Some i => forNextSet k b (NextSet b (i + 1)) body (body i a)
  | _, _ => a
  end.

Definition forEachSet {A} (b : t) (body : N -> A -> A) (a : A) : A :=
  forNextSet (S (64 * length (b_set b))) b (NextSet b 0) body a.

(** [InPlaceUnion]: [l] is taken before the receiver is extended. *)
Definition InPlaceUnion (b compare : t) : t :=
  let l := Nat.min (length (b_set compare)) (length (b_set b)) in
  let b1 := if 0 <? b_length compare
            then extendSetMaybe b (b_length compare - 1) else b in
  {| b_length := b_length b1;
     b_set := imap (fun i w =>
                      if (i <? l)%nat then N.lor w (word compare (N.of_nat i))
                      else if (i <? length (b_set compare))%nat
                           then word compare (N.of_nat i)
                           else w) (b_set b1) |}.

Definition InPlaceIntersection (b compare : t) : t :=
  let l := Nat.min (length (b_set compare)) (length (b_set b)) in
  let b1 := {| b_length := b_length b;
               b_set := imap (fun i w =>
                                if (i <? l)%nat
                                then N.land w (word compare (N.of_nat i))
                                else 0) (b_set b) |} in
  if 0 <? b_length compare then extendSetMaybe b1 (b_length compare - 1) else b1.

(** [WriteTo]/[MarshalBinary]: the length, then every word, big endian. *)
Definition MarshalBinary (b : t) : list N :=
  Binary.be64 (b_length b) ++ flat_map Binary.be64 (b_set b).

Inductive read_error := EOF | UnexpectedEOF.

Fixpoint read_words (n : nat) (bs : list N) : list N :=
  match n with
  | O => []
  | S k => Binary.of_be (take 8 bs) :: read_words k (drop 8 bs)
  end.

(** [ReadFrom]/[UnmarshalBinary]: reads the length, allocates
    [New(length)] and fills its words.  A short input is an error of
    [binary.Read] and leaves the receiver as it was. *)
Definition UnmarshalBinary (data : list N) : read_error + t :=
  match data with
  | [] => inl EOF
  | _ =>
      if (length data <? 8)%nat then inl UnexpectedEOF
      else
        let n := Binary.of_be (take 8 data) in
        let rest := drop 8 data in
        let nw := wordsNeeded n in
        if (nw =? 0)%nat then inr {| b_length := n; b_set := [] |}
        else match rest with
             | [] => inl EOF
             | _ => if (length rest <? 8 * nw)%nat then inl UnexpectedEOF
                    else inr {| b_length := n; b_set := read_words nw rest |}
             end
  end.

(** [New(length)]: a vector of [length] bits, all zero. *)
Definition New (length : N) : t :=
  {| b_length := length; b_set := replicate (wordsNeeded length) 0 |}.

(** [IsSuperSet]: the loop over the set bits of [other] returns at the first
    one that [b] lacks. *)
Fixpoint IsSuperSet_from (fuel : nat) (b other : t) (cur : option N) : bool :=
  match fuel, cur with
  | S k, Some i =>
      if Test b i then IsSuperSet_from k b other (NextSet other (i + 1)) else false
  | _, _ => true
  end.

Definition IsSuperSet (b other : t) : bool :=
  IsSuperSet_from (S (64 * length (b_set other))) b other (NextSet other 0).

(** [sortByLength]: the shorter vector first. *)
Definition sortByLength (a b : t) : t * t :=
  if b_length a <=? b_length b then (a, b) else (b, a).

(** [Intersection]: a new vector of the shorter length, filled word by
    word with [result.set[i] = word & compare.set[i]]; [None] is the panic
    of an index out of range. *)
Definition Intersection (b compare : t) : option t :=
  let '(b, compare) := sortByLength b compare in
  let result := New (b_length b) in
  set ← foldl (fun acc iw =>
                 set ← acc;
                 c ← b_set compare !! fst iw;
                 if (fst iw <? length set)%nat
                 then Some (<[fst iw := N.land (snd iw) c]> set)
                 else None)
              (Some (b_set result)) (imap pair (b_set b));
  Some {| b_length := b_length result; b_set := set |}.

(** [None]: no word is positive.  [Any] is its negation. *)
Definition None_ (b : t) : bool := forallb (fun w => negb (0 <? w)) (b_set b).

Definition Any (b : t) : bool := negb (None_ b).

(** [Bytes]: the backing words. *)
Definition Bytes (b : t) : list N := b_set b.

(** The invariant the library keeps for every set it builds: as many words
    as the length needs, each a 64-bit value, and no stored bit at or above
    the length. *)
Definition wf (b : t) : Prop :=
  length (b_set b) = wordsNeeded (b_length b) /\
  Forall (fun w => w < 2 ^ 64) (b_set b) /\
  forall i, b_length b <= i -> bit b i = false.

End BitSet.

(** ** The permission set *)

Inductive PermissionSet : Type := mkPermissionSet {
  ID : N;
  bits : BitSet.t;
  children : option (gmap N PermissionSet)
}.

(** [new(PermissionSet)]: the zero value. *)
Definition newPermissionSet : PermissionSet :=
  {| ID := 0; bits := BitSet.zero; children := None |}.

Definition with_bits (p : PermissionSet) (b : BitSet.t) : PermissionSet :=
  {| ID := ID p; bits := b; children := children p |}.

Definition with_children (p : PermissionSet) (m : gmap N PermissionSet) : PermissionSet :=
  {| ID := ID p; bits := bits p; children := Some m |}.

Definition with_ID (p : PermissionSet) (id : N) : PermissionSet :=
  {| ID := id; bits := bits p; children := children p |}.

(** [m[i]] on a map that may be [nil]: a [nil] map has no entry. *)
Definition child_at (p : PermissionSet) (i : N) : option PermissionSet :=
  match children p with
  | Some m => m !! i
  | None => None
  end.

Definition Has (p : PermissionSet) (index : N) : bool :=
  BitSet.Test (bits p) index.

Definition Len (p : PermissionSet) : N := BitSet.Len (bits p).

Definition Set_ (p : PermissionSet) (indices : list N) : PermissionSet :=
  with_bits p (foldl BitSet.Set_ (bits p) indices).

Definition Clear (p : PermissionSet) (indices : list N) : PermissionSet :=
  with_bits p (foldl BitSet.Clear (bits p) indices).

(** [Child]: the receiver after the call and the child it returns.  The map
    is made when it is [nil], and an absent child is stored as a new empty
    set. *)
Definition Child (p : PermissionSet) (index : N) : PermissionSet * PermissionSet :=
  let m := match children p with Some m => m | None => ∅ end in
  match m !! index with
  | Some child => (with_children p m, child)
  | None => (with_children p (<[index := newPermissionSet]> m), newPermissionSet)
  end.

(** The effect on [p] of mutating, through the pointer [p.Child(index)]
    returned, the child into [c]. *)
Definition update_child (p : PermissionSet) (index : N) (f : PermissionSet -> PermissionSet)
  : PermissionSet :=
  let '(p1, c) := Child p index in
  with_children p1 (<[index := f c]> (match children p1 with Some m => m | None => ∅ end)).

(** [Walk].  The loop variable [set] descends; the test [p.children == nil]
    is on the receiver [p], as in the source. *)
Fixpoint Walk_from (p set : PermissionSet) (indices : list N) : bool :=
  match indices with
  | [] => true
  | i :: rest =>
      if BitSet.Test (bits set) i then
        match children p with
        | None => true
        | Some _ =>
            match child_at set i with
            | Some next => Walk_from p next rest
            | None => true
            end
        end
      else false
  end.

Definition Walk (p : PermissionSet) (indices : list N) : bool := Walk_from p p indices.

(** The third revision of [Walk] in the source file differs in its last
    statement only: [return false] once the indices are used up. *)
Fixpoint Walk_rev3_from (p set : PermissionSet) (indices : list N) : bool :=
  match indices with
  | [] => false
  | i :: rest =>
      if BitSet.Test (bits set) i then
        match children p with
        | None => true
        | Some _ =>
            match child_at set i with
            | Some next => Walk_rev3_from p next rest
            | None => true
            end
        end
      else false
  end.

Definition Walk_rev3 (p : PermissionSet) (indices : list N) : bool := Walk_rev3_from p p indices.

(** [All]: the indices are set on a scratch vector as long as the
    receiver's, of which the receiver must be a superset. *)
Definition All (p : PermissionSet) (indices : list N) : bool :=
  let other := foldl BitSet.Set_ (BitSet.New (BitSet.Len (bits p))) indices in
  BitSet.IsSuperSet (bits p) other.

(** [Any]: the scratch vector is intersected with the receiver's bits;
    [None] when [Intersection] panics. *)
Definition Any (p : PermissionSet) (indices : list N) : option bool :=
  let other := foldl BitSet.Set_ (BitSet.New (BitSet.Len (bits p))) indices in
  BitSet.Any <$> BitSet.Intersection (bits p) other.

Definition IsEmpty (p : PermissionSet) : bool := BitSet.None_ (bits p).

(** [Bytes]: walks down with [Child], which stores every set it has to
    make: the receiver after the call and the words returned. *)
Fixpoint Bytes (p : PermissionSet) (indices : list N) : PermissionSet * list N :=
  match indices with
  | [] => (p, BitSet.Bytes (bits p))
  | idx :: rest =>
      let '(p1, set) := Child p idx in
      let '(set', words) := Bytes set rest in
      (with_children p1 (<[idx := set']> (match children p1 with Some m => m | None => ∅ end)),
       words)
  end.

(** [Union] on values: the call for an argument that shares nothing with
    the receiver, so that [other] is throughout what it was before the
    call.  (An argument that is the receiver or lies in its tree is read
    while it is written: see [Union_self] and [Union_at] below.)
    [sub !! i] is the call [q.Union(child)] for the child of [other] at [i];
    it is taken from [other] before the loop so that the recursion is
    structural in [other]. *)
Fixpoint Union_with (other : PermissionSet) : PermissionSet -> PermissionSet :=
  let sub : gmap N (PermissionSet -> PermissionSet) :=
    match children other with
    | Some m => Union_with <$> m
    | None => ∅
    end in
  fun p =>
    let p1 :=
      BitSet.forEachSet (bits other)
        (fun i p =>
           let p := Set_ p [i] in
           match sub !! i with
           | Some union_child => update_child p i union_child
           | None => p
           end) p in
    with_bits p1 (BitSet.InPlaceUnion (bits p1) (bits other)).

(** [p.Union(other)]: the receiver after the call. *)
Definition Union (p other : PermissionSet) : PermissionSet := Union_with other p.

(** [InPlaceIntersection] on values (first revision: the child is refined
    only where the receiver has the bit), for an argument that shares
    nothing with the receiver; see [InPlaceIntersection_self] and
    [InPlaceIntersection_at] below for one that does. *)
Fixpoint InPlaceIntersection_with (other : PermissionSet) : PermissionSet -> PermissionSet :=
  let sub : gmap N (PermissionSet -> PermissionSet) :=
    match children other with
    | Some m => InPlaceIntersection_with <$> m
    | None => ∅
    end in
  fun p =>
    let p1 :=
      BitSet.forEachSet (bits other)
        (fun i p =>
           if Has p i then
             match sub !! i with
             | Some intersect_child => update_child p i intersect_child
             | None => p
             end
           else p) p in
    with_bits p1 (BitSet.InPlaceIntersection (bits p1) (bits other)).

(** [p.InPlaceIntersection(other)]: the receiver after the call. *)
Definition InPlaceIntersection (p other : PermissionSet) : PermissionSet :=
  InPlaceIntersection_with other p.

(** The second revision of [InPlaceIntersection] in the source file sets the
    bit where the first one tests it. *)
Fixpoint InPlaceIntersection_rev2_with (other : PermissionSet) : PermissionSet -> PermissionSet :=
  let sub : gmap N (PermissionSet -> PermissionSet) :=
    match children other with
    | Some m => InPlaceIntersection_rev2_with <$> m
    | None => ∅
    end in
  fun p =>
    let p1 :=
      BitSet.forEachSet (bits other)
        (fun i p =>
           let p := Set_ p [i] in
           match sub !! i with
           | Some intersect_child => update_child p i intersect_child
           | None => p
           end) p in
    with_bits p1 (BitSet.InPlaceIntersection (bits p1) (bits other)).

Definition InPlaceIntersection_rev2 (p other : PermissionSet) : PermissionSet :=
  InPlaceIntersection_rev2_with other p.

(** [HasMultiple]: one entry [k, v] of one batch.  The state is the result
    map and the receiver, which [Child] may change. *)
Definition HasMultiple_entry (k : N) (v : list N)
           (st : gmap N (list bool) * PermissionSet) : gmap N (list bool) * PermissionSet :=
  let '(results, p) := st in
  let length := if (1 <? length v)%nat then length v else 1%nat in
  let values := replicate length false in
  let '(values, p) :=
    if Has p k then
      let values := <[0%nat := true]> values in
      let '(p, set) := Child p k in
      let values :=
        if 0 <? Len set
        then foldl (fun values ix => <[fst ix := Has set (snd ix)]> values)
                   values (imap pair v)
        else values in
      (values, p)
    else (values, p) in
  (<[k := values]> results, p).

(** One batch, its entries visited in the order [entries]. *)
Definition HasMultiple_range (entries : list (N * list N))
           (st : gmap N (list bool) * PermissionSet) : gmap N (list bool) * PermissionSet :=
  foldl (fun st kv => HasMultiple_entry (fst kv) (snd kv) st) st entries.

(** The order in which a [range] statement visits a map; Go leaves it
    unspecified. *)
Definition range_order : Type := forall A : Type, gmap N A -> list (N * A).

(** [HasMultiple(sets...)]: the result map and the receiver after the call. *)
Definition HasMultiple (range : range_order)
           (p : PermissionSet) (sets : list (gmap N (list N)))
  : gmap N (list bool) * PermissionSet :=
  foldl (fun st batch => HasMultiple_range (range _ batch) st) (∅, p) sets.

(** A visiting order is a permutation of the entries of the map. *)
Definition range_ok (range : range_order) : Prop :=
  forall A (m : gmap N A), range A m ≡ₚ map_to_list m.

(** One visiting order, for the examples. *)
Definition range_to_list : range_order := fun A => map_to_list.

(** ** Outcomes of the codecs *)

Inductive error :=
  | ErrBufTooSmall
  | ErrBufOveflow
  | ErrBitSet (e : BitSet.read_error).

(** What a call does: it returns, it panics, or the model's recursion bound
    was too small (shown below never to happen). *)
Inductive outcome (A : Type) :=
  | Returns (a : A)
  | Panic
  | OutOfFuel.
Arguments Returns {A} a.
Arguments Panic {A}.
Arguments OutOfFuel {A}.

(** ** The binary codec *)

(** [binary.PutUvarint(data[off:], x)] seen from [data]. *)
Definition PutUvarint_at (data : list N) (off : nat) (x : N) : option (list N) :=
  match Binary.PutUvarint (drop off data) x with
  | Some written => Some (take off data ++ written)
  | None => None
  end.

(** [copy(data[off:], src)] for a destination that is long enough. *)
Definition copy_at (data : list N) (off : nat) (src : list N) : list N :=
  take off data ++ src ++ drop (off + length src) data.

(** One turn of the loop over the children in [MarshalBinary]: [acc] is
    [size] and [data] so far, [enc] what the child's own [MarshalBinary]
    gave. *)
Definition MarshalBinary_child (acc : option (N * list N)) (entry : N * option (list N))
  : option (N * list N) :=
  match acc, entry with
  | Some (size, data), (i, Some b) =>
      match Binary.PutUvarint (replicate 8 0) i with
      | Some header => Some (size + (8 + N.of_nat (length b)), data ++ (header ++ b))
      | None => None
      end
  | _, _ => None
  end.

Section Range.

Variable range : range_order.

(** [MarshalBinary]: the bytes, or [None] when the call panics (the error
    result is always [nil], the bit vector's encoder cannot fail). *)
Fixpoint MarshalBinary (p : PermissionSet) : option (list N) :=
  let bytes := BitSet.MarshalBinary (bits p) in
  let size := N.of_nat (length bytes) in
  let data := replicate (N.to_nat (24 + size)) 0 in
  data ← PutUvarint_at data 0 (ID p);
  data ← PutUvarint_at data 8 size;
  let data := copy_at data 24 bytes in
  '(size, data) ←
    match children p with
    | Some m => foldl MarshalBinary_child (Some (size, data)) (range _ (MarshalBinary <$> m))
    | None => Some (size, data)
    end;
  PutUvarint_at data 16 (size + 24).

End Range.

(** [binary.Uvarint(data[a:b])]. *)
Definition Uvarint_slot (data : slice) (a b : N) : option (N * Z) :=
  match subslice data a b with
  | Some s => Some (Binary.Uvarint (elems s))
  | None => None
  end.

(** The loop [for maxLen > offset] of [UnmarshalBinary]; [decode_child] is
    the recursive call on a fresh set.  [m] is [p.children]. *)
Fixpoint UnmarshalBinary_children
         (decode_child : slice -> outcome (PermissionSet * option error))
         (turns : nat) (data : slice) (maxLen : N)
         (p : PermissionSet) (m : gmap N PermissionSet) (offset : N)
  : outcome (PermissionSet * option error) :=
  if maxLen <=? offset then Returns (with_children p m, None)
  else
    match turns with
    | O => OutOfFuel
    | S turns' =>
        match Uvarint_slot data offset (offset + 7) with
        | None => Panic
        | Some (idx, read) =>
            if (read =? 0)%Z then Returns (with_children p m, Some ErrBufTooSmall)
            else if (read <? 0)%Z then Returns (with_children p m, Some ErrBufOveflow)
            else
              match Uvarint_slot data (offset + 24) (offset + 31) with
              | None => Panic
              | Some (childSize, read) =>
                  if (read =? 0)%Z then Returns (with_children p m, Some ErrBufTooSmall)
                  else if (read <? 0)%Z then Returns (with_children p m, Some ErrBufOveflow)
                  else
                    match subslice data (offset + 8) (offset + 8 + childSize) with
                    | None => Panic
                    | Some sub =>
                        match decode_child sub with
                        | Returns (child, None) =>
                            UnmarshalBinary_children decode_child turns' data maxLen
                              p (<[idx := child]> m) (offset + (8 + childSize))
                        | Returns (_, Some err) => Returns (with_children p m, Some err)
                        | Panic => Panic
                        | OutOfFuel => OutOfFuel
                        end
                    end
              end
        end
    end.

(** [UnmarshalBinary]: the receiver after the call and the error returned.
    [fuel] bounds the depth of the recursion. *)
Fixpoint UnmarshalBinary_fuel (fuel : nat) (p : PermissionSet) (data : slice)
  : outcome (PermissionSet * option error) :=
  match fuel with
  | O => OutOfFuel
  | S fuel' =>
      let maxLen := len data in
      if maxLen =? 0 then Returns (p, None)
      else
        match Uvarint_slot data 0 7 with
        | None => Panic
        | Some (id, read) =>
            let p := with_ID p id in
            if (read =? 0)%Z then Returns (p, Some ErrBufTooSmall)
            else if (read <? 0)%Z then Returns (p, Some ErrBufOveflow)
            else
              match Uvarint_slot data 8 15 with
              | None => Panic
              | Some (size, read) =>
                  if (read =? 0)%Z then Returns (p, Some ErrBufTooSmall)
                  else if (read <? 0)%Z then Returns (p, Some ErrBufOveflow)
                  else
                    match subslice data 24 (24 + size) with
                    | None => Panic
                    | Some payload =>
                        match BitSet.UnmarshalBinary (elems payload) with
                        | inl e => Returns (p, Some (ErrBitSet e))
                        | inr b =>
                            let p := with_bits p b in
                            let offset := 24 + size in
                            if offset <? maxLen then
                              UnmarshalBinary_children
                                (UnmarshalBinary_fuel fuel' newPermissionSet)
                                (S (N.to_nat maxLen)) data maxLen p ∅ offset
                            else Returns (p, None)
                        end
                    end
              end
        end
  end.

(** The capacity of the slice bounds the depth: a child is decoded from a
    slice of strictly smaller capacity. *)
Definition UnmarshalBinary (p : PermissionSet) (data : slice)
  : outcome (PermissionSet * option error) :=
  UnmarshalBinary_fuel (S (N.to_nat (cap data))) p data.

(** ** The structured codec

    [encoding/json], [encoding/base64] and [strconv] are taken at their
    contract: a text that [json.Marshal] printed is read back by
    [json.Unmarshal] as the same document, with every number turned into a
    [float64], and a string survives printing and parsing unchanged.  The
    model therefore works on the document, not on its characters.

    The document of a set has the field ["ID"] (an integer literal), the
    field ["bits"] (a string; [doc_bits] are the bytes that the bit vector's
    encoder put in it in base 64) and, when the map of children is not
    [nil], the field ["children"]: an object whose keys are decimal
    integers ([doc_children] indexes it by their values) and whose values
    are strings holding the documents of the children. *)

Inductive doc : Type := mkDoc {
  doc_ID : N;
  doc_bits : list N;
  doc_children : option (gmap Z doc)
}.

(** [int(k)] for a [uint] on a 64-bit platform. *)
Definition int_of_uint (k : N) : Z :=
  if k <? 2 ^ 63 then Z.of_N k else (Z.of_N k - 2 ^ 64)%Z.

(** [strconv.ParseUint(s, 10, 64)] on the decimal text of the integer [z],
    its error dropped as the code does: [0] on a sign, the largest value when
    out of range. *)
Definition ParseUint_of (z : Z) : N :=
  if (z <? 0)%Z then 0
  else if (z <? 2 ^ 64)%Z then Z.to_N z
  else 2 ^ 64 - 1.

(** The [float64] nearest to the integer literal [n] (ties to even); the
    result is an integer again. *)
Definition float64_of_literal (n : N) : N :=
  if n <? 2 ^ 53 then n
  else
    let e := N.log2 n - 52 in
    let q := N.shiftr n e in
    let r := n mod 2 ^ e in
    let half := 2 ^ (e - 1) in
    let q' := if (half <? r) || ((half =? r) && N.odd q) then q + 1 else q in
    q' * 2 ^ e.

(** [uint64(f)] for a non-negative integral [f]; out of range the result
    depends on the platform ([2^63] on amd64). *)
Definition uint64_of_float64 (f : N) : N :=
  if f <? 2 ^ 64 then f else 2 ^ 63.

(** What [UnmarshalJSON] does: it returns a set, it returns an error, or it
    returns a set one of whose children is a [nil] pointer (the error of a
    child is dropped and the [nil] result stored), which the model has no
    value for. *)
Inductive json_result :=
  | JReturns (p : PermissionSet)
  | JError (e : BitSet.read_error)
  | JNilChild.

Section RangeJSON.

(** The visiting order of [range], also for the keys of a document. *)
Variable range : range_order.
Variable rangeZ : forall A : Type, gmap Z A -> list (Z * A).

Fixpoint MarshalJSON (p : PermissionSet) : doc :=
  {| doc_ID := ID p;
     doc_bits := BitSet.MarshalBinary (bits p);
     doc_children :=
       match children p with
       | Some m =>
           Some (foldl (fun children kb => <[int_of_uint (fst kb) := snd kb]> children)
                       ∅ (range _ (MarshalJSON <$> m)))
       | None => None
       end |}.

Fixpoint UnmarshalJSON (d : doc) : json_result :=
  let id := uint64_of_float64 (float64_of_literal (doc_ID d)) in
  match BitSet.UnmarshalBinary (doc_bits d) with
  | inl e => JError e
  | inr b =>
      match doc_children d with
      | None => JReturns {| ID := id; bits := b; children := None |}
      | Some childData =>
          match
            foldl (fun acc kv =>
                     match acc, snd kv with
                     | Some m, JReturns child => Some (<[ParseUint_of (fst kv) := child]> m)
                     | _, _ => None
                     end)
                  (Some ∅) (rangeZ _ (UnmarshalJSON <$> childData))
          with
          | Some m => JReturns {| ID := id; bits := b; children := Some m |}
          | None => JNilChild
          end
      end
  end.

(** The third revision of [UnmarshalJSON] in the source file stops after
    the bits: it never reads the children. *)
Definition UnmarshalJSON_rev3 (d : doc) : json_result :=
  let id := uint64_of_float64 (float64_of_literal (doc_ID d)) in
  match BitSet.UnmarshalBinary (doc_bits d) with
  | inl e => JError e
  | inr b => JReturns {| ID := id; bits := b; children := None |}
  end.

End RangeJSON.

(** ** Notions used by the statements *)

(** The child that [Child] returns: the stored one, or a new empty set. *)
Definition child_or_new (p : PermissionSet) (i : N) : PermissionSet :=
  default newPermissionSet (child_at p i).

(** What [HasMultiple] stores for the key [k] queried with [v]. *)
Definition HasMultiple_values (p : PermissionSet) (k : N) (v : list N) : list bool :=
  let n := Nat.max 1 (length v) in
  if Has p k then
    let set := child_or_new p k in
    if 0 <? Len set then
      match v with
      | [] => [true]
      | _ => map (Has set) v
      end
    else true :: replicate (n - 1) false
  else replicate n false.

(** The entries of all the batches, in the order of the visit. *)
Definition HasMultiple_entries (range : range_order)
           (sets : list (gmap N (list N))) : list (N * list N) :=
  concat (map (range _) sets).

(** The indices that the last batch naming [k] pairs with it. *)
Definition last_query (sets : list (gmap N (list N))) (k : N) : option (list N) :=
  foldl (fun acc batch => match batch !! k with Some v => Some v | None => acc end)
        None sets.

(** Some batch names the key [k]. *)
Definition queried (sets : list (gmap N (list N))) (k : N) : Prop :=
  exists batch, batch ∈ sets /\ is_Some (batch !! k).

(** The positions of the stored bits of a vector, in increasing order: what
    the loop over [NextSet] visits. *)
Definition set_bits (b : BitSet.t) : list N :=
  filter (fun i => BitSet.bit b i = true)
         (N.of_nat <$> seq 0 (64 * length (BitSet.b_set b))).

(** ** Sets of the scenarios *)

(** Bits 3 and 5 on the root, bit 2 on the child at 5. *)
Definition scenario_walk : PermissionSet :=
  update_child (Set_ newPermissionSet [3; 5]) 5 (fun child => Set_ child [2]).

(** Bit 5 on the root, bit 1 on the child at 5. *)
Definition scenario_query : PermissionSet :=
  update_child (Set_ newPermissionSet [5]) 5 (fun child => Set_ child [1]).

(** Bits 5 and 7 on the root and no map of children. *)
Definition scenario_bare : PermissionSet := Set_ newPermissionSet [5; 7].

(** A frame of forty bytes that [UnmarshalBinary] accepts: no identifier, no
    child, and a bit vector of length 1 whose only word is 33, so that bit 5
    is stored above the length. *)
Definition frame_stray : list N :=
  [0; 0; 0; 0; 0; 0; 0; 0] ++ [16; 0; 0; 0; 0; 0; 0; 0] ++ [40; 0; 0; 0; 0; 0; 0; 0]
  ++ [0; 0; 0; 0; 0; 0; 0; 1] ++ [0; 0; 0; 0; 0; 0; 0; 33].

(** The set that [frame_stray] decodes to. *)
Definition scenario_stray : PermissionSet :=
  {| ID := 0; bits := {| BitSet.b_length := 1; BitSet.b_set := [33] |}; children := None |}.

(** ** A set passed as its own argument

    In [a.Union(a)] and [a.InPlaceIntersection(a)] the receiver and the
    argument are one object: what the call writes to [p] is what its next
    read of [other] sees.  These versions read [other] from the current
    receiver.  The recursion descends into the children of the receiver,
    [fuel] bounds its depth and [turns] the loop; [None] means that a bound
    was too small. *)

Fixpoint forNextSet_self (turns : nat) (cur : option N)
         (body : N -> PermissionSet -> option PermissionSet) (p : PermissionSet)
  : option PermissionSet :=
  match cur with
  | None => Some p
  | Some i =>
      match turns with
      | O => None
      | S turns' =>
          match body i p with
          | Some p' => forNextSet_self turns' (BitSet.NextSet (bits p') (i + 1)) body p'
          | None => None
          end
      end
  end.

Fixpoint Union_self (fuel : nat) (p : PermissionSet) : option PermissionSet :=
  match fuel with
  | O => None
  | S fuel' =>
      match
        forNextSet_self (S (64 * length (BitSet.b_set (bits p)))) (BitSet.NextSet (bits p) 0)
          (fun i p =>
             let p := Set_ p [i] in
             match child_at p i with
             | Some child =>
                 match Union_self fuel' child with
                 | Some child' => Some (update_child p i (fun _ => child'))
                 | None => None
                 end
             | None => Some p
             end) p
      with
      | Some p1 => Some (with_bits p1 (BitSet.InPlaceUnion (bits p1) (bits p1)))
      | None => None
      end
  end.


(** ** Calls on two sets of one tree

    The map of children is a private field: a set gets into it through
    [Child] or a decoder only, and each time it is a new one.  The sets that
    a client holds therefore form trees, and an argument that shares
    anything with the receiver lies in the same tree: it is the receiver,
    one of its descendants (as in [a.Union(a.Child(5))]) or one of its
    ancestors.  Here a set is named by its path from the root of its tree,
    a call works on the tree, and every read of [other] sees what the call
    has written so far.  [fuel] bounds the depth of the recursion and the
    turns of each loop; [None] means that it was too small (or that [other]
    is not the path of a set of the tree). *)

(** The set at [path] below [root]. *)
Fixpoint node_at (root : PermissionSet) (path : list N) : option PermissionSet :=
  match path with
  | [] => Some root
  | i :: rest =>
      match child_at root i with
      | Some c => node_at c rest
      | None => None
      end
  end.

(** The tree after the set at [path] has been changed by [f]. *)
Fixpoint update_at (root : PermissionSet) (path : list N)
         (f : PermissionSet -> PermissionSet) : PermissionSet :=
  match path with
  | [] => f root
  | i :: rest =>
      match children root with
      | Some m =>
          match m !! i with
          | Some c => with_children root (<[i := update_at c rest f]> m)
          | None => root
          end
      | None => root
      end
  end.

(** The loop [for i, e := other.bits.NextSet(0); e; i, e = other.bits.NextSet(i + 1)]
    with [other] read from the tree at every turn. *)
Fixpoint forNextSet_at (turns : nat) (other : list N) (cur : option N)
         (body : N -> PermissionSet -> option PermissionSet) (root : PermissionSet)
  : option PermissionSet :=
  match cur with
  | None => Some root
  | Some i =>
      match turns with
      | O => None
      | S turns' =>
          root ← body i root;
          o ← node_at root other;
          forNextSet_at turns' other (BitSet.NextSet (bits o) (i + 1)) body root
      end
  end.

(** [p.Union(other)] for the sets at the paths [p] and [other] of [root]:
    the tree after the call. *)
Fixpoint Union_at (fuel : nat) (root : PermissionSet) (p other : list N)
  : option PermissionSet :=
  match fuel with
  | O => None
  | S fuel' =>
      o ← node_at root other;
      root ←
        forNextSet_at fuel other (BitSet.NextSet (bits o) 0)
          (fun i root =>
             let root := update_at root p (fun x => Set_ x [i]) in
             o ← node_at root other;
             match child_at o i with
             | Some _ =>
                 let root := update_at root p (fun x => (Child x i).1) in
                 Union_at fuel' root (p ++ [i]) (other ++ [i])
             | None => Some root
             end) root;
      o ← node_at root other;
      Some (update_at root p (fun x => with_bits x (BitSet.InPlaceUnion (bits x) (bits o))))
  end.

(** [p.InPlaceIntersection(other)] (first revision) for the sets at the
    paths [p] and [other] of [root]. *)
Fixpoint InPlaceIntersection_at (fuel : nat) (root : PermissionSet) (p other : list N)
  : option PermissionSet :=
  match fuel with
  | O => None
  | S fuel' =>
      o ← node_at root other;
      root ←
        forNextSet_at fuel other (BitSet.NextSet (bits o) 0)
          (fun i root =>
             x ← node_at root p;
             if Has x i then
               o ← node_at root other;
               match child_at o i with
               | Some _ =>
                   let root := update_at root p (fun x => (Child x i).1) in
                   InPlaceIntersection_at fuel' root (p ++ [i]) (other ++ [i])
               | None => Some root
               end
             else Some root) root;
      o ← node_at root other;
      Some (update_at root p
              (fun x => with_bits x (BitSet.InPlaceIntersection (bits x) (bits o))))
  end.

(** Neither path leads through the other: the two sets share nothing. *)
Definition apart (p q : list N) : Prop :=
  ~ p `prefix_of` q /\ ~ q `prefix_of` p.

(** The largest number of words of a bit vector of the tree. *)
Fixpoint words (p : PermissionSet) : nat :=
  Nat.max (length (BitSet.b_set (bits p)))
          (match children p with
           | Some m => map_fold (fun _ c acc => Nat.max (words c) acc) 0%nat m
           | None => 0%nat
           end).

(** No stored bit below [k] in [x], nor in its child at [k], and so on down
    the children at [k]; the bit vectors on the way keep the library's
    invariant. *)
Inductive chain_from (k : N) : PermissionSet -> Prop :=
  | chain_from_node x :
      BitSet.wf (bits x) ->
      (forall j, j < k -> BitSet.bit (bits x) j = false) ->
      (forall c, child_at x k = Some c -> chain_from k c) ->
      chain_from k x.

(** A root that holds [scenario_bare] at 0 and [scenario_walk] at 1: two
    sets that share nothing. *)
Definition scenario_pair : PermissionSet :=
  update_child (update_child newPermissionSet 0 (fun _ => scenario_bare))
               1 (fun _ => scenario_walk).

(** A set with bit 5 and an empty child at 5: [a.Set(5); a.Child(5)]. *)
Definition scenario_parent : PermissionSet :=
  (Child (Set_ newPermissionSet [5]) 5).1.

(** An empty set with, at 5, a child with bit 5 that has itself, at 5, a
    child with bit 7: [b := a.Child(5); b.Set(5); b.Child(5).Set(7)]. *)
Definition scenario_nested : PermissionSet :=
  update_child newPermissionSet 5
    (fun b => update_child (Set_ b [5]) 5 (fun c => Set_ c [7])).

(** The depth of the tree below [p]. *)
Fixpoint depth (p : PermissionSet) : nat :=
  match children p with
  | Some m => S (map_fold (fun _ c acc => Nat.max (depth c) acc) 0%nat m)
  | None => 0
  end.

(** Every bit vector of the tree keeps the library's invariant. *)
Inductive wf_tree : PermissionSet -> Prop :=
  | wf_tree_node p :
      BitSet.wf (bits p) ->
      (forall i c, child_at p i = Some c -> wf_tree c) ->
      wf_tree p.

(** ** Notions of the round trip *)

(** An integer slot of the binary frame: the variable-length bytes of [x],
    then zeros up to eight bytes. *)
Definition slot (x : N) : list N :=
  let bs := Binary.uvarint_bytes Binary.MaxVarintLen64 x in
  bs ++ replicate (8 - length bs) 0.

(** The blocks that follow the payload of a frame: for every child its
    index in a slot, then its own frame. *)
Definition frame_blocks (entries : list (N * list N)) : list N :=
  concat (map (fun e => slot (fst e) ++ snd e) entries).

(** A frame that can be decoded as a child: its total size is in its third
    slot, and the decoder, given enough recursion depth, returns [d]. *)
Definition decodes_to (fuel : nat) (b : list N) (d : PermissionSet) : Prop :=
  N.of_nat (length b) < 2 ^ 49 /\
  (exists hd tl, b = hd ++ slot (N.of_nat (length b)) ++ tl /\ length hd = 16%nat) /\
  forall sp, cap (mkSlice b sp) < N.of_nat fuel ->
             UnmarshalBinary_fuel fuel newPermissionSet (mkSlice b sp) = Returns (d, None).

(** What a decoder builds for [p]: the same tree, except that a node whose
    map of children is empty gets no map at all. *)
Fixpoint normalize (p : PermissionSet) : PermissionSet :=
  {| ID := ID p;
     bits := bits p;
     children :=
       match children p with
       | Some m =>
           match map_to_list m with
           | [] => None
           | _ :: _ => Some (normalize <$> m)
           end
       | None => None
       end |}.

(** The same identifier, the same bits and the same indices of children, at
    every level. *)
Inductive same_tree : PermissionSet -> PermissionSet -> Prop :=
  | same_tree_node x y :
      ID x = ID y ->
      (forall i, Has x i = Has y i) ->
      (forall i, child_at x i = None <-> child_at y i = None) ->
      (forall i cx cy, child_at x i = Some cx -> child_at y i = Some cy -> same_tree cx cy) ->
      same_tree x y.

(** The sets that the seven-byte reads of the binary decoder can take:
    identifiers and indices of children below [2^49] at every level, and bit
    vectors that keep the library's invariant. *)
Inductive fits_binary : PermissionSet -> Prop :=
  | fits_binary_node p :
      ID p < 2 ^ 49 ->
      BitSet.wf (bits p) ->
      BitSet.b_length (bits p) < 2 ^ 64 ->
      (forall i c, child_at p i = Some c -> i < 2 ^ 49) ->
      (forall i c, child_at p i = Some c -> fits_binary c) ->
      fits_binary p.

(** A visiting order of the keys of a document. *)
Definition rangeZ_ok (rangeZ : forall A : Type, gmap Z A -> list (Z * A)) : Prop :=
  forall A (m : gmap Z A), rangeZ A m ≡ₚ map_to_list m.

(** The sets that survive the structured codec: identifiers that a
    [float64] holds exactly, indices of children that [int] holds, and bit
    vectors that keep the library's invariant, at every level. *)
Inductive fits_json : PermissionSet -> Prop :=
  | fits_json_node p :
      ID p < 2 ^ 53 ->
      BitSet.wf (bits p) ->
      BitSet.b_length (bits p) < 2 ^ 64 ->
      (forall i c, child_at p i = Some c -> i < 2 ^ 63) ->
      (forall i c, child_at p i = Some c -> fits_json c) ->
      fits_json p.

(** Division and remainder by a constant, for [lia]. *)
Ltac Zify.zify_post_hook ::= Z.to_euclidean_division_equations.

Module BitSetFacts.
Import BitSet.

Lemma word_lookup b x : word b x = default 0 (b_set b !! N.to_nat x).
Proof. unfold word. apply nth_lookup. Qed.

Lemma word_ge b x : (length (b_set b) <= N.to_nat x)%nat -> word b x = 0.
Proof. intros H. rewrite word_lookup, lookup_ge_None_2; [done | lia]. Qed.

Lemma wordsNeeded_lt n i : i < n -> (N.to_nat (i / 64) < wordsNeeded n)%nat.
Proof. unfold wordsNeeded. lia. Qed.

Lemma wordsNeeded_mono n m : n <= m -> (wordsNeeded n <= wordsNeeded m)%nat.
Proof. unfold wordsNeeded. lia. Qed.

Lemma split_index i j : i = j <-> i / 64 = j / 64 /\ i mod 64 = j mod 64.
Proof.
  split; [by intros ->|]. intros [H1 H2].
  rewrite (N.div_mod' i 64), (N.div_mod' j 64). congruence.
Qed.

Lemma wf_zero : wf zero.
Proof.
  repeat split; simpl; auto.
  intros i _. unfold bit, word. simpl. by destruct (N.to_nat (i / 64)).
Qed.

Lemma Test_bit b i : wf b -> Test b i = bit b i.
Proof.
  intros (_ & _ & Hs). unfold Test.
  destruct (N.leb_spec (b_length b) i); [by rewrite Hs | done].
Qed.

Lemma extendSetMaybe_length b i :
  b_length (extendSetMaybe b i) = N.max (b_length b) (i + 1).
Proof. unfold extendSetMaybe. destruct (N.leb_spec (b_length b) i); simpl; lia. Qed.

Lemma extendSetMaybe_words b i :
  length (b_set b) = wordsNeeded (b_length b) ->
  length (b_set (extendSetMaybe b i)) = wordsNeeded (b_length (extendSetMaybe b i)).
Proof.
  intros H. unfold extendSetMaybe.
  destruct (N.leb_spec (b_length b) i); simpl; [by rewrite length_resize | done].
Qed.

Lemma word_extendSetMaybe b i x :
  length (b_set b) = wordsNeeded (b_length b) ->
  word (extendSetMaybe b i) x = word b x.
Proof.
  intros H. unfold extendSetMaybe.
  destruct (N.leb_spec (b_length b) i); [|done].
  rewrite !word_lookup. simpl.
  assert (length (b_set b) <= wordsNeeded (i + 1))%nat
    by (rewrite H; apply wordsNeeded_mono; lia).
  rewrite resize_ge by done.
  destruct (decide (N.to_nat x < length (b_set b))%nat).
  - by rewrite lookup_app_l.
  - rewrite lookup_app_r, (lookup_ge_None_2 (b_set b)) by lia.
    simpl. by destruct (replicate _ _ !! _) eqn:E; [apply lookup_replicate in E as [-> _]|].
Qed.

Lemma word_Set b i x :
  length (b_set b) = wordsNeeded (b_length b) ->
  word (Set_ b i) x =
    if x =? i / 64 then N.lor (word b x) (N.shiftl 1 (i mod 64)) else word b x.
Proof.
  intros H. pose proof (extendSetMaybe_words b i H) as Hw.
  pose proof (extendSetMaybe_length b i) as Hl.
  rewrite <- (word_extendSetMaybe b i x H).
  rewrite !word_lookup. unfold Set_. simpl.
  destruct (N.eqb_spec x (i / 64)) as [->|Hne].
  - rewrite list_lookup_alter_eq.
    assert (N.to_nat (i / 64) < length (b_set (extendSetMaybe b i)))%nat as Hlt
      by (rewrite Hw; apply wordsNeeded_lt; lia).
    apply lookup_lt_is_Some in Hlt as [w ->]. done.
  - rewrite list_lookup_alter_ne by lia. done.
Qed.

Lemma bit_Set b i j :
  length (b_set b) = wordsNeeded (b_length b) ->
  bit (Set_ b i) j = (j =? i) || bit b j.
Proof.
  intros H. unfold bit. rewrite word_Set by done.
  destruct (N.eqb_spec (j / 64) (i / 64)) as [Hx|Hx].
  - rewrite N.lor_spec, N.shiftl_1_l, N.pow2_bits_eqb, orb_comm.
    f_equal. destruct (N.eqb_spec (i mod 64) (j mod 64)), (N.eqb_spec j i); lia.
  - destruct (N.eqb_spec j i); [by subst | done].
Qed.

Lemma words_bounded_testbit b :
  Forall (fun w => w < 2 ^ 64) (b_set b) <->
  forall x k, 64 <= k -> N.testbit (word b x) k = false.
Proof.
  split.
  - intros HF x k Hk. rewrite word_lookup.
    destruct (b_set b !! N.to_nat x) as [w|] eqn:E; [|done]. simpl.
    rewrite Forall_lookup in HF. specialize (HF _ _ E). simpl in HF.
    destruct (decide (w = 0)) as [->|]; [done|].
    apply N.bits_above_log2. apply N.log2_lt_pow2; [lia|].
    eapply N.lt_le_trans; [done|]. apply N.pow_le_mono_r; lia.
  - intros Hb. apply Forall_lookup. intros x w E. simpl.
    specialize (Hb (N.of_nat x)). rewrite word_lookup, Nat2N.id, E in Hb. simpl in Hb.
    destruct (decide (w = 0)) as [->|]; [lia|].
    apply N.log2_lt_pow2; [lia|].
    destruct (N.lt_ge_cases (N.log2 w) 64) as [|Hge]; [done|].
    apply Hb in Hge. rewrite N.bit_log2 in Hge by done. done.
Qed.

Lemma Set_wf b i : wf b -> wf (Set_ b i).
Proof.
  intros (Hw & Hb & Hs). split; [|split].
  - unfold Set_. simpl. rewrite length_alter. by apply extendSetMaybe_words.
  - apply words_bounded_testbit. intros x k Hk.
    rewrite words_bounded_testbit in Hb.
    rewrite word_Set by done. destruct (x =? i / 64); [|by apply Hb].
    rewrite N.lor_spec, Hb, N.shiftl_1_l, N.pow2_bits_eqb by done.
    simpl. apply N.eqb_neq. lia.
  - intros j Hj. unfold Set_ in Hj. simpl in Hj. rewrite extendSetMaybe_length in Hj.
    rewrite bit_Set by done. rewrite Hs by lia.
    destruct (N.eqb_spec j i); [lia | done].
Qed.

Lemma Test_Set b i j : wf b -> Test (Set_ b i) j = (j =? i) || Test b j.
Proof.
  intros H. rewrite !Test_bit by auto using Set_wf. apply bit_Set, H.
Qed.

Lemma word_InPlaceUnion b c x :
  length (b_set b) = wordsNeeded (b_length b) ->
  length (b_set c) = wordsNeeded (b_length c) ->
  word (InPlaceUnion b c) x = N.lor (word b x) (word c x).
Proof.
  intros Hb Hc. unfold InPlaceUnion.
  set (b1 := if 0 <? b_length c then extendSetMaybe b (b_length c - 1) else b).
  assert (forall y, word b1 y = word b y) as Hw1
    by (intros y; unfold b1; destruct (0 <? _); auto using word_extendSetMaybe).
  assert (length (b_set b) <= length (b_set b1) /\ length (b_set c) <= length (b_set b1))%nat
    as [Hl1 Hl2].
  { unfold b1. destruct (N.ltb_spec 0 (b_length c)) as [Hpos|Hz].
    - rewrite extendSetMaybe_words, extendSetMaybe_length, Hb, Hc by done.
      split; apply wordsNeeded_mono; lia.
    - split; [done|]. rewrite Hc. unfold wordsNeeded. lia. }
  rewrite <- (Hw1 x). rewrite (word_lookup {| b_length := _ |}). simpl.
  rewrite list_lookup_imap.
  destruct (decide (N.to_nat x < length (b_set b1))%nat) as [Hlt|Hge].
  - rewrite (word_lookup b1). apply lookup_lt_is_Some in Hlt as [w Hw]. rewrite Hw. simpl.
    rewrite N2Nat.id.
    destruct (Nat.ltb_spec (N.to_nat x) (Nat.min (length (b_set c)) (length (b_set b))));
      [done|].
    assert (word b x = w) as Hwb by (by rewrite <- Hw1, word_lookup, Hw).
    destruct (Nat.ltb_spec (N.to_nat x) (length (b_set c))).
    + rewrite <- Hwb, (word_ge b) by lia. by rewrite N.lor_0_l.
    + rewrite (word_ge c) by lia. by rewrite N.lor_0_r.
  - rewrite lookup_ge_None_2 by lia. simpl.
    rewrite (word_ge b1 x), (word_ge c x) by lia. done.
Qed.

Lemma InPlaceUnion_length b c :
  b_length (InPlaceUnion b c) = N.max (b_length b) (b_length c).
Proof.
  unfold InPlaceUnion. simpl. destruct (N.ltb_spec 0 (b_length c)).
  - rewrite extendSetMaybe_length. lia.
  - lia.
Qed.

Lemma bit_InPlaceUnion b c i :
  length (b_set b) = wordsNeeded (b_length b) ->
  length (b_set c) = wordsNeeded (b_length c) ->
  bit (InPlaceUnion b c) i = bit b i || bit c i.
Proof. intros. unfold bit. by rewrite word_InPlaceUnion, N.lor_spec. Qed.

Lemma InPlaceUnion_wf b c : wf b -> wf c -> wf (InPlaceUnion b c).
Proof.
  intros (Hb & Bb & Sb) (Hc & Bc & Sc). split; [|split].
  - unfold InPlaceUnion. simpl. rewrite length_imap.
    destruct (0 <? _); auto using extendSetMaybe_words.
  - rewrite words_bounded_testbit in *. intros x k Hk.
    by rewrite word_InPlaceUnion, N.lor_spec, Bb, Bc.
  - intros i. rewrite InPlaceUnion_length, bit_InPlaceUnion by done.
    intros. rewrite Sb, Sc by lia. done.
Qed.

Lemma Test_InPlaceUnion b c i :
  wf b -> wf c -> Test (InPlaceUnion b c) i = Test b i || Test c i.
Proof.
  intros Hb Hc. rewrite !Test_bit by auto using InPlaceUnion_wf.
  apply bit_InPlaceUnion; [apply Hb | apply Hc].
Qed.

Lemma InPlaceUnion_self b : InPlaceUnion b b = b.
Proof.
  unfold InPlaceUnion.
  replace (if 0 <? b_length b then extendSetMaybe b (b_length b - 1) else b) with b.
  2:{ destruct (N.ltb_spec 0 (b_length b)); [|done]. unfold extendSetMaybe.
      destruct (N.leb_spec (b_length b) (b_length b - 1)); [lia | done]. }
  destruct b as [n ws]. simpl. f_equal.
  apply list_eq. intros k. rewrite list_lookup_imap.
  destruct (ws !! k) as [w|] eqn:E; [|done]. simpl. f_equal.
  pose proof (lookup_lt_Some _ _ _ E).
  rewrite Nat.min_id. destruct (Nat.ltb_spec k (length ws)); [|lia].
  unfold word. simpl. rewrite Nat2N.id, (nth_lookup_Some _ _ _ _ E).
  apply N.lor_diag.
Qed.

Lemma word_InPlaceIntersection b c x :
  length (b_set b) = wordsNeeded (b_length b) ->
  word (InPlaceIntersection b c) x = N.land (word b x) (word c x).
Proof.
  intros Hb. unfold InPlaceIntersection.
  set (b1 := {| b_length := b_length b; b_set := imap _ (b_set b) |}).
  assert (length (b_set b1) = wordsNeeded (b_length b1)) as H1
    by (unfold b1; simpl; by rewrite length_imap).
  transitivity (word b1 x); [destruct (0 <? _); auto using word_extendSetMaybe|].
  rewrite (word_lookup b1). unfold b1. simpl. rewrite list_lookup_imap.
  destruct (decide (N.to_nat x < length (b_set b))%nat) as [Hlt|Hge].
  - rewrite (word_lookup b). apply lookup_lt_is_Some in Hlt as [w Hw]. rewrite Hw. simpl.
    rewrite N2Nat.id. apply lookup_lt_Some in Hw.
    destruct (Nat.ltb_spec (N.to_nat x) (Nat.min (length (b_set c)) (length (b_set b))));
      [done|].
    rewrite (word_ge c) by lia. by rewrite N.land_0_r.
  - rewrite (word_ge b) by lia. rewrite lookup_ge_None_2 by lia. done.
Qed.

Lemma InPlaceIntersection_length b c :
  b_length (InPlaceIntersection b c) = N.max (b_length b) (b_length c).
Proof.
  unfold InPlaceIntersection. destruct (N.ltb_spec 0 (b_length c)).
  - rewrite extendSetMaybe_length. simpl. lia.
  - simpl. lia.
Qed.

Lemma bit_InPlaceIntersection b c i :
  length (b_set b) = wordsNeeded (b_length b) ->
  bit (InPlaceIntersection b c) i = bit b i && bit c i.
Proof. intros. unfold bit. by rewrite word_InPlaceIntersection, N.land_spec. Qed.

Lemma InPlaceIntersection_wf b c : wf b -> wf c -> wf (InPlaceIntersection b c).
Proof.
  intros (Hb & Bb & Sb) (Hc & Bc & Sc). split; [|split].
  - unfold InPlaceIntersection.
    destruct (0 <? _); [apply extendSetMaybe_words|]; simpl; by rewrite length_imap.
  - rewrite words_bounded_testbit in *. intros x k Hk.
    by rewrite word_InPlaceIntersection, N.land_spec, Bb.
  - intros i. rewrite InPlaceIntersection_length, bit_InPlaceIntersection by done.
    intros. rewrite Sb by lia. done.
Qed.

Lemma Test_InPlaceIntersection b c i :
  wf b -> wf c -> Test (InPlaceIntersection b c) i = Test b i && Test c i.
Proof.
  intros Hb Hc. rewrite !Test_bit by auto using InPlaceIntersection_wf.
  apply bit_InPlaceIntersection, Hb.
Qed.

Lemma Clear_wf b i : wf b -> wf (Clear b i).
Proof.
  intros (Hw & Hb & Hs). unfold Clear.
  destruct (N.leb_spec (b_length b) i); [done|].
  set (b' := {| b_length := b_length b; b_set := alter _ _ _ |}).
  assert (forall x, word b' x =
                      if x =? i / 64 then N.ldiff (word b x) (N.shiftl 1 (i mod 64))
                      else word b x) as Hword.
  { intros x. rewrite !word_lookup. simpl. destruct (N.eqb_spec x (i / 64)) as [->|].
    - rewrite list_lookup_alter_eq. by destruct (b_set b !! _).
    - by rewrite list_lookup_alter_ne by lia. }
  split; [|split].
  - unfold b'. simpl. by rewrite length_alter.
  - apply (words_bounded_testbit b'). rewrite words_bounded_testbit in Hb.
    intros x k Hk. rewrite Hword. destruct (x =? i / 64); [|by apply Hb].
    by rewrite N.ldiff_spec, Hb.
  - intros j Hj. unfold bit. rewrite Hword. specialize (Hs j Hj). unfold bit in Hs.
    destruct (j / 64 =? i / 64); [|done]. by rewrite N.ldiff_spec, Hs.
Qed.

Lemma ctz_pos_testbit p : N.testbit (N.pos p) (ctz_pos p) = true.
Proof.
  induction p as [p IH|p IH|]; [done| |done].
  change (ctz_pos p~0) with (N.succ (ctz_pos p)).
  change (N.pos p~0) with (2 * N.pos p). by rewrite N.testbit_even_succ by lia.
Qed.

Lemma trailingZeroes64_testbit w :
  w <> 0 -> N.testbit w (trailingZeroes64 w) = true.
Proof. destruct w; [done|]. intros _. apply ctz_pos_testbit. Qed.

Lemma scan_words_sound ws x j :
  scan_words ws x = Some j ->
  exists k w, ws !! k = Some w /\ w <> 0 /\
              j = (x + N.of_nat k) * 64 + trailingZeroes64 w.
Proof.
  revert x. induction ws as [|w ws IH]; intros x; simpl; [done|].
  destruct (N.eqb_spec w 0) as [->|Hw].
  - intros H. apply IH in H as (k & w' & Hk & Hw' & ->).
    exists (S k), w'. repeat split; [done..|lia].
  - intros [= <-]. exists 0%nat, w. repeat split; [done..|lia].
Qed.

Lemma NextSet_sound b i j :
  Forall (fun w => w < 2 ^ 64) (b_set b) ->
  NextSet b i = Some j ->
  i <= j /\ j < 64 * N.of_nat (length (b_set b)) /\ bit b j = true.
Proof.
  intros Hb. rewrite words_bounded_testbit in Hb. unfold NextSet.
  destruct (N.leb_spec (N.of_nat (length (b_set b))) (i / 64)) as [|Hx]; [done|].
  destruct (N.eqb_spec (N.shiftr (word b (i / 64)) (i mod 64)) 0) as [_|Hw].
  - intros H. apply scan_words_sound in H as (k & w & Hk & Hw & ->).
    rewrite lookup_drop in Hk.
    assert (word b (i / 64 + 1 + N.of_nat k) = w) as Hword.
    { rewrite word_lookup. replace (N.to_nat (i / 64 + 1 + N.of_nat k))
        with (N.to_nat (i / 64 + 1) + k)%nat by lia. by rewrite Hk. }
    pose proof (trailingZeroes64_testbit w Hw) as Ht.
    assert (trailingZeroes64 w < 64) as Hlt.
    { destruct (N.lt_ge_cases (trailingZeroes64 w) 64) as [|Hge]; [done|].
      rewrite <- Hword in Ht at 1. rewrite Hb in Ht; done. }
    apply lookup_lt_Some in Hk.
    split; [lia|]. split; [lia|]. unfold bit.
    replace (((i / 64 + 1 + N.of_nat k) * 64 + trailingZeroes64 w) / 64)
      with (i / 64 + 1 + N.of_nat k) by lia.
    replace (((i / 64 + 1 + N.of_nat k) * 64 + trailingZeroes64 w) mod 64)
      with (trailingZeroes64 w) by lia.
    by rewrite Hword.
  - intros [= <-]. apply trailingZeroes64_testbit in Hw as Ht.
    rewrite N.shiftr_spec in Ht by lia.
    set (z := trailingZeroes64 _) in *.
    assert (z + i mod 64 < 64) as Hlt.
    { destruct (N.lt_ge_cases (z + i mod 64) 64) as [|Hge]; [done|].
      rewrite Hb in Ht; done. }
    split; [lia|]. split; [lia|]. unfold bit.
    replace ((i + z) / 64) with (i / 64) by lia.
    replace ((i + z) mod 64) with (z + i mod 64) by lia. done.
Qed.

Lemma forNextSet_invariant {A} (P : A -> Prop) b (body : N -> A -> A) :
  Forall (fun w => w < 2 ^ 64) (b_set b) ->
  (forall i a, bit b i = true -> P a -> P (body i a)) ->
  forall fuel cur a,
    (forall i, cur = Some i -> bit b i = true) ->
    P a -> P (forNextSet fuel b cur body a).
Proof.
  intros Hb Hbody fuel. induction fuel as [|fuel IH]; intros cur a Hcur Ha; [done|].
  simpl. destruct cur as [i|]; [|done].
  apply IH; [|by auto].
  intros j Hj. by apply NextSet_sound in Hj as (_ & _ & ?).
Qed.

Lemma forEachSet_invariant {A} (P : A -> Prop) b (body : N -> A -> A) a :
  Forall (fun w => w < 2 ^ 64) (b_set b) ->
  (forall i a, bit b i = true -> P a -> P (body i a)) ->
  P a -> P (forEachSet b body a).
Proof.
  intros Hb Hbody Ha. unfold forEachSet. apply forNextSet_invariant; [done..| |done].
  intros j Hj. by apply NextSet_sound in Hj as (_ & _ & ?).
Qed.

(** An invariant that every turn keeps holds at the end, whatever the
    indices visited. *)
Lemma forEachSet_preserves {A} (P : A -> Prop) b (body : N -> A -> A) a :
  (forall i a, P a -> P (body i a)) -> P a -> P (forEachSet b body a).
Proof.
  intros Hbody. unfold forEachSet.
  generalize (NextSet b 0) (S (64 * length (b_set b))). intros cur fuel. revert cur a.
  induction fuel as [|fuel IH]; intros cur a Ha; [done|].
  simpl. destruct cur; [|done]. apply IH. auto.
Qed.

(** The bound on the turns of the loop is never reached: more turns
    change nothing. *)
Lemma forNextSet_fuel {A} b (body : N -> A -> A) :
  Forall (fun w => w < 2 ^ 64) (b_set b) ->
  forall n m cur a,
    (forall i, cur = Some i ->
               i < 64 * N.of_nat (length (b_set b)) /\
               64 * N.of_nat (length (b_set b)) - i <= N.of_nat n /\
               64 * N.of_nat (length (b_set b)) - i <= N.of_nat m) ->
    forNextSet n b cur body a = forNextSet m b cur body a.
Proof.
  intros Hb n. induction n as [|n IH]; intros m cur a Hcur.
  - destruct cur as [i|]; [|by destruct m]. specialize (Hcur i eq_refl). lia.
  - destruct cur as [i|]; [|by destruct m]. specialize (Hcur i eq_refl).
    destruct m as [|m]; [lia|]. simpl. apply IH.
    intros j Hj. apply NextSet_sound in Hj as (? & ? & _); [lia|done].
Qed.

Lemma forEachSet_fuel {A} b (body : N -> A -> A) a fuel :
  Forall (fun w => w < 2 ^ 64) (b_set b) ->
  (S (64 * length (b_set b)) <= fuel)%nat ->
  forNextSet fuel b (NextSet b 0) body a = forEachSet b body a.
Proof.
  intros Hb Hfuel. unfold forEachSet. apply forNextSet_fuel; [done|].
  intros j Hj. apply NextSet_sound in Hj as (? & ? & _); [lia|done].
Qed.

Lemma ctz_pos_below p k : k < ctz_pos p -> N.testbit (N.pos p) k = false.
Proof.
  revert k. induction p as [p IH|p IH|]; intros k; cbn [ctz_pos]; [lia| |lia].
  intros Hk. destruct (N.eq_dec k 0) as [->|Hne]; [done|].
  replace k with (N.succ (N.pred k)) by lia. change (N.pos p~0) with (2 * N.pos p).
  rewrite N.testbit_even_succ by lia. apply IH. lia.
Qed.

Lemma trailingZeroes64_below w k :
  w <> 0 -> k < trailingZeroes64 w -> N.testbit w k = false.
Proof. destruct w; [done|]. intros _. apply ctz_pos_below. Qed.

Lemma scan_words_complete ws x :
  match scan_words ws x with
  | Some j => exists k w, ws !! k = Some w /\ w <> 0 /\
                          j = (x + N.of_nat k) * 64 + trailingZeroes64 w /\
                          forall k', (k' < k)%nat -> ws !! k' = Some 0
  | None => forall k w, ws !! k = Some w -> w = 0
  end.
Proof.
  revert x. induction ws as [|w ws IH]; intros x; cbn [scan_words]; [done|].
  destruct (N.eqb_spec w 0) as [->|Hw].
  - specialize (IH (x + 1)). destruct (scan_words ws (x + 1)) as [j|].
    + destruct IH as (k & w & Hk & Hw & -> & Hz). exists (S k), w.
      split; [done|]. split; [done|]. split; [lia|].
      intros [|k'] Hk'; [done|]. apply Hz. lia.
    + intros [|k] w; [by intros [= <-]|]. apply IH.
  - exists 0%nat, w. split; [done|]. split; [done|]. split; [lia|]. lia.
Qed.

(** [NextSet] skips no stored bit: nothing is set between [i] and the index
    it returns, and nothing at or after [i] when it returns none. *)
Lemma NextSet_complete b i :
  Forall (fun w => w < 2 ^ 64) (b_set b) ->
  match NextSet b i with
  | Some j => forall k, i <= k < j -> bit b k = false
  | None => forall k, i <= k -> bit b k = false
  end.
Proof.
  intros Hb. rewrite words_bounded_testbit in Hb. unfold NextSet.
  destruct (N.leb_spec (N.of_nat (length (b_set b))) (i / 64)) as [Hx|Hx].
  { intros k Hk. unfold bit. rewrite word_ge; [done | lia]. }
  destruct (N.eqb_spec (N.shiftr (word b (i / 64)) (i mod 64)) 0) as [Hz|Hw].
  - assert (forall k, i <= k -> k / 64 = i / 64 -> bit b k = false) as Hfirst.
    { intros k Hk Hsame. unfold bit. rewrite Hsame.
      replace (k mod 64) with (k mod 64 - i mod 64 + i mod 64) by lia.
      rewrite <- N.shiftr_spec by lia. by rewrite Hz. }
    pose proof (scan_words_complete (drop (N.to_nat (i / 64 + 1)) (b_set b)) (i / 64 + 1)) as Hs.
    destruct (scan_words _ _) as [j|].
    + destruct Hs as (k0 & w & Hk0 & Hw & -> & Hzero). intros k Hk.
      pose proof (trailingZeroes64_testbit w Hw) as Ht.
      rewrite lookup_drop in Hk0.
      assert (word b (i / 64 + 1 + N.of_nat k0) = w) as Hword.
      { rewrite word_lookup. replace (N.to_nat (i / 64 + 1 + N.of_nat k0))
          with (N.to_nat (i / 64 + 1) + k0)%nat by lia. by rewrite Hk0. }
      assert (trailingZeroes64 w < 64) as Hlt.
      { destruct (N.lt_ge_cases (trailingZeroes64 w) 64) as [|Hge]; [done|].
        rewrite <- Hword in Ht at 1. rewrite Hb in Ht; done. }
      destruct (N.lt_trichotomy (k / 64) (i / 64 + 1 + N.of_nat k0)) as [Hlow|[Heq|Hhigh]];
        [|  |lia].
      * destruct (N.eq_dec (k / 64) (i / 64)) as [Hsame|Hdiff]; [by apply Hfirst; lia|].
        unfold bit. rewrite word_lookup.
        specialize (Hzero (N.to_nat (k / 64) - N.to_nat (i / 64 + 1))%nat).
        rewrite lookup_drop in Hzero.
        replace (N.to_nat (i / 64 + 1) + (N.to_nat (k / 64) - N.to_nat (i / 64 + 1)))%nat
          with (N.to_nat (k / 64)) in Hzero by lia.
        by rewrite Hzero by lia.
      * unfold bit. rewrite Heq, Hword. apply trailingZeroes64_below; [done | lia].
    + intros k Hk. destruct (N.eq_dec (k / 64) (i / 64)) as [Hsame|Hdiff]; [by apply Hfirst|].
      unfold bit. rewrite word_lookup.
      destruct (b_set b !! N.to_nat (k / 64)) as [w|] eqn:E; [|done]. simpl.
      specialize (Hs (N.to_nat (k / 64) - N.to_nat (i / 64 + 1))%nat w).
      rewrite lookup_drop in Hs.
      replace (N.to_nat (i / 64 + 1) + (N.to_nat (k / 64) - N.to_nat (i / 64 + 1)))%nat
        with (N.to_nat (k / 64)) in Hs by lia.
      by rewrite (Hs E).
  - intros k Hk. apply trailingZeroes64_testbit in Hw as Ht.
    rewrite N.shiftr_spec in Ht by lia.
    set (z := trailingZeroes64 _) in *.
    assert (z + i mod 64 < 64) as Hlt.
    { destruct (N.lt_ge_cases (z + i mod 64) 64) as [|Hge]; [done|]. rewrite Hb in Ht; done. }
    unfold bit. replace (k / 64) with (i / 64) by lia.
    replace (k mod 64) with (k - i + i mod 64) by lia.
    rewrite <- N.shiftr_spec by lia. apply trailingZeroes64_below; [done|]. fold z. lia.
Qed.

End BitSetFacts.

Import BitSetFacts.

(** * The permission set: queries and set algebra *)

Lemma Union_with_unfold other p :
  Union_with other p =
    let sub : gmap N (PermissionSet -> PermissionSet) :=
      match children other with
      | Some m => Union_with <$> m
      | None => ∅
      end in
    let p1 :=
      BitSet.forEachSet (bits other)
        (fun i p =>
           let p := Set_ p [i] in
           match sub !! i with
           | Some union_child => update_child p i union_child
           | None => p
           end) p in
    with_bits p1 (BitSet.InPlaceUnion (bits p1) (bits other)).
Proof. by destruct other. Qed.

Lemma InPlaceIntersection_with_unfold other p :
  InPlaceIntersection_with other p =
    let sub : gmap N (PermissionSet -> PermissionSet) :=
      match children other with
      | Some m => InPlaceIntersection_with <$> m
      | None => ∅
      end in
    let p1 :=
      BitSet.forEachSet (bits other)
        (fun i p =>
           if Has p i then
             match sub !! i with
             | Some intersect_child => update_child p i intersect_child
             | None => p
             end
           else p) p in
    with_bits p1 (BitSet.InPlaceIntersection (bits p1) (bits other)).
Proof. by destruct other. Qed.

Lemma InPlaceIntersection_rev2_with_unfold other p :
  InPlaceIntersection_rev2_with other p =
    let sub : gmap N (PermissionSet -> PermissionSet) :=
      match children other with
      | Some m => InPlaceIntersection_rev2_with <$> m
      | None => ∅
      end in
    let p1 :=
      BitSet.forEachSet (bits other)
        (fun i p =>
           let p := Set_ p [i] in
           match sub !! i with
           | Some intersect_child => update_child p i intersect_child
           | None => p
           end) p in
    with_bits p1 (BitSet.InPlaceIntersection (bits p1) (bits other)).
Proof. by destruct other. Qed.

Lemma bits_Child p i : bits (Child p i).1 = bits p.
Proof. unfold Child. by destruct (_ !! i). Qed.

Lemma ID_Child p i : ID (Child p i).1 = ID p.
Proof. unfold Child. by destruct (_ !! i). Qed.

Lemma bits_update_child p i f : bits (update_child p i f) = bits p.
Proof. unfold update_child. destruct (Child p i) eqn:E. simpl. by rewrite <- (bits_Child p i), E. Qed.

Lemma ID_update_child p i f : ID (update_child p i f) = ID p.
Proof. unfold update_child. destruct (Child p i) eqn:E. simpl. by rewrite <- (ID_Child p i), E. Qed.

Lemma Child_returns p i : (Child p i).2 = child_or_new p i.
Proof.
  unfold Child, child_or_new, child_at. destruct (children p) as [m|]; simpl.
  - by destruct (m !! i).
  - by rewrite lookup_empty.
Qed.

Lemma child_at_Child p i j :
  child_at (Child p i).1 j = if decide (i = j) then Some (child_or_new p i) else child_at p j.
Proof.
  unfold Child, child_or_new, child_at. destruct (children p) as [m|]; simpl.
  - destruct (m !! i) eqn:E; simpl.
    + case_decide; by subst.
    + rewrite lookup_insert. case_decide; by subst.
  - rewrite lookup_empty. simpl. rewrite lookup_insert. case_decide; [done|].
    by rewrite lookup_empty.
Qed.

Lemma child_at_update_child p i f j :
  child_at (update_child p i f) j =
    if decide (i = j) then Some (f (child_or_new p i)) else child_at p j.
Proof.
  unfold update_child. pose proof (child_at_Child p i j) as H.
  pose proof (Child_returns p i) as Hr.
  destruct (Child p i) as [p1 c]. simpl in *. subst c.
  unfold child_at at 1. simpl. rewrite lookup_insert.
  case_decide; [done|]. rewrite <- H. unfold child_at. by destruct (children p1).
Qed.

Lemma Set_cons p i l : Set_ p (i :: l) = Set_ (Set_ p [i]) l.
Proof. done. Qed.

Lemma bits_Set_one p i : bits (Set_ p [i]) = BitSet.Set_ (bits p) i.
Proof. done. Qed.

Lemma Has_Set_one p i j :
  BitSet.wf (bits p) -> Has (Set_ p [i]) j = (j =? i) || Has p j.
Proof. intros. unfold Has. rewrite bits_Set_one. by apply Test_Set. Qed.

Lemma Set_keeps_wf p l : BitSet.wf (bits p) -> BitSet.wf (bits (Set_ p l)).
Proof.
  unfold Set_. simpl. generalize (bits p). induction l as [|i l IH]; intros b Hb; [done|].
  simpl. apply IH. by apply BitSetFacts.Set_wf.
Qed.

Lemma Has_Set p l j :
  BitSet.wf (bits p) -> Has (Set_ p l) j = bool_decide (j ∈ l) || Has p j.
Proof.
  revert p. induction l as [|i l IH]; intros p Hp.
  - rewrite bool_decide_eq_false_2; [done | apply not_elem_of_nil].
  - rewrite Set_cons, IH by (by apply Set_keeps_wf). rewrite Has_Set_one by done.
    destruct (N.eqb_spec j i) as [->|Hne].
    + rewrite (bool_decide_eq_true_2 (i ∈ i :: l)) by apply list_elem_of_here.
      by rewrite orb_true_r.
    + simpl. f_equal. apply bool_decide_ext. rewrite elem_of_cons. tauto.
Qed.

Lemma Clear_keeps_wf p l : BitSet.wf (bits p) -> BitSet.wf (bits (Clear p l)).
Proof.
  unfold Clear. simpl. generalize (bits p). induction l as [|i l IH]; intros b Hb; [done|].
  simpl. apply IH. by apply BitSetFacts.Clear_wf.
Qed.

(** ** Walk *)

(** C2. [Walk] with no index is true for every set, and [Walk] with the one
    index [i] gives what [Has(i)] gives when the set has no child at [i]. *)
Theorem Walk_empty_and_unrefined (p : PermissionSet) :
  Walk p [] = true /\
  forall i, child_at p i = None -> Walk p [i] = Has p i.
Proof.
  split; [done|]. intros i Hi. unfold Walk, Has. simpl. rewrite Hi.
  destruct (BitSet.Test (bits p) i); [|done]. by destruct (children p).
Qed.

Lemma Walk_empty_and_unrefined_witness :
  child_at scenario_walk 3 = None /\
  Walk scenario_walk [] = true /\ Walk scenario_walk [3] = Has scenario_walk 3.
Proof.
  split; [reflexivity|]. split.
  - apply (Walk_empty_and_unrefined scenario_walk).
  - apply (Walk_empty_and_unrefined scenario_walk). reflexivity.
Defined.

(** The third revision of [Walk] answers false where the first answers
    true: on the empty list of indices. *)
Lemma Walk_rev3_empty p : Walk_rev3 p [] = false.
Proof. done. Qed.

Lemma Walk_rev3_unrefined p i : child_at p i = None -> Walk_rev3 p [i] = Has p i.
Proof.
  intros Hi. unfold Walk_rev3, Has. simpl. rewrite Hi.
  destruct (BitSet.Test (bits p) i); [|done]. by destruct (children p).
Qed.

(** C3. On a set whose root has exactly the bits 3 and 5 and whose child at
    5 has exactly the bit 2: [Walk(5, 2)] is true, [Walk(5, 9)] and [Walk(4)]
    are false. *)
Theorem Walk_scenario (p child : PermissionSet) :
  (forall i, Has p i = true <-> i = 3 \/ i = 5) ->
  child_at p 5 = Some child ->
  (forall i, Has child i = true <-> i = 2) ->
  Walk p [5; 2] = true /\ Walk p [5; 9] = false /\ Walk p [4] = false.
Proof.
  intros Hp Hc Hchild. unfold Walk, Has in *. simpl. rewrite Hc.
  assert (BitSet.Test (bits p) 5 = true) as -> by (apply Hp; auto).
  assert (BitSet.Test (bits child) 2 = true) as -> by (by apply Hchild).
  assert (BitSet.Test (bits child) 9 = false) as ->.
  { apply not_true_is_false. rewrite Hchild. lia. }
  assert (BitSet.Test (bits p) 4 = false) as ->.
  { apply not_true_is_false. rewrite Hp. lia. }
  destruct (children p) as [m|] eqn:E; [|by unfold child_at in Hc; rewrite E in Hc].
  by destruct (child_at child 2).
Qed.

Lemma Has_scenario_walk i : Has scenario_walk i = true <-> i = 3 \/ i = 5.
Proof.
  unfold scenario_walk, Has. rewrite bits_update_child.
  fold (Has (Set_ newPermissionSet [3; 5]) i). rewrite Has_Set by apply wf_zero.
  rewrite orb_true_iff, bool_decide_eq_true, !elem_of_cons, elem_of_nil.
  unfold Has, BitSet.Test. simpl. destruct i; simpl; intuition congruence.
Qed.

Lemma Has_scenario_walk_child i : Has (Set_ newPermissionSet [2]) i = true <-> i = 2.
Proof.
  rewrite Has_Set by apply wf_zero.
  rewrite orb_true_iff, bool_decide_eq_true, !elem_of_cons, elem_of_nil.
  unfold Has, BitSet.Test. simpl. destruct i; simpl; intuition congruence.
Qed.

Lemma Walk_scenario_witness :
  (forall i, Has scenario_walk i = true <-> i = 3 \/ i = 5) /\
  child_at scenario_walk 5 = Some (Set_ newPermissionSet [2]) /\
  (forall i, Has (Set_ newPermissionSet [2]) i = true <-> i = 2) /\
  Walk scenario_walk [5; 2] = true /\ Walk scenario_walk [5; 9] = false /\
  Walk scenario_walk [4] = false.
Proof.
  split; [exact Has_scenario_walk|]. split; [reflexivity|].
  split; [exact Has_scenario_walk_child|].
  apply (Walk_scenario scenario_walk (Set_ newPermissionSet [2]));
    [exact Has_scenario_walk | reflexivity | exact Has_scenario_walk_child].
Defined.

(** The third revision differs from the first only in the value returned
    when the indices run out, which the scenario never reaches: each of its
    three walks leaves the loop early. *)
Lemma Walk_rev3_scenario_walk :
  Walk_rev3 scenario_walk [5; 2] = true /\
  Walk_rev3 scenario_walk [5; 9] = false /\
  Walk_rev3 scenario_walk [4] = false.
Proof. by vm_compute. Qed.

(** ** Intersection *)

Lemma bits_InPlaceIntersection a b :
  bits (InPlaceIntersection a b) = BitSet.InPlaceIntersection (bits a) (bits b).
Proof.
  unfold InPlaceIntersection. rewrite InPlaceIntersection_with_unfold. simpl. f_equal.
  apply (forEachSet_preserves (fun x => bits x = bits a)); [|done].
  intros i x Hx. destruct (Has x i); [|done].
  destruct (_ !! i); [|done]. by rewrite bits_update_child.
Qed.

Lemma ID_InPlaceIntersection a b : ID (InPlaceIntersection a b) = ID a.
Proof.
  unfold InPlaceIntersection. rewrite InPlaceIntersection_with_unfold. simpl.
  apply (forEachSet_preserves (fun x => ID x = ID a)); [|done].
  intros i x Hx. destruct (Has x i); [|done].
  destruct (_ !! i); [|done]. by rewrite ID_update_child.
Qed.

Lemma InPlaceIntersection_keeps_wf a b :
  BitSet.wf (bits a) -> BitSet.wf (bits b) -> BitSet.wf (bits (InPlaceIntersection a b)).
Proof. intros. rewrite bits_InPlaceIntersection. by apply BitSetFacts.InPlaceIntersection_wf. Qed.

Lemma Has_InPlaceIntersection a b i :
  BitSet.wf (bits a) -> BitSet.wf (bits b) ->
  Has (InPlaceIntersection a b) i = Has a i && Has b i.
Proof.
  intros. unfold Has. rewrite bits_InPlaceIntersection. by apply Test_InPlaceIntersection.
Qed.

(** ** Union *)

Lemma Union_bits_loop a b :
  BitSet.wf (bits a) -> BitSet.wf (bits b) ->
  let sub : gmap N (PermissionSet -> PermissionSet) :=
    match children b with
    | Some m => Union_with <$> m
    | None => ∅
    end in
  let p1 :=
    BitSet.forEachSet (bits b)
      (fun i p =>
         let p := Set_ p [i] in
         match sub !! i with
         | Some union_child => update_child p i union_child
         | None => p
         end) a in
  BitSet.wf (bits p1) /\
  forall j, BitSet.bit (bits p1) j || BitSet.bit (bits b) j
            = BitSet.bit (bits a) j || BitSet.bit (bits b) j.
Proof.
  intros Ha Hb sub p1. unfold p1.
  apply (forEachSet_invariant
           (fun x => BitSet.wf (bits x) /\
                     forall j, BitSet.bit (bits x) j || BitSet.bit (bits b) j
                               = BitSet.bit (bits a) j || BitSet.bit (bits b) j));
    [apply Hb| |done].
  intros i x Hi [Hx Hbits].
  assert (forall y, bits y = BitSet.Set_ (bits x) i ->
            BitSet.wf (bits y) /\
            forall j, BitSet.bit (bits y) j || BitSet.bit (bits b) j
                      = BitSet.bit (bits a) j || BitSet.bit (bits b) j) as Hy.
  { intros y ->. split; [by apply BitSetFacts.Set_wf|].
    intros j. rewrite bit_Set by apply Hx. rewrite <- Hbits.
    destruct (N.eqb_spec j i) as [->|]; [|done]. rewrite Hi. by rewrite !orb_true_r. }
  cbv zeta. destruct (sub !! i); apply Hy; [by rewrite bits_update_child | done].
Qed.

Lemma Union_keeps_wf a b :
  BitSet.wf (bits a) -> BitSet.wf (bits b) -> BitSet.wf (bits (Union a b)).
Proof.
  intros Ha Hb. unfold Union. rewrite Union_with_unfold. simpl.
  apply BitSetFacts.InPlaceUnion_wf; [|done]. by apply Union_bits_loop.
Qed.

Lemma Has_Union a b i :
  BitSet.wf (bits a) -> BitSet.wf (bits b) ->
  Has (Union a b) i = Has a i || Has b i.
Proof.
  intros Ha Hb. unfold Has. rewrite !Test_bit by auto using Union_keeps_wf.
  unfold Union. rewrite Union_with_unfold. simpl.
  destruct (Union_bits_loop a b Ha Hb) as [Hw Hbits].
  rewrite bit_InPlaceUnion; [apply Hbits | apply Hw | apply Hb].
Qed.

(** The second revision of [InPlaceIntersection] does add bits: the
    receiver ends with the bits of the argument. *)
Lemma InPlaceIntersection_rev2_adds :
  Has (Set_ newPermissionSet [70]) 5 = false /\
  Has (InPlaceIntersection_rev2 (Set_ newPermissionSet [70]) (Set_ newPermissionSet [5])) 5 = true.
Proof. split; vm_compute; reflexivity. Qed.

(** * A set combined with itself *)

Lemma depth_child p i c : child_at p i = Some c -> (depth c < depth p)%nat.
Proof.
  unfold child_at. destruct p as [id b [m|]]; [|done]. cbn [children depth].
  intros Hc. apply Nat.lt_succ_r. revert i c Hc.
  apply (map_fold_weak_ind
           (fun r (m : gmap N PermissionSet) => forall i c, m !! i = Some c -> (depth c <= r)%nat)).
  - intros i c. by rewrite lookup_empty.
  - intros j x m' r Hj IH i c. rewrite lookup_insert.
    destruct (decide (j = i)) as [->|Hne].
    + intros [= ->]. lia.
    + intros Hc. specialize (IH i c Hc). lia.
Qed.

Lemma BitSet_Set_set b i : BitSet.wf b -> BitSet.bit b i = true -> BitSet.Set_ b i = b.
Proof.
  intros (Hw & Hb & Hs) Hi.
  assert (i < BitSet.b_length b) as Hlt.
  { destruct (N.lt_ge_cases i (BitSet.b_length b)) as [|Hge]; [done|].
    apply Hs in Hge. congruence. }
  unfold BitSet.Set_, BitSet.extendSetMaybe.
  destruct (N.leb_spec (BitSet.b_length b) i); [lia|].
  destruct b as [n ws]. cbn [BitSet.b_length BitSet.b_set] in *. f_equal.
  apply list_eq. intros k. destruct (decide (k = N.to_nat (i / 64))) as [->|Hne].
  - rewrite list_lookup_alter_eq. unfold BitSet.bit, BitSet.word in Hi. simpl in Hi.
    rewrite nth_lookup in Hi. destruct (ws !! N.to_nat (i / 64)) as [w|]; [|done].
    simpl in *. f_equal. apply N.bits_inj. intros n'.
    rewrite N.lor_spec, N.shiftl_1_l, N.pow2_bits_eqb.
    destruct (N.eqb_spec (i mod 64) n') as [<-|]; [by rewrite Hi | by rewrite orb_false_r].
  - by rewrite list_lookup_alter_ne.
Qed.


Lemma with_bits_same p : with_bits p (bits p) = p.
Proof. by destruct p. Qed.

Lemma Set_one_set p i :
  BitSet.wf (bits p) -> BitSet.bit (bits p) i = true -> Set_ p [i] = p.
Proof.
  intros Hw Hi. unfold Set_. cbn [foldl]. rewrite BitSet_Set_set by done.
  apply with_bits_same.
Qed.

Lemma update_child_same p i c : child_at p i = Some c -> update_child p i (fun _ => c) = p.
Proof.
  unfold child_at, update_child, Child. destruct p as [id b [m|]]; [|done].
  cbn [children]. intros Hc. rewrite Hc. unfold with_children. cbn [ID bits children].
  by rewrite insert_id.
Qed.

(** A loop whose turns leave the receiver as it is ends with that
    receiver. *)
Lemma forNextSet_self_fixed p body :
  Forall (fun w => w < 2 ^ 64) (BitSet.b_set (bits p)) ->
  (forall i, BitSet.bit (bits p) i = true -> body i p = Some p) ->
  forall turns cur,
    (forall i, cur = Some i ->
               BitSet.bit (bits p) i = true /\
               i < 64 * N.of_nat (length (BitSet.b_set (bits p))) /\
               64 * N.of_nat (length (BitSet.b_set (bits p))) - i <= N.of_nat turns) ->
    forNextSet_self turns cur body p = Some p.
Proof.
  intros Hb Hbody turns. induction turns as [|turns IH]; intros cur Hcur.
  - destruct cur as [i|]; [|done]. specialize (Hcur i eq_refl). lia.
  - destruct cur as [i|]; [|done]. destruct (Hcur i eq_refl) as (Hi & Hlt & Hturns).
    cbn [forNextSet_self]. rewrite Hbody by done. apply IH.
    intros j Hj. apply NextSet_sound in Hj as (? & ? & ?); [|done].
    split; [done|]. lia.
Qed.

Lemma forNextSet_self_all p body :
  Forall (fun w => w < 2 ^ 64) (BitSet.b_set (bits p)) ->
  (forall i, BitSet.bit (bits p) i = true -> body i p = Some p) ->
  forNextSet_self (S (64 * length (BitSet.b_set (bits p)))) (BitSet.NextSet (bits p) 0) body p
  = Some p.
Proof.
  intros Hb Hbody. apply forNextSet_self_fixed; [done..|].
  intros j Hj. apply NextSet_sound in Hj as (? & ? & ?); [|done]. split; [done|]. lia.
Qed.

(** [a.Union(a)] leaves the whole tree as it was. *)
Theorem Union_self_unchanged p fuel :
  wf_tree p -> (depth p < fuel)%nat -> Union_self fuel p = Some p.
Proof.
  revert p. induction fuel as [|fuel IH]; intros p Hp Hd; [lia|].
  destruct Hp as [p Hwf Hch]. cbn [Union_self].
  rewrite forNextSet_self_all.
  - by rewrite InPlaceUnion_self, with_bits_same.
  - apply Hwf.
  - intros i Hi. cbv zeta. rewrite Set_one_set by done.
    destruct (child_at p i) as [c|] eqn:Hc; [|done].
    rewrite IH; [by rewrite update_child_same | by eapply Hch |].
    apply depth_child in Hc. lia.
Qed.


(** ** The claims on intersection and union *)




(** C5, as stated, fails on the set that [frame_stray] decodes to, whose bit
    vector stores bit 5 above its length 1.  With [e] the empty set,
    [Has(5)] is false after [a.Union(e)] and true after [e.Union(a)]: the
    loop over [NextSet] visits the stored bit and sets it in the receiver.
    [a.Union(a)] turns [Has(5)] from false to true, on a copy of [a] as on
    [a] itself, and after [e.Union(a)] bit 5 is set though neither set had
    it. *)
Lemma Union_differs_after_decoding :
  UnmarshalBinary newPermissionSet (slice_of frame_stray) = Returns (scenario_stray, None) /\
  Has scenario_stray 5 = false /\ Has newPermissionSet 5 = false /\
  Has (Union scenario_stray newPermissionSet) 5 = false /\
  Has (Union newPermissionSet scenario_stray) 5 = true /\
  Has (Union scenario_stray scenario_stray) 5 = true /\
  (exists a', Union_self (S (depth scenario_stray)) scenario_stray = Some a' /\ Has a' 5 = true).
Proof.
  do 6 (split; [vm_compute; reflexivity|]).
  eexists. split; vm_compute; reflexivity.
Qed.

(** C5, amended.  For two sets whose bit vectors keep the library's
    invariant (as many words as the length needs, no stored bit at or above
    the length) and of which the argument shares nothing with the receiver,
    union is commutative and idempotent on the bit vector, and after
    [a.Union(b)] a bit is set exactly when it was set in [a] or in [b].
    Idempotence is stated twice: for an argument that is a copy of [a], and
    for [a] itself as the argument, where, on a tree whose bit vectors all
    keep the invariant, the whole tree stays as it was. *)
Theorem Union_commutative_idempotent (a b : PermissionSet) :
  BitSet.wf (bits a) -> BitSet.wf (bits b) ->
  (forall i, Has (Union a b) i = Has (Union b a) i) /\
  (forall i, Has (Union a a) i = Has a i) /\
  (wf_tree a -> Union_self (S (depth a)) a = Some a) /\
  (forall i, Has (Union a b) i = true <-> Has a i = true \/ Has b i = true).
Proof.
  intros Ha Hb. split; [|split; [|split]].
  - intros i. rewrite !Has_Union by done. apply orb_comm.
  - intros i. rewrite !Has_Union by done. apply orb_diag.
  - intros Hwf. apply Union_self_unchanged; [done | lia].
  - intros i. rewrite !Has_Union by done. apply orb_true_iff.
Qed.

Lemma Union_commutative_idempotent_witness :
  BitSet.wf (bits (Set_ newPermissionSet [3; 70])) /\
  BitSet.wf (bits scenario_query) /\
  (forall i, Has (Union (Set_ newPermissionSet [3; 70]) scenario_query) i
             = Has (Union scenario_query (Set_ newPermissionSet [3; 70])) i) /\
  (forall i, Has (Union (Set_ newPermissionSet [3; 70]) (Set_ newPermissionSet [3; 70])) i
             = Has (Set_ newPermissionSet [3; 70]) i) /\
  (wf_tree (Set_ newPermissionSet [3; 70]) ->
   Union_self (S (depth (Set_ newPermissionSet [3; 70]))) (Set_ newPermissionSet [3; 70])
   = Some (Set_ newPermissionSet [3; 70])) /\
  (forall i, Has (Union (Set_ newPermissionSet [3; 70]) scenario_query) i = true <->
             Has (Set_ newPermissionSet [3; 70]) i = true \/ Has scenario_query i = true).
Proof.
  assert (BitSet.wf (bits (Set_ newPermissionSet [3; 70]))) as Ha by apply Set_keeps_wf, wf_zero.
  assert (BitSet.wf (bits scenario_query)) as Hb.
  { unfold scenario_query. rewrite bits_update_child. apply Set_keeps_wf, wf_zero. }
  split; [exact Ha|]. split; [exact Hb|].
  apply (Union_commutative_idempotent (Set_ newPermissionSet [3; 70]) scenario_query Ha Hb).
Defined.

(** ** HasMultiple *)

Lemma fill_values {A} (f : N -> A) (v : list N) (pre l : list A) :
  length l = length v ->
  foldl (fun values ix => <[fst ix := f (snd ix)]> values) (pre ++ l)
        (imap (fun i x => (length pre + i, x)%nat) v)
  = pre ++ map f v.
Proof.
  revert pre l. induction v as [|x v IH]; intros pre l Hl.
  - by destruct l.
  - destruct l as [|y l]; [done|]. simpl in *.
    rewrite Nat.add_0_r. rewrite insert_app_r_alt, Nat.sub_diag by lia. simpl.
    replace (pre ++ f x :: l) with ((pre ++ [f x]) ++ l) by (by rewrite <- app_assoc).
    erewrite imap_ext; [rewrite (IH (pre ++ [f x]) l) by lia|].
    + by rewrite <- app_assoc.
    + intros i z _. simpl. rewrite length_app. simpl. f_equal. lia.
Qed.

Lemma HasMultiple_entry_spec k v results p :
  HasMultiple_entry k v (results, p) =
    (<[k := HasMultiple_values p k v]> results, if Has p k then (Child p k).1 else p).
Proof.
  unfold HasMultiple_entry, HasMultiple_values.
  replace (if (1 <? length v)%nat then length v else 1%nat) with (Nat.max 1 (length v))
    by (destruct (Nat.ltb_spec 1 (length v)); lia).
  destruct (Has p k); [|done].
  pose proof (Child_returns p k) as Hr. destruct (Child p k) as [p1 set]. simpl in *.
  subst set. destruct (0 <? Len (child_or_new p k)).
  - destruct v as [|x v]; [done|]. f_equal. f_equal.
    change (Nat.max 1 (length (x :: v))) with (S (length v)).
    change (<[0%nat:=true]> (replicate (S (length v)) false))
      with ([] ++ true :: replicate (length v) false).
    rewrite (fill_values (Has (child_or_new p k)) (x :: v) []); [done|].
    simpl. by rewrite length_replicate.
  - f_equal. f_equal. destruct (Nat.max 1 (length v)) eqn:E; [lia|].
    simpl. by rewrite Nat.sub_0_r.
Qed.

Lemma HasMultiple_values_length p k v :
  length (HasMultiple_values p k v) = Nat.max 1 (length v).
Proof.
  unfold HasMultiple_values. destruct (Has p k); [|by rewrite length_replicate].
  destruct (0 <? _).
  - destruct v; [done|]. rewrite length_map. simpl. lia.
  - simpl. rewrite length_replicate. lia.
Qed.

Lemma child_or_new_Child p k j : child_or_new (Child p k).1 j = child_or_new p j.
Proof.
  unfold child_or_new at 1. rewrite child_at_Child. case_decide; [by subst|done].
Qed.

Lemma HasMultiple_values_ext p q k v :
  bits q = bits p -> child_or_new q k = child_or_new p k ->
  HasMultiple_values q k v = HasMultiple_values p k v.
Proof. intros Hb Hc. unfold HasMultiple_values, Has. by rewrite Hb, Hc. Qed.

Lemma HasMultiple_flat range p sets :
  HasMultiple range p sets =
    foldl (fun st kv => HasMultiple_entry (fst kv) (snd kv) st) (∅, p)
          (HasMultiple_entries range sets).
Proof.
  unfold HasMultiple, HasMultiple_entries, HasMultiple_range.
  generalize (∅ : gmap N (list bool), p).
  induction sets as [|batch sets IH]; intros st; [done|].
  simpl. by rewrite foldl_app, IH.
Qed.

(** The receiver after the entries [es]: same identifier, same bits, and a
    child where an entry names a bit that is set. *)
Lemma HasMultiple_receiver es results p :
  let p' := (foldl (fun st kv => HasMultiple_entry (fst kv) (snd kv) st) (results, p) es).2 in
  ID p' = ID p /\ bits p' = bits p /\
  (forall j, child_or_new p' j = child_or_new p j) /\
  (forall j, child_at p' j =
             if bool_decide (j ∈ es.*1) && Has p j
             then Some (child_or_new p j) else child_at p j) /\
  ((forall k, k ∈ es.*1 -> Has p k = false) -> p' = p).
Proof.
  revert results p. induction es as [|[k v] es IH]; intros results p.
  - simpl. by repeat split.
  - cbn [foldl fst snd]. rewrite HasMultiple_entry_spec.
    set (p1 := if Has p k then (Child p k).1 else p).
    assert (ID p1 = ID p) as HID by (unfold p1; destruct (Has p k); [apply ID_Child|done]).
    assert (bits p1 = bits p) as Hbits
        by (unfold p1; destruct (Has p k); [apply bits_Child|done]).
    assert (forall j, child_or_new p1 j = child_or_new p j) as Hcn
        by (intros j; unfold p1; destruct (Has p k); [apply child_or_new_Child|done]).
    destruct (IH (<[k:=HasMultiple_values p k v]> results) p1) as (H1 & H2 & H3 & H4 & H5).
    split; [congruence|]. split; [congruence|]. split; [intros j; by rewrite H3|].
    split.
    + assert (forall j, child_at p1 j =
                if Has p k then (if decide (k = j) then Some (child_or_new p k) else child_at p j)
                else child_at p j) as Hat
        by (intros j; unfold p1; destruct (Has p k); [apply child_at_Child|done]).
      intros j. rewrite H4, Hat, Hcn, fmap_cons. cbn [fst].
      replace (Has p1 j) with (Has p j) by (unfold Has; by rewrite Hbits).
      destruct (decide (j = k)) as [->|Hne].
      * rewrite (bool_decide_eq_true_2 (k ∈ k :: es.*1)) by apply list_elem_of_here.
        rewrite decide_True by done.
        destruct (Has p k); [|by rewrite !andb_false_r].
        by destruct (bool_decide _).
      * rewrite (bool_decide_ext (j ∈ k :: es.*1) (j ∈ es.*1))
          by (rewrite elem_of_cons; tauto).
        rewrite decide_False by done.
        destruct (_ && _); [done|]. by destruct (Has p k).
    + rewrite fmap_cons. cbn [fst]. intros Hnone. assert (p1 = p) as Hp1.
      { unfold p1. rewrite (Hnone k); [done | apply list_elem_of_here]. }
      rewrite H5; [done|]. intros k' Hk'. unfold Has. rewrite Hbits.
      apply Hnone. by apply list_elem_of_further.
Qed.

Lemma HasMultiple_results_flat es results p k :
  (foldl (fun st kv => HasMultiple_entry (fst kv) (snd kv) st) (results, p) es).1 !! k =
    match (list_to_map (reverse es) : gmap N (list N)) !! k with
    | Some v => Some (HasMultiple_values p k v)
    | None => results !! k
    end.
Proof.
  revert results p. induction es as [|[k' v'] es IH]; intros results p; [done|].
  cbn [foldl fst snd]. rewrite HasMultiple_entry_spec, IH. rewrite reverse_cons, list_to_map_app.
  rewrite lookup_union. simpl.
  destruct (list_to_map (reverse es) !! k) as [v|] eqn:E; simpl.
  - rewrite union_Some_l. apply f_equal. apply HasMultiple_values_ext.
    + destruct (Has p k'); [apply bits_Child|done].
    + destruct (Has p k'); [apply child_or_new_Child|done].
  - rewrite left_id by apply _. rewrite !lookup_insert, lookup_empty.
    case_decide; by subst.
Qed.

Lemma last_query_entries range sets k :
  range_ok range ->
  (list_to_map (reverse (HasMultiple_entries range sets)) : gmap N (list N)) !! k
  = last_query sets k.
Proof.
  intros Hr. unfold HasMultiple_entries, last_query.
  induction sets as [|batch sets IH] using rev_ind; [done|].
  rewrite map_app, concat_app, reverse_app, list_to_map_app, foldl_app. simpl.
  rewrite app_nil_r, lookup_union, IH.
  assert ((list_to_map (reverse (range _ batch)) : gmap N (list N)) = batch) as ->.
  { rewrite <- (list_to_map_to_list batch) at 2. apply list_to_map_proper.
    - rewrite fmap_reverse, reverse_Permutation, (Hr _ batch). apply NoDup_fst_map_to_list.
    - by rewrite reverse_Permutation. }
  destruct (batch !! k); simpl; [by rewrite union_Some_l | by rewrite left_id by apply _].
Qed.

Theorem HasMultiple_results range p sets k :
  range_ok range ->
  (HasMultiple range p sets).1 !! k = HasMultiple_values p k <$> last_query sets k.
Proof.
  intros Hr. rewrite HasMultiple_flat, HasMultiple_results_flat, last_query_entries by done.
  by destruct (last_query sets k).
Qed.

Lemma queried_entries range sets k :
  range_ok range -> k ∈ (HasMultiple_entries range sets).*1 <-> queried sets k.
Proof.
  intros Hr. unfold HasMultiple_entries, queried. induction sets as [|batch sets IH]; simpl.
  - split; [by intros ?%elem_of_nil|]. by intros (? & ?%elem_of_nil & _).
  - rewrite fmap_app, elem_of_app, IH. split.
    + intros [Hin|(b & Hb & Hk)].
      * apply list_elem_of_fmap in Hin as ([k' v] & -> & Hin).
        rewrite (Hr _ batch) in Hin. apply elem_of_map_to_list in Hin. exists batch.
        split; [apply list_elem_of_here | by exists v].
      * exists b. split; [by apply list_elem_of_further | done].
    + intros (b & Hb & Hk). apply elem_of_cons in Hb as [->|Hb].
      * left. destruct Hk as [v Hv]. apply list_elem_of_fmap. exists (k, v).
        split; [done|]. rewrite (Hr _ batch). by apply elem_of_map_to_list.
      * right. by exists b.
Qed.

Lemma range_ok_to_list : range_ok range_to_list.
Proof. by intros A m. Qed.

Lemma Has_newPermissionSet i : Has newPermissionSet i = false.
Proof. unfold Has, BitSet.Test. simpl. by destruct i. Qed.

Lemma Has_positive_Len p i : Has p i = true -> 0 < Len p.
Proof.
  unfold Has, Len, BitSet.Test, BitSet.Len.
  destruct (N.leb_spec (BitSet.b_length (bits p)) i); [done | lia].
Qed.

Lemma scenario_query_shape :
  Has scenario_query 5 = true /\
  exists child, child_at scenario_query 5 = Some child /\
                forall i, Has child i = true <-> i = 1.
Proof.
  split; [reflexivity|]. exists (Set_ newPermissionSet [1]). split; [reflexivity|].
  intros i. rewrite Has_Set by apply wf_zero. rewrite Has_newPermissionSet, orb_false_r.
  rewrite bool_decide_eq_true, list_elem_of_singleton. done.
Qed.

(** C6, as stated, fails: in the scenario the answer for the key 5 has two
    positions, not three. *)
Lemma HasMultiple_scenario_counterexample :
  Has scenario_query 5 = true /\
  (exists child, child_at scenario_query 5 = Some child /\
                 forall i, Has child i = true <-> i = 1) /\
  (HasMultiple range_to_list scenario_query [ {[ 5 := [1; 2] ]} ]).1 !! 5 = Some [true; false] /\
  (HasMultiple range_to_list scenario_query [ {[ 5 := [1; 2] ]} ]).1 <> {[ 5 := [true; true; false] ]}.
Proof.
  destruct scenario_query_shape as [H5 Hchild]. split; [done|]. split; [done|].
  assert ((HasMultiple range_to_list scenario_query [ {[ 5 := [1; 2] ]} ]).1 !! 5 = Some [true; false])
    as Hres by (vm_compute; reflexivity).
  split; [done|]. intros Heq. rewrite Heq, lookup_singleton_eq in Hres. discriminate.
Qed.

(** C6, amended.  In the scenario [HasMultiple] answers [{5: [true, false]}].
    In general the answer for a key [k], queried with [v] by the last batch
    that names it, has [max(1, len(v))] positions; they are all false when
    bit [k] is not set on the root; the only position reports the root bit
    when [v] is empty; position 0 is true and the others false when the bit
    is set and the child at [k] has an empty bit vector; and when the bit is
    set and the child's bit vector is not empty, position [j] reports
    [v[j]] on the child. A key that no batch names has no answer. *)
Theorem HasMultiple_scenario_and_shape
        (range : range_order) (p : PermissionSet) :
  range_ok range ->
  (forall child,
      Has p 5 = true -> child_at p 5 = Some child ->
      (forall i, Has child i = true <-> i = 1) ->
      (HasMultiple range p [ {[ 5 := [1; 2] ]} ]).1 = {[ 5 := [true; false] ]}) /\
  (forall sets k v,
      last_query sets k = Some v ->
      exists out,
        (HasMultiple range p sets).1 !! k = Some out /\
        length out = Nat.max 1 (length v) /\
        (Has p k = false -> out = replicate (Nat.max 1 (length v)) false) /\
        (v = [] -> out = [Has p k]) /\
        (Has p k = true -> Len (child_or_new p k) = 0 ->
         out = true :: replicate (Nat.max 1 (length v) - 1) false) /\
        (Has p k = true -> 0 < Len (child_or_new p k) ->
         forall j idx, v !! j = Some idx -> out !! j = Some (Has (child_or_new p k) idx))) /\
  (forall sets k, last_query sets k = None -> (HasMultiple range p sets).1 !! k = None).
Proof.
  intros Hr. split; [|split].
  - intros child H5 Hc Hchild. apply map_eq. intros k.
    rewrite HasMultiple_results by done. unfold last_query. simpl.
    destruct (decide (k = 5)) as [->|Hne].
    + rewrite !lookup_singleton_eq. simpl. f_equal.
      unfold HasMultiple_values, child_or_new. rewrite H5, Hc. simpl.
      assert (Has child 1 = true) as H1 by (by apply Hchild).
      assert (Has child 2 = false) as H2.
      { apply not_true_is_false. rewrite Hchild. lia. }
      apply Has_positive_Len in H1 as Hlen.
      apply N.ltb_lt in Hlen. by rewrite Hlen, H1, H2.
    + by rewrite !lookup_singleton_ne.
  - intros sets k v Hq. exists (HasMultiple_values p k v).
    rewrite HasMultiple_results, Hq by done. split; [done|].
    split; [apply HasMultiple_values_length|].
    unfold HasMultiple_values. split; [by intros ->|]. split; [|split].
    + intros ->. destruct (Has p k); [|done]. by destruct (0 <? _).
    + intros -> Hz. by rewrite Hz.
    + intros -> Hpos j idx Hj. apply N.ltb_lt in Hpos as ->.
      destruct v as [|x v]; [done|]. by rewrite list_lookup_fmap, Hj.
  - intros sets k Hq. by rewrite HasMultiple_results, Hq by done.
Qed.

Lemma HasMultiple_scenario_and_shape_witness :
  range_ok range_to_list /\
  Has scenario_query 5 = true /\
  child_at scenario_query 5 = Some (Set_ newPermissionSet [1]) /\
  (forall i, Has (Set_ newPermissionSet [1]) i = true <-> i = 1) /\
  (HasMultiple range_to_list scenario_query [ {[ 5 := [1; 2] ]} ]).1 = {[ 5 := [true; false] ]}.
Proof.
  assert (forall i, Has (Set_ newPermissionSet [1]) i = true <-> i = 1) as Hchild.
  { intros i. rewrite Has_Set by apply wf_zero. rewrite Has_newPermissionSet, orb_false_r.
    rewrite bool_decide_eq_true, list_elem_of_singleton. done. }
  split; [exact range_ok_to_list|].
  split; [reflexivity|]. split; [reflexivity|]. split; [exact Hchild|].
  apply (proj1 (HasMultiple_scenario_and_shape range_to_list scenario_query range_ok_to_list)
                (Set_ newPermissionSet [1]));
    [reflexivity | reflexivity | exact Hchild].
Defined.

(** C10. [HasMultiple] changes its receiver: every queried key whose bit is
    set on the root has a child afterwards (the one it had, or a new empty
    set); every other index keeps what it had; and when no queried key has
    its bit set the receiver, its map of children included, stays as it
    was.  The identifier and the bits never change. *)
Theorem HasMultiple_creates_children
        (range : range_order)
        (p : PermissionSet) (sets : list (gmap N (list N))) :
  range_ok range ->
  let p' := (HasMultiple range p sets).2 in
  ID p' = ID p /\ bits p' = bits p /\
  (forall k, queried sets k -> Has p k = true ->
             child_at p' k = Some (child_or_new p k) /\
             (child_at p k = None -> child_at p' k = Some newPermissionSet)) /\
  (forall k, ~ (queried sets k /\ Has p k = true) -> child_at p' k = child_at p k) /\
  ((forall k, queried sets k -> Has p k = false) -> p' = p).
Proof.
  intros Hr p'. unfold p'. rewrite HasMultiple_flat.
  destruct (HasMultiple_receiver (HasMultiple_entries range sets) ∅ p)
    as (H1 & H2 & _ & H4 & H5).
  split; [done|]. split; [done|]. split; [|split].
  - intros k Hq Hk. rewrite H4, Hk.
    rewrite bool_decide_eq_true_2 by (by apply queried_entries). simpl.
    split; [done|]. intros Hnone. unfold child_or_new. by rewrite Hnone.
  - intros k Hn. rewrite H4.
    destruct (bool_decide_reflect (k ∈ (HasMultiple_entries range sets).*1))
      as [Hin|Hin]; [|done].
    apply queried_entries in Hin; [|done]. destruct (Has p k) eqn:E; [|done]. by destruct Hn.
  - intros Hn. apply H5. intros k Hin. apply Hn. by apply (queried_entries range).
Qed.

Lemma HasMultiple_creates_children_witness :
  range_ok range_to_list /\
  queried [ {[ 5 := [1; 2] ]} ] 5 /\ Has scenario_bare 5 = true /\
  child_at scenario_bare 5 = None /\
  child_at (HasMultiple range_to_list scenario_bare [ {[ 5 := [1; 2] ]} ]).2 5 = Some newPermissionSet /\
  ~ (queried [ {[ 5 := [1; 2] ]} ] 7 /\ Has scenario_bare 7 = true) /\
  child_at (HasMultiple range_to_list scenario_bare [ {[ 5 := [1; 2] ]} ]).2 7 = child_at scenario_bare 7.
Proof.
  assert (queried [ ({[ 5 := [1; 2] ]} : gmap N (list N)) ] 5) as Hq.
  { exists {[ 5 := [1; 2] ]}. split; [apply list_elem_of_here|].
    rewrite lookup_singleton_eq. by eexists. }
  assert (~ (queried [ ({[ 5 := [1; 2] ]} : gmap N (list N)) ] 7
             /\ Has scenario_bare 7 = true)) as Hn.
  { intros [(batch & Hb & Hk) _]. apply list_elem_of_singleton in Hb as ->.
    rewrite lookup_singleton_ne in Hk by done. by destruct Hk. }
  split; [exact range_ok_to_list|].
  split; [exact Hq|]. split; [reflexivity|]. split; [reflexivity|].
  pose proof (HasMultiple_creates_children range_to_list scenario_bare [ {[ 5 := [1; 2] ]} ]
                range_ok_to_list) as (_ & _ & Hset & Hunset & _).
  split; [apply (Hset 5 Hq); reflexivity|]. split; [exact Hn|]. apply (Hunset 7 Hn).
Defined.

(** * The binary codec *)

Lemma cap_subslice data a b s :
  subslice data a b = Some s -> a <= b /\ b <= cap data /\ cap s = cap data - a /\ len s = b - a.
Proof.
  unfold subslice. destruct (N.leb_spec a b); simpl; [|done].
  destruct (N.leb_spec b (cap data)); simpl; [|done]. intros [= <-].
  unfold cap, len in *. simpl. rewrite !length_app, length_take, !length_drop.
  rewrite length_app in *. lia.
Qed.

Lemma subslice_None data a b : cap data < b -> subslice data a b = None.
Proof.
  intros H. unfold subslice. destruct (N.leb_spec b (cap data)); [lia|].
  by rewrite andb_false_r.
Qed.

(** ** Termination of the decoder *)

Lemma UnmarshalBinary_children_terminates decode_child turns data maxLen p m offset :
  (forall sub, cap sub < cap data -> decode_child sub <> OutOfFuel) ->
  maxLen < offset + N.of_nat turns ->
  UnmarshalBinary_children decode_child turns data maxLen p m offset <> OutOfFuel.
Proof.
  intros Hchild. revert m offset.
  induction turns as [|turns IH]; intros m offset Hturns; simpl.
  - destruct (N.leb_spec maxLen offset); [done | lia].
  - destruct (maxLen <=? offset); [done|].
    destruct (Uvarint_slot data offset (offset + 7)) as [[idx read]|]; [|done].
    destruct (read =? 0)%Z; [done|]. destruct (read <? 0)%Z; [done|].
    destruct (Uvarint_slot data (offset + 24) (offset + 31)) as [[childSize read']|]; [|done].
    destruct (read' =? 0)%Z; [done|]. destruct (read' <? 0)%Z; [done|].
    destruct (subslice data (offset + 8) (offset + 8 + childSize)) as [sub|] eqn:Esub; [|done].
    apply cap_subslice in Esub as (? & ? & Hcap & _).
    destruct (decode_child sub) as [[child [err|]]| |] eqn:Edec; try done.
    + apply IH. lia.
    + exfalso. eapply Hchild; [|done]. lia.
Qed.

Lemma UnmarshalBinary_fuel_terminates fuel p data :
  cap data < N.of_nat fuel -> UnmarshalBinary_fuel fuel p data <> OutOfFuel.
Proof.
  revert p data. induction fuel as [|fuel IH]; intros p data Hfuel; [lia|].
  cbn [UnmarshalBinary_fuel].
  destruct (len data =? 0); [done|].
  destruct (Uvarint_slot data 0 7) as [[id read]|]; [|done].
  destruct (read =? 0)%Z; [done|]. destruct (read <? 0)%Z; [done|].
  destruct (Uvarint_slot data 8 15) as [[size read']|]; [|done].
  destruct (read' =? 0)%Z; [done|]. destruct (read' <? 0)%Z; [done|].
  destruct (subslice data 24 (24 + size)) as [payload|]; [|done].
  destruct (BitSet.UnmarshalBinary (elems payload)); [done|].
  destruct (24 + size <? len data); [|done].
  apply UnmarshalBinary_children_terminates; [|lia].
  intros sub Hsub. apply IH. lia.
Qed.

(** X24.  The decoder always returns or panics: the bound on its recursion is
    never reached. *)
Theorem UnmarshalBinary_terminates p data : UnmarshalBinary p data <> OutOfFuel.
Proof. apply UnmarshalBinary_fuel_terminates. lia. Qed.

(** ** The empty input *)

(** C9. [UnmarshalBinary] on an input of length zero returns no error and
    leaves the receiver as it was: same identifier, same bits, same
    children. *)
Theorem UnmarshalBinary_empty_input (p : PermissionSet) (data : slice) :
  len data = 0 -> UnmarshalBinary p data = Returns (p, None).
Proof. intros H. unfold UnmarshalBinary. cbn [UnmarshalBinary_fuel]. by rewrite H. Qed.

Lemma UnmarshalBinary_empty_input_witness :
  len (slice_of []) = 0 /\
  UnmarshalBinary scenario_walk (slice_of []) = Returns (scenario_walk, None).
Proof.
  split; [reflexivity|]. apply (UnmarshalBinary_empty_input scenario_walk (slice_of [])).
  reflexivity.
Defined.

(** ** Short inputs and the two error values *)

(** X26.  An input that is not empty and whose backing array has fewer than
    seven bytes makes [data[:7]] panic. *)
Lemma UnmarshalBinary_short_panics p data :
  0 < len data -> cap data < 7 -> UnmarshalBinary p data = Panic.
Proof.
  intros Hlen Hcap. unfold UnmarshalBinary. cbn [UnmarshalBinary_fuel].
  destruct (N.eqb_spec (len data) 0); [lia|].
  unfold Uvarint_slot. by rewrite subslice_None.
Qed.

Lemma Uvarint_loop_read buf i x s :
  (i + length buf <= 9)%nat -> (0 <= (Binary.Uvarint_loop buf i x s).2)%Z.
Proof.
  revert i x s. induction buf as [|b buf IH]; intros i x s Hi; simpl; [done|].
  simpl in Hi. unfold Binary.MaxVarintLen64.
  destruct (Nat.eqb_spec i 10); [lia|].
  destruct (b <? 128).
  - destruct (Nat.eqb_spec i 9); [lia|]. cbn [andb snd]. lia.
  - apply IH. lia.
Qed.

Lemma Uvarint_slot_read data a x read :
  Uvarint_slot data a (a + 7) = Some (x, read) -> (0 <= read)%Z.
Proof.
  unfold Uvarint_slot. destruct (subslice data a (a + 7)) as [s|] eqn:E; [|done].
  intros [= H]. apply cap_subslice in E as (_ & _ & _ & Hlen).
  pose proof (Uvarint_loop_read (elems s) 0 0 0) as Hr.
  unfold Binary.Uvarint in H. rewrite H in Hr. simpl in Hr. apply Hr.
  unfold len in Hlen. lia.
Qed.

Lemma UnmarshalBinary_children_no_overflow decode_child turns data maxLen p m offset p' :
  (forall sub q, decode_child sub <> Returns (q, Some ErrBufOveflow)) ->
  UnmarshalBinary_children decode_child turns data maxLen p m offset
    <> Returns (p', Some ErrBufOveflow).
Proof.
  intros Hchild. revert m offset.
  induction turns as [|turns IH]; intros m offset; simpl.
  - by destruct (maxLen <=? offset).
  - destruct (maxLen <=? offset); [done|].
    destruct (Uvarint_slot data offset (offset + 7)) as [[idx read]|] eqn:E1; [|done].
    apply Uvarint_slot_read in E1.
    destruct (read =? 0)%Z; [done|]. destruct (Z.ltb_spec read 0); [lia|].
    replace (offset + 31) with (offset + 24 + 7) by lia.
    destruct (Uvarint_slot data (offset + 24) (offset + 24 + 7)) as [[childSize read']|] eqn:E2;
      [|done].
    apply Uvarint_slot_read in E2.
    destruct (read' =? 0)%Z; [done|]. destruct (Z.ltb_spec read' 0); [lia|].
    destruct (subslice data (offset + 8) (offset + 8 + childSize)) as [sub|]; [|done].
    destruct (decode_child sub) as [[child [err|]]| |] eqn:Edec; try done.
    intros [= _ ->]. by eapply Hchild.
Qed.

(** X25.  The decoder never reports the overflow error: every integer is read
    from a slice of seven bytes, too short for [binary.Uvarint] to see an
    overflow. *)
Theorem UnmarshalBinary_never_overflow p data p' :
  UnmarshalBinary p data <> Returns (p', Some ErrBufOveflow).
Proof.
  unfold UnmarshalBinary. generalize (S (N.to_nat (cap data))). intros fuel.
  revert p data p'. induction fuel as [|fuel IH]; intros p data p'; [done|].
  cbn [UnmarshalBinary_fuel].
  destruct (len data =? 0); [done|].
  change 7 with (0 + 7).
  destruct (Uvarint_slot data 0 (0 + 7)) as [[id read]|] eqn:E1; [|done].
  apply Uvarint_slot_read in E1.
  destruct (read =? 0)%Z; [done|]. destruct (Z.ltb_spec read 0); [lia|].
  change 15 with (8 + 7).
  destruct (Uvarint_slot data 8 (8 + 7)) as [[size read']|] eqn:E2; [|done].
  apply Uvarint_slot_read in E2.
  destruct (read' =? 0)%Z; [done|]. destruct (Z.ltb_spec read' 0); [lia|].
  destruct (subslice data 24 (24 + size)) as [payload|]; [|done].
  destruct (BitSet.UnmarshalBinary (elems payload)); [done|].
  destruct (24 + size <? len data); [|done].
  apply UnmarshalBinary_children_no_overflow. intros sub q. apply IH.
Qed.

(** C8: the code does not do what the claim says.  A one-byte input whose
    capacity is its length panics; with spare capacity behind it the call
    runs on and fails in the bit vector's decoder; and a header whose first
    slot holds an integer that never ends is reported as a buffer that is
    too small, not as an overflow. *)
Theorem UnmarshalBinary_truncated_input :
  UnmarshalBinary newPermissionSet (slice_of [1]) = Panic /\
  UnmarshalBinary newPermissionSet (mkSlice [1] (replicate 31 0))
    = Returns (with_ID newPermissionSet 1, Some (ErrBitSet BitSet.EOF)) /\
  UnmarshalBinary newPermissionSet (slice_of (replicate 32 255))
    = Returns (newPermissionSet, Some ErrBufTooSmall).
Proof. repeat split; vm_compute; reflexivity. Qed.

(** C1: the code does not do what the claim says.  A set with the
    identifier [2^49] and nothing else is encoded in 32 bytes, the
    identifier taking the eight bytes of its slot; the decoder reads seven
    of them, finds no end of the integer and gives up. *)
Theorem binary_roundtrip_large_ID (range : range_order) :
  MarshalBinary range (with_ID newPermissionSet (2 ^ 49))
    = Some ([128; 128; 128; 128; 128; 128; 128; 1] ++ [8; 0; 0; 0; 0; 0; 0; 0] ++
            [32; 0; 0; 0; 0; 0; 0; 0] ++ [0; 0; 0; 0; 0; 0; 0; 0]) /\
  UnmarshalBinary newPermissionSet
    (slice_of ([128; 128; 128; 128; 128; 128; 128; 1] ++ [8; 0; 0; 0; 0; 0; 0; 0] ++
               [32; 0; 0; 0; 0; 0; 0; 0] ++ [0; 0; 0; 0; 0; 0; 0; 0]))
    = Returns (newPermissionSet, Some ErrBufTooSmall).
Proof. split; vm_compute; reflexivity. Qed.

(** * The structured codec *)

(** A set whose map of children is [nil] is encoded without the field
    ["children"], and a document without it is decoded into a set whose map
    is [nil]. *)
Lemma MarshalJSON_no_children range p :
  children p = None -> doc_children (MarshalJSON range p) = None.
Proof. intros H. destruct p. simpl in *. by subst. Qed.

Lemma UnmarshalJSON_no_children rangeZ d p :
  doc_children d = None -> UnmarshalJSON rangeZ d = JReturns p -> children p = None.
Proof.
  intros H. destruct d as [id bs ch]. simpl in *. subst ch.
  destruct (BitSet.UnmarshalBinary bs); [done|]. by intros [= <-].
Qed.

(** A map of children that is empty but not [nil] is encoded with the
    field. *)
Lemma MarshalJSON_empty_children range p :
  (forall A, range A ∅ = []) ->
  children p = Some ∅ -> doc_children (MarshalJSON range p) = Some ∅.
Proof. intros Hr H. destruct p. simpl in *. subst. by rewrite fmap_empty, Hr. Qed.

(** C7: the code does not do what the claim says.  The identifier
    [2^53 + 1] comes back as [2^53], because the decoder reads it as a
    [float64]; and a child at the index [2^63] comes back at the index 0,
    because the encoder prints [int(k)], a negative number, which
    [strconv.ParseUint] rejects. *)
Theorem json_roundtrip_loses_ID_and_index :
  UnmarshalJSON (fun A => map_to_list)
      (MarshalJSON (fun A => map_to_list) (with_ID newPermissionSet (2 ^ 53 + 1)))
    = JReturns (with_ID newPermissionSet (2 ^ 53)) /\
  (exists p,
      UnmarshalJSON (fun A => map_to_list)
          (MarshalJSON (fun A => map_to_list) (Child newPermissionSet (2 ^ 63)).1)
        = JReturns p /\
      child_at (Child newPermissionSet (2 ^ 63)).1 (2 ^ 63) = Some newPermissionSet /\
      child_at p (2 ^ 63) = None /\ child_at p 0 = Some newPermissionSet).
Proof.
  split; [vm_compute; reflexivity|].
  eexists. split; [vm_compute; reflexivity|]. repeat split; vm_compute; reflexivity.
Qed.

(** * The binary round trip for small identifiers and indices *)

(** ** Integers *)

Lemma testbit_ones n m : N.testbit (N.ones n) m = (m <? n).
Proof.
  destruct (N.ltb_spec m n); [by apply N.ones_spec_low | by apply N.ones_spec_high].
Qed.

Lemma testbit_shiftl a n m :
  N.testbit (N.shiftl a n) m = (n <=? m) && N.testbit a (m - n).
Proof.
  destruct (N.leb_spec n m); simpl.
  - by apply N.shiftl_spec_high'.
  - by apply N.shiftl_spec_low.
Qed.

Lemma land_ones_small x n : x < 2 ^ n -> N.land x (N.ones n) = x.
Proof. intros H. rewrite N.land_ones. by apply N.mod_small. Qed.

Lemma testbit_high x n m : x < 2 ^ n -> n <= m -> N.testbit x m = false.
Proof.
  intros Hx Hm. rewrite <- (land_ones_small x n Hx), N.land_spec, testbit_ones.
  destruct (N.ltb_spec m n); [lia|]. by rewrite andb_false_r.
Qed.

Lemma lt_pow2_testbit x n : (forall m, n <= m -> N.testbit x m = false) -> x < 2 ^ n.
Proof.
  intros H. destruct (decide (x = 0)) as [->|Hx].
  - apply N.neq_0_lt_0, N.pow_nonzero. lia.
  - apply N.log2_lt_pow2; [lia|].
    destruct (N.lt_ge_cases (N.log2 x) n) as [|Hge]; [done|].
    apply H in Hge. by rewrite N.bit_log2 in Hge.
Qed.

Lemma shiftr_lt x n k : x < 2 ^ (n + k) -> N.shiftr x k < 2 ^ n.
Proof.
  intros H. apply lt_pow2_testbit. intros m Hm.
  rewrite N.shiftr_spec by lia. apply (testbit_high x (n + k)); [done | lia].
Qed.

Lemma uvarint_group x :
  N.land (N.lor (N.land x 255) 128) 127 = N.land x 127.
Proof.
  apply N.bits_inj. intros n. rewrite !N.land_spec, N.lor_spec, N.land_spec.
  change 255 with (N.ones 8). change 127 with (N.ones 7). change 128 with (2 ^ 7).
  rewrite !testbit_ones, N.pow2_bits_eqb.
  destruct (N.ltb_spec n 7), (N.ltb_spec n 8), (N.eqb_spec 7 n);
    try lia; by rewrite ?andb_true_r, ?andb_false_r, ?orb_false_r.
Qed.

Lemma uvarint_join acc x s :
  N.lor (N.lor acc (N.shiftl (N.land x 127) s)) (N.shiftl (N.shiftr x 7) (s + 7))
  = N.lor acc (N.shiftl x s).
Proof.
  apply N.bits_inj. intros n. rewrite !N.lor_spec, !testbit_shiftl, N.land_spec.
  change 127 with (N.ones 7). rewrite testbit_ones, <- orb_assoc. f_equal.
  destruct (N.leb_spec s n), (N.leb_spec (s + 7) n); simpl; try lia.
  - rewrite N.shiftr_spec by lia. replace (n - (s + 7) + 7) with (n - s) by lia.
    destruct (N.ltb_spec (n - s) 7); [lia|]. by rewrite andb_false_r.
  - destruct (N.ltb_spec (n - s) 7); [|lia]. by rewrite andb_true_r, orb_false_r.
Qed.

Lemma Uvarint_loop_last b rest i acc s :
  b < 128 -> (i < 9)%nat ->
  Binary.Uvarint_loop (b :: rest) i acc s = (N.lor acc (N.shiftl b s), Z.of_nat (i + 1)).
Proof.
  intros Hb Hi. cbn [Binary.Uvarint_loop]. unfold Binary.MaxVarintLen64.
  destruct (Nat.eqb_spec i 10); [lia|]. destruct (N.ltb_spec b 128); [|lia].
  destruct (Nat.eqb_spec i (10 - 1)); [cbn in *; lia|]. done.
Qed.

Lemma Uvarint_loop_more b rest i acc s :
  128 <= b -> (i < 10)%nat ->
  Binary.Uvarint_loop (b :: rest) i acc s
  = Binary.Uvarint_loop rest (S i) (N.lor acc (N.shiftl (N.land b 127) s)) (s + 7).
Proof.
  intros Hb Hi. cbn [Binary.Uvarint_loop]. unfold Binary.MaxVarintLen64.
  destruct (Nat.eqb_spec i 10); [lia|]. destruct (N.ltb_spec b 128); [lia|]. done.
Qed.

Lemma uvarint_continuation x : 128 <= N.lor (N.land x 255) 128.
Proof.
  apply N.nlt_ge. intros Hlt.
  pose proof (testbit_high _ 7 7 Hlt (N.le_refl _)) as Hb.
  rewrite N.lor_spec in Hb. change 128 with (2 ^ 7) in Hb.
  by rewrite N.pow2_bits_true, orb_true_r in Hb.
Qed.

(** A value below [2^(7 n)] is written in at most [n] bytes, and
    [binary.Uvarint] reads it back whatever follows. *)
Lemma Uvarint_loop_uvarint_bytes steps n x rest i acc s :
  x < 2 ^ (7 * N.of_nat n) -> (1 <= n)%nat -> (n <= S steps)%nat -> (i + n <= 9)%nat ->
  (1 <= length (Binary.uvarint_bytes steps x) <= n)%nat /\
  Binary.Uvarint_loop (Binary.uvarint_bytes steps x ++ rest) i acc s
  = (N.lor acc (N.shiftl x s), Z.of_nat (i + length (Binary.uvarint_bytes steps x))).
Proof.
  revert n x i acc s. induction steps as [|steps IH]; intros n x i acc s Hx Hn Hs Hi.
  - assert (n = 1%nat) as -> by lia. change (2 ^ (7 * N.of_nat 1)) with 128 in Hx.
    cbn [Binary.uvarint_bytes]. assert (N.land x 255 = x) as ->.
    { change 255 with (N.ones 8). apply land_ones_small.
      eapply N.lt_trans; [done|]. by compute. }
    split; [simpl; lia|]. cbn [app]. apply Uvarint_loop_last; [done | lia].
  - cbn [Binary.uvarint_bytes]. destruct (N.ltb_spec x 128) as [Hsmall|Hbig].
    + split; [simpl; lia|]. cbn [app]. apply Uvarint_loop_last; [done | lia].
    + destruct n as [|[|n]]; [lia| |].
      { change (2 ^ (7 * N.of_nat 1)) with 128 in Hx. lia. }
      destruct (IH (S n) (N.shiftr x 7) (S i)
                  (N.lor acc (N.shiftl (N.land (N.lor (N.land x 255) 128) 127) s)) (s + 7))
        as [Hlen Heq]; [|lia..|].
      { apply shiftr_lt. replace (7 * N.of_nat (S n) + 7) with (7 * N.of_nat (S (S n))) by lia.
        done. }
      split; [simpl; lia|]. cbn [app].
      rewrite Uvarint_loop_more by (apply uvarint_continuation || lia).
      rewrite Heq, uvarint_group, uvarint_join. f_equal. simpl. lia.
Qed.

(** The big-endian bytes of [x], [m] of them. *)
Lemma of_be_bytes m x acc :
  foldl (fun acc b => N.lor (N.shiftl acc 8) b) acc
        (map (fun k => N.land (N.shiftr x (8 * N.of_nat k)) 255) (rev (seq 0 m)))
  = N.lor (N.shiftl acc (8 * N.of_nat m)) (N.land x (N.ones (8 * N.of_nat m))).
Proof.
  revert acc. induction m as [|m IH]; intros acc.
  - simpl. by rewrite N.shiftl_0_r, N.land_0_r, N.lor_0_r.
  - rewrite seq_S, rev_app_distr. cbn [rev app map foldl]. rewrite Nat.add_0_l, IH.
    apply N.bits_inj. intros n.
    rewrite !N.lor_spec, !testbit_shiftl, !N.land_spec, N.lor_spec, testbit_shiftl,
      N.land_spec, !testbit_ones.
    change 255 with (N.ones 8). rewrite testbit_ones.
    destruct (N.leb_spec (8 * N.of_nat m) n), (N.leb_spec (8 * N.of_nat (S m)) n),
      (N.ltb_spec n (8 * N.of_nat m)), (N.ltb_spec n (8 * N.of_nat (S m))); try lia;
      cbn [andb orb]; rewrite ?andb_true_r, ?andb_false_r, ?orb_false_r.
    + destruct (N.leb_spec 8 (n - 8 * N.of_nat m)); [|lia].
      destruct (N.ltb_spec (n - 8 * N.of_nat m) 8); [lia|].
      rewrite andb_false_r, orb_false_r. cbn [andb]. f_equal. lia.
    + destruct (N.leb_spec 8 (n - 8 * N.of_nat m)); [lia|].
      destruct (N.ltb_spec (n - 8 * N.of_nat m) 8); [|lia].
      rewrite N.shiftr_spec by lia. rewrite andb_true_r. cbn [andb orb]. f_equal. lia.
    + done.
Qed.

Lemma of_be_be64 x : x < 2 ^ 64 -> Binary.of_be (Binary.be64 x) = x.
Proof.
  intros Hx. unfold Binary.of_be.
  change (Binary.be64 x)
    with (map (fun k => N.land (N.shiftr x (8 * N.of_nat k)) 255) (rev (seq 0 8))).
  rewrite of_be_bytes. rewrite N.shiftl_0_l, N.lor_0_l. by apply land_ones_small.
Qed.

Lemma length_be64 x : length (Binary.be64 x) = 8%nat.
Proof. done. Qed.

Lemma length_flat_map_be64 ws : length (flat_map Binary.be64 ws) = (8 * length ws)%nat.
Proof. induction ws as [|w ws IH]; simpl in *; lia. Qed.

Lemma read_words_be64 ws rest :
  Forall (fun w => w < 2 ^ 64) ws ->
  BitSet.read_words (length ws) (flat_map Binary.be64 ws ++ rest) = ws.
Proof.
  induction 1 as [|w ws Hw _ IH]; [done|].
  cbn [flat_map length BitSet.read_words]. rewrite <- app_assoc.
  rewrite take_app_length' by done. rewrite drop_app_length' by done.
  by rewrite of_be_be64, IH.
Qed.

Lemma length_BitSet_MarshalBinary b :
  length (BitSet.MarshalBinary b) = (8 + 8 * length (BitSet.b_set b))%nat.
Proof. unfold BitSet.MarshalBinary. rewrite length_app, length_flat_map_be64. done. Qed.

(** The bit vector's own codec round-trips. *)
Lemma BitSet_roundtrip b :
  BitSet.wf b -> BitSet.b_length b < 2 ^ 64 ->
  BitSet.UnmarshalBinary (BitSet.MarshalBinary b) = inr b.
Proof.
  intros (Hw & Hb & _) Hlen. destruct b as [n ws]. cbn [BitSet.b_length BitSet.b_set] in *.
  unfold BitSet.UnmarshalBinary, BitSet.MarshalBinary. cbn [BitSet.b_length BitSet.b_set].
  set (tl := flat_map Binary.be64 ws).
  change (Binary.be64 n ++ tl)
    with (N.land (N.shiftr n 56) 255 :: (drop 1 (Binary.be64 n) ++ tl)).
  cbv iota.
  change (N.land (N.shiftr n 56) 255 :: (drop 1 (Binary.be64 n) ++ tl))
    with (Binary.be64 n ++ tl).
  rewrite length_app, length_be64.
  destruct (Nat.ltb_spec (8 + length tl) 8); [lia|].
  rewrite take_app_length' by done. rewrite drop_app_length' by done.
  rewrite of_be_be64 by done. rewrite <- Hw.
  destruct ws as [|w ws]; [done|].
  destruct (Nat.eqb_spec (length (w :: ws)) 0); [done|].
  assert (tl = flat_map Binary.be64 (w :: ws) ++ []) as Htl by (by rewrite app_nil_r).
  destruct tl as [|t tl'] eqn:Etl; [done|]. rewrite <- Etl.
  assert (length tl = 8 * length (w :: ws))%nat as Hlt
      by (rewrite Etl, Htl, app_nil_r; apply length_flat_map_be64).
  destruct (Nat.ltb_spec (length tl) (8 * length (w :: ws))); [lia|].
  rewrite Etl, Htl, read_words_be64; done.
Qed.

(** ** Slots *)

Lemma uvarint_bytes_small x n :
  x < 2 ^ (7 * N.of_nat n) -> (1 <= n <= 9)%nat ->
  (1 <= length (Binary.uvarint_bytes Binary.MaxVarintLen64 x) <= n)%nat.
Proof.
  intros Hx Hn.
  by destruct (Uvarint_loop_uvarint_bytes Binary.MaxVarintLen64 n x [] 0 0 0)
    as [? _]; [done | lia | unfold Binary.MaxVarintLen64; lia | lia |].
Qed.

Lemma length_slot x : x < 2 ^ 56 -> length (slot x) = 8%nat.
Proof.
  intros Hx. unfold slot. pose proof (uvarint_bytes_small x 8 Hx ltac:(lia)).
  rewrite length_app, length_replicate. lia.
Qed.

Lemma PutUvarint_zeros x post :
  x < 2 ^ 56 -> Binary.PutUvarint (replicate 8 0 ++ post) x = Some (slot x ++ post).
Proof.
  intros Hx. unfold Binary.PutUvarint, slot.
  pose proof (uvarint_bytes_small x 8 Hx ltac:(lia)).
  set (bs := Binary.uvarint_bytes _ x) in *.
  rewrite length_app, length_replicate.
  destruct (Nat.leb_spec (length bs) (8 + length post)); [|lia].
  rewrite drop_app_le by (rewrite length_replicate; lia).
  rewrite (drop_replicate (length bs) 8 0). by rewrite <- app_assoc.
Qed.

Lemma PutUvarint_header i header :
  Binary.PutUvarint (replicate 8 0) i = Some header -> header = slot i /\ length header = 8%nat.
Proof.
  unfold Binary.PutUvarint, slot. set (bs := Binary.uvarint_bytes _ i).
  rewrite length_replicate. destruct (Nat.leb_spec (length bs) 8); [|done].
  intros [= <-]. change [0; 0; 0; 0; 0; 0; 0; 0] with (replicate 8 0).
  rewrite drop_replicate. split; [done|].
  rewrite length_app, length_replicate. lia.
Qed.

Lemma PutUvarint_at_zeros pre post x :
  x < 2 ^ 56 ->
  PutUvarint_at (pre ++ replicate 8 0 ++ post) (length pre) x = Some (pre ++ slot x ++ post).
Proof.
  intros Hx. unfold PutUvarint_at.
  rewrite drop_app_length, PutUvarint_zeros by done. by rewrite take_app_length.
Qed.

Lemma PutUvarint_at_length data off x data' :
  PutUvarint_at data off x = Some data' -> length data' = length data.
Proof.
  unfold PutUvarint_at, Binary.PutUvarint. set (bs := Binary.uvarint_bytes _ x).
  destruct (Nat.leb_spec (length bs) (length (drop off data))) as [Hle|]; [|done].
  intros [= <-]. rewrite length_drop in Hle.
  rewrite !length_app, length_take, !length_drop. lia.
Qed.

(** Reading a slot back: seven bytes are enough below [2^49]. *)
Lemma Uvarint_slot_at pre x post sp a :
  x < 2 ^ 49 -> a = N.of_nat (length pre) ->
  exists read, Uvarint_slot (mkSlice (pre ++ slot x ++ post) sp) a (a + 7) = Some (x, read)
               /\ (0 < read)%Z.
Proof.
  intros Hx ->. unfold Uvarint_slot, subslice, cap.
  assert (x < 2 ^ 56) as Hx' by (eapply N.lt_trans; [done | by compute]).
  pose proof (length_slot x Hx') as Hs.
  destruct (N.leb_spec (N.of_nat (length pre)) (N.of_nat (length pre) + 7)); [|lia].
  cbn [elems spare]. rewrite !length_app, Hs.
  destruct (N.leb_spec (N.of_nat (length pre) + 7)
              (N.of_nat (length pre + (8 + length post) + length sp))); [|lia].
  cbn [andb elems]. rewrite Nat2N.id, <- !app_assoc, drop_app_length.
  replace (N.to_nat (N.of_nat (length pre) + 7 - N.of_nat (length pre))) with 7%nat by lia.
  pose proof (uvarint_bytes_small x 7 Hx ltac:(lia)) as Hlen.
  unfold slot in *. set (bs := Binary.uvarint_bytes _ x) in *.
  rewrite <- app_assoc. rewrite take_app_ge by lia.
  destruct (Uvarint_loop_uvarint_bytes Binary.MaxVarintLen64 7 x
              (take (7 - length bs) (replicate (8 - length bs) 0 ++ post ++ sp)) 0 0 0)
    as [_ Heq]; [done | lia | unfold Binary.MaxVarintLen64; lia | lia |].
  unfold Binary.Uvarint. fold bs in Heq. rewrite Heq.
  rewrite N.shiftl_0_r, N.lor_0_l. eexists. split; [done|]. lia.
Qed.

(** ** The encoder *)

Lemma MarshalBinary_unfold range p :
  MarshalBinary range p =
    (let bytes := BitSet.MarshalBinary (bits p) in
     let size := N.of_nat (length bytes) in
     let data := replicate (N.to_nat (24 + size)) 0 in
     data ← PutUvarint_at data 0 (ID p);
     data ← PutUvarint_at data 8 size;
     let data := copy_at data 24 bytes in
     '(size, data) ←
       match children p with
       | Some m => foldl MarshalBinary_child (Some (size, data))
                         (range _ (MarshalBinary range <$> m))
       | None => Some (size, data)
       end;
     PutUvarint_at data 16 (size + 24)).
Proof. by destruct p. Qed.

Lemma MarshalBinary_child_None l : foldl MarshalBinary_child None l = None.
Proof. induction l as [|[i enc] l IH]; [done|]. simpl. apply IH. Qed.

Lemma length_frame_blocks_cons i b entries :
  length (slot i) = 8%nat ->
  length (frame_blocks ((i, b) :: entries))
  = (8 + length b + length (frame_blocks entries))%nat.
Proof.
  intros Hs. unfold frame_blocks. cbn [map concat fst snd].
  rewrite !length_app, Hs. lia.
Qed.

(** The loop over the children appends one block per child and adds the
    length of the blocks to [size]. *)
Lemma MarshalBinary_children_spec l size data size' data' :
  foldl MarshalBinary_child (Some (size, data)) l = Some (size', data') ->
  exists entries : list (N * list N),
    l = (fun e => (fst e, Some (snd e))) <$> entries /\
    Forall (fun e => length (slot (fst e)) = 8%nat) entries /\
    size' = size + N.of_nat (length (frame_blocks entries)) /\
    data' = data ++ frame_blocks entries.
Proof.
  revert size data. induction l as [|[i enc] l IH]; intros size data.
  - simpl. intros [= <- <-]. exists []. unfold frame_blocks. simpl.
    rewrite app_nil_r. repeat split; [constructor | lia].
  - cbn [foldl MarshalBinary_child]. destruct enc as [b|]; [|by rewrite MarshalBinary_child_None].
    destruct (Binary.PutUvarint (replicate 8 0) i) as [header|] eqn:Eh;
      [|by rewrite MarshalBinary_child_None].
    apply PutUvarint_header in Eh as [-> Hlen].
    intros H. apply IH in H as (entries & -> & HF & -> & ->).
    exists ((i, b) :: entries). split; [done|]. split; [by constructor|].
    rewrite length_frame_blocks_cons by done. split; [lia|].
    unfold frame_blocks. cbn [map concat fst snd]. by rewrite <- !app_assoc.
Qed.

Lemma copy_at_zeros pre src post :
  copy_at (pre ++ replicate (length src) 0 ++ post) (length pre) src = pre ++ src ++ post.
Proof.
  unfold copy_at. rewrite take_app_length. f_equal. f_equal.
  rewrite drop_app_ge by lia. rewrite drop_app_ge by (rewrite length_replicate; lia).
  rewrite length_replicate. replace (length pre + length src - length pre - length src)%nat
    with 0%nat by lia. done.
Qed.

(** The frame that [MarshalBinary] builds when every integer fits its
    slot. *)
Lemma MarshalBinary_layout range p bytes :
  MarshalBinary range p = Some bytes ->
  N.of_nat (length bytes) < 2 ^ 49 -> ID p < 2 ^ 56 ->
  exists entries : list (N * list N),
    match children p with
    | Some m => range _ (MarshalBinary range <$> m) = (fun e => (fst e, Some (snd e))) <$> entries
    | None => entries = []
    end /\
    Forall (fun e => length (slot (fst e)) = 8%nat) entries /\
    bytes = slot (ID p) ++ slot (N.of_nat (length (BitSet.MarshalBinary (bits p))))
              ++ slot (N.of_nat (length bytes))
              ++ BitSet.MarshalBinary (bits p) ++ frame_blocks entries.
Proof.
  rewrite MarshalBinary_unfold. cbv zeta.
  set (payload := BitSet.MarshalBinary (bits p)).
  set (size := N.of_nat (length payload)).
  intros Hm Hlen HID.
  destruct (PutUvarint_at (replicate (N.to_nat (24 + size)) 0) 0 (ID p)) as [d1|] eqn:E1;
    [|done].
  cbn [mbind option_bind] in Hm.
  destruct (PutUvarint_at d1 8 size) as [d2|] eqn:E2; [|done].
  cbn [mbind option_bind] in Hm.
  set (d3 := copy_at d2 24 payload) in *.
  assert (exists entries : list (N * list N),
             match children p with
             | Some m => range _ (MarshalBinary range <$> m)
                         = (fun e => (fst e, Some (snd e))) <$> entries
             | None => entries = []
             end /\
             Forall (fun e => length (slot (fst e)) = 8%nat) entries /\
             PutUvarint_at (d3 ++ frame_blocks entries) 16
                           (size + N.of_nat (length (frame_blocks entries)) + 24)
             = Some bytes) as (entries & Hentries & HF & Hfinal).
  { destruct (children p) as [m|].
    - destruct (foldl MarshalBinary_child (Some (size, d3)) _) as [[size' data']|] eqn:Ec;
        [|done].
      apply MarshalBinary_children_spec in Ec as (entries & -> & HF & -> & ->).
      by exists entries.
    - exists []. unfold frame_blocks. simpl. rewrite app_nil_r, N.add_0_r. done. }
  exists entries. split; [done|]. split; [done|].
  apply PutUvarint_at_length in E1 as L1. apply PutUvarint_at_length in E2 as L2.
  apply PutUvarint_at_length in Hfinal as L3.
  rewrite length_replicate in L1.
  assert (length d3 = length d2) as Ld3.
  { unfold d3, copy_at. rewrite !length_app, length_take, length_drop. unfold size in *. lia. }
  rewrite length_app in L3.
  assert (size < 2 ^ 49) as Hsize by (unfold size in *; lia).
  assert (replicate (N.to_nat (24 + size)) 0
          = [] ++ replicate 8 0 ++ replicate 8 0 ++ replicate 8 0 ++ replicate (length payload) 0)
    as Hzeros.
  { replace (N.to_nat (24 + size)) with (8 + (8 + (8 + length payload)))%nat
      by (unfold size; lia).
    by rewrite !replicate_add. }
  rewrite Hzeros in E1. change 0%nat with (length (@nil N)) in E1.
  rewrite PutUvarint_at_zeros in E1 by done. injection E1 as <-.
  pose proof (length_slot (ID p) HID) as LID.
  assert (size < 2 ^ 56) as Hsize' by (eapply N.lt_trans; [done | by compute]).
  assert (PutUvarint_at
            (slot (ID p) ++ replicate 8 0 ++ replicate 8 0 ++ replicate (length payload) 0)
            (length (slot (ID p))) size = Some d2) as E2' by (rewrite LID; exact E2).
  rewrite PutUvarint_at_zeros in E2' by done. injection E2' as <-. clear E2.
  pose proof (length_slot size Hsize') as Lsize.
  assert (d3 = (slot (ID p) ++ slot size) ++ replicate 8 0 ++ payload) as Hd3.
  { assert (copy_at ((slot (ID p) ++ slot size ++ replicate 8 0)
                     ++ replicate (length payload) 0 ++ [])
                    (length (slot (ID p) ++ slot size ++ replicate 8 0)) payload = d3) as <-.
    { unfold d3. rewrite !length_app, LID, Lsize, length_replicate.
      by rewrite app_nil_r, <- !app_assoc. }
    rewrite copy_at_zeros. by rewrite app_nil_r, <- !app_assoc. }
  assert (size + N.of_nat (length (frame_blocks entries)) + 24 = N.of_nat (length bytes)) as Htotal.
  { rewrite L3, Ld3, L2, L1. unfold size. lia. }
  rewrite Htotal, Hd3 in Hfinal. rewrite <- (app_assoc _ _ (frame_blocks entries)) in Hfinal.
  rewrite <- (app_assoc (replicate 8 0)) in Hfinal.
  assert (PutUvarint_at
            ((slot (ID p) ++ slot size) ++ replicate 8 0 ++ payload ++ frame_blocks entries)
            (length (slot (ID p) ++ slot size)) (N.of_nat (length bytes)) = Some bytes)
    as Hfinal' by (rewrite length_app, LID, Lsize; exact Hfinal).
  rewrite PutUvarint_at_zeros in Hfinal' by (eapply N.lt_trans; [done | by compute]).
  injection Hfinal' as Hb. rewrite <- Hb at 1. by rewrite <- !app_assoc.
Qed.

(** ** The decoder on a frame *)

Lemma subslice_mid pre b post sp a :
  a = N.of_nat (length pre) ->
  subslice (mkSlice (pre ++ b ++ post) sp) a (a + N.of_nat (length b))
  = Some (mkSlice b (post ++ sp)).
Proof.
  intros ->. unfold subslice, cap. cbn [elems spare]. rewrite !length_app.
  destruct (N.leb_spec (N.of_nat (length pre)) (N.of_nat (length pre) + N.of_nat (length b)));
    [|lia].
  destruct (N.leb_spec (N.of_nat (length pre) + N.of_nat (length b))
              (N.of_nat (length pre + (length b + length post) + length sp))); [|lia].
  cbn [andb]. f_equal. rewrite <- !app_assoc. f_equal.
  - rewrite Nat2N.id, drop_app_length.
    replace (N.to_nat (N.of_nat (length pre) + N.of_nat (length b) - N.of_nat (length pre)))
      with (length b) by lia.
    by rewrite take_app_length.
  - replace (N.to_nat (N.of_nat (length pre) + N.of_nat (length b)))
      with (length (pre ++ b)) by (rewrite length_app; lia).
    by rewrite (app_assoc pre b), drop_app_length.
Qed.

Lemma UnmarshalBinary_children_done decode_child turns data maxLen p m offset :
  maxLen <= offset ->
  UnmarshalBinary_children decode_child turns data maxLen p m offset
  = Returns (with_children p m, None).
Proof.
  intros H. destruct turns; cbn [UnmarshalBinary_children];
    by destruct (N.leb_spec maxLen offset); [|lia].
Qed.

Lemma UnmarshalBinary_children_step decode_child turns data maxLen p m offset
      idx r1 childSize r2 sub child :
  offset < maxLen ->
  Uvarint_slot data offset (offset + 7) = Some (idx, r1) -> (0 < r1)%Z ->
  Uvarint_slot data (offset + 24) (offset + 31) = Some (childSize, r2) -> (0 < r2)%Z ->
  subslice data (offset + 8) (offset + 8 + childSize) = Some sub ->
  decode_child sub = Returns (child, None) ->
  UnmarshalBinary_children decode_child (S turns) data maxLen p m offset
  = UnmarshalBinary_children decode_child turns data maxLen p (<[idx := child]> m)
                             (offset + (8 + childSize)).
Proof.
  intros Hlt E1 H1 E2 H2 Es Ed. cbn [UnmarshalBinary_children].
  destruct (N.leb_spec maxLen offset); [lia|]. rewrite E1.
  destruct (Z.eqb_spec r1 0); [lia|]. destruct (Z.ltb_spec r1 0); [lia|]. rewrite E2.
  destruct (Z.eqb_spec r2 0); [lia|]. destruct (Z.ltb_spec r2 0); [lia|].
  by rewrite Es, Ed.
Qed.

Lemma UnmarshalBinary_children_blocks fuel (dec : N -> PermissionSet) entries :
  Forall (fun e => fst e < 2 ^ 49 /\ decodes_to fuel (snd e) (dec (fst e))) entries ->
  forall pre sp maxLen p m offset turns,
    offset = N.of_nat (length pre) ->
    maxLen = N.of_nat (length (pre ++ frame_blocks entries)) ->
    (length entries < turns)%nat ->
    cap (mkSlice (pre ++ frame_blocks entries) sp) <= N.of_nat fuel ->
    UnmarshalBinary_children (UnmarshalBinary_fuel fuel newPermissionSet) turns
      (mkSlice (pre ++ frame_blocks entries) sp) maxLen p m offset
    = Returns (with_children p (foldl (fun m e => <[fst e := dec (fst e)]> m) m entries), None).
Proof.
  induction 1 as [|[i b] entries [Hi (Hb & (hd & tl & Hframe & Hhd) & Hdec)] _ IH];
    intros pre sp maxLen p m offset turns Hoff Hmax Hturns Hcap.
  - apply UnmarshalBinary_children_done. unfold frame_blocks in Hmax. simpl in Hmax.
    rewrite app_nil_r in Hmax. lia.
  - cbn [fst snd] in *. destruct turns as [|turns]; [simpl in Hturns; lia|].
    assert (i < 2 ^ 56) as Hi' by (eapply N.lt_trans; [done | by compute]).
    pose proof (length_slot i Hi') as Lslot.
    assert (frame_blocks ((i, b) :: entries) = slot i ++ b ++ frame_blocks entries) as Hblocks.
    { unfold frame_blocks. cbn [map concat fst snd]. by rewrite <- app_assoc. }
    rewrite Hblocks in *.
    destruct (Uvarint_slot_at pre i (b ++ frame_blocks entries) sp offset Hi Hoff)
      as (r1 & E1 & H1).
    destruct (Uvarint_slot_at (pre ++ slot i ++ hd) (N.of_nat (length b))
                (tl ++ frame_blocks entries) sp (offset + 24) Hb) as (r2 & E2 & H2).
    { rewrite !length_app, Lslot, Hhd. lia. }
    assert ((pre ++ slot i ++ hd) ++ slot (N.of_nat (length b)) ++ tl ++ frame_blocks entries
            = pre ++ slot i ++ b ++ frame_blocks entries) as Hsame.
    { rewrite Hframe at 2. by rewrite <- !app_assoc. }
    rewrite Hsame in E2. replace (offset + 24 + 7) with (offset + 31) in E2 by lia.
    pose proof (subslice_mid (pre ++ slot i) b (frame_blocks entries) sp (offset + 8)) as Es.
    rewrite <- !app_assoc in Es. specialize (Es ltac:(rewrite length_app, Lslot; lia)).
    erewrite UnmarshalBinary_children_step; [| |exact E1|exact H1|exact E2|exact H2|exact Es|].
    + cbn [foldl fst].
      replace (pre ++ slot i ++ b ++ frame_blocks entries)
        with ((pre ++ slot i ++ b) ++ frame_blocks entries) by (by rewrite <- !app_assoc).
      apply IH.
      * rewrite !length_app, Lslot. lia.
      * rewrite Hmax. f_equal. by rewrite <- !app_assoc.
      * simpl in Hturns. lia.
      * revert Hcap. by rewrite <- !app_assoc.
    + rewrite Hmax, !length_app, Lslot. lia.
    + apply Hdec. revert Hcap. unfold cap. cbn [elems spare].
      rewrite !length_app, Lslot. lia.
Qed.

Lemma foldl_insert_keyed (f : N -> PermissionSet) (entries : list (N * list N))
      (m : gmap N PermissionSet) j :
  foldl (fun m e => <[fst e := f (fst e)]> m) m entries !! j
  = if decide (j ∈ entries.*1) then Some (f j) else m !! j.
Proof.
  revert m. induction entries as [|[i b] entries IH]; intros m.
  - cbn [foldl]. rewrite decide_False; [done | apply not_elem_of_nil].
  - cbn [foldl fst]. rewrite IH, fmap_cons. cbn [fst].
    destruct (decide (j ∈ entries.*1)) as [Hin|Hin].
    + by rewrite decide_True by (by apply list_elem_of_further).
    + rewrite lookup_insert. destruct (decide (i = j)) as [->|Hne].
      * by rewrite decide_True by apply list_elem_of_here.
      * rewrite decide_False; [done|]. rewrite elem_of_cons. intros [->|?]; done.
Qed.

Lemma length_frame_blocks_elem e entries :
  e ∈ entries -> (length (snd e) <= length (frame_blocks entries))%nat.
Proof.
  unfold frame_blocks. induction 1 as [e entries|e e' entries _ IH];
    cbn [map concat]; rewrite !length_app; lia.
Qed.

Lemma frame_blocks_nonempty e entries :
  length (slot (fst e)) = 8%nat -> (0 < length (frame_blocks (e :: entries)))%nat.
Proof. intros H. unfold frame_blocks. cbn [map concat]. rewrite !length_app, H. lia. Qed.

Lemma length_frame_blocks_entries entries :
  Forall (fun e => length (slot (fst e)) = 8%nat) entries ->
  (length entries <= length (frame_blocks entries))%nat.
Proof.
  unfold frame_blocks. induction 1 as [|e entries He _ IH]; [done|].
  cbn [map concat length]. rewrite !length_app, He. lia.
Qed.

(** The entries that the encoder visited are the children of the map. *)
Lemma range_entries range (m : gmap N PermissionSet) (entries : list (N * list N)) :
  range_ok range ->
  range _ (MarshalBinary range <$> m) = (fun e => (fst e, Some (snd e))) <$> entries ->
  (forall e, e ∈ entries ->
             exists c, m !! fst e = Some c /\ MarshalBinary range c = Some (snd e)) /\
  (forall j, j ∈ entries.*1 <-> is_Some (m !! j)).
Proof.
  intros Hr Heq. pose proof (Hr _ (MarshalBinary range <$> m)) as Hperm. rewrite Heq in Hperm.
  assert (forall i b, (i, b) ∈ entries <-> (MarshalBinary range <$> m) !! i = Some (Some b))
    as Hin.
  { intros i b. rewrite <- elem_of_map_to_list, <- Hperm, list_elem_of_fmap. split.
    - intros H. by exists (i, b).
    - by intros ([i' b'] & [= -> ->] & H). }
  split.
  - intros [i b] He. apply Hin in He. rewrite lookup_fmap in He. cbn [fst snd].
    destruct (m !! i) as [c|]; [|done]. exists c. split; [done|]. by injection He.
  - intros j. rewrite list_elem_of_fmap. split.
    + intros ([i b] & -> & He). apply Hin in He. rewrite lookup_fmap in He. cbn [fst].
      by destruct (m !! i).
    + intros [c Hc].
      assert ((MarshalBinary range <$> m) !! j = Some (MarshalBinary range c)) as Hl
        by (by rewrite lookup_fmap, Hc).
      apply elem_of_map_to_list in Hl. rewrite <- Hperm in Hl.
      apply list_elem_of_fmap in Hl as (e & [= -> _] & He). by exists e.
Qed.

Lemma normalize_unfold p :
  normalize p =
    {| ID := ID p;
       bits := bits p;
       children :=
         match children p with
         | Some m =>
             match map_to_list m with
             | [] => None
             | _ :: _ => Some (normalize <$> m)
             end
         | None => None
         end |}.
Proof. by destruct p. Qed.

(** The frame of a set that fits the slots is decoded into the same tree. *)
Lemma MarshalBinary_decodes range p :
  range_ok range -> fits_binary p ->
  forall bytes fuel,
    MarshalBinary range p = Some bytes -> N.of_nat (length bytes) < 2 ^ 49 ->
    decodes_to fuel bytes (normalize p).
Proof.
  intros Hr. induction 1 as [p HID Hwf Hlen Hidx _ IH]. intros bytes fuel Hm Hsize.
  assert (ID p < 2 ^ 56) as HID' by (eapply N.lt_trans; [done | by compute]).
  destruct (MarshalBinary_layout range p bytes Hm Hsize HID') as (entries & Hentries & HF & Hbytes).
  set (payload := BitSet.MarshalBinary (bits p)) in *.
  set (size := N.of_nat (length payload)) in *.
  set (total := N.of_nat (length bytes)) in *.
  pose proof (length_slot (ID p) HID') as LID.
  assert (total < 2 ^ 56) as Htot' by (eapply N.lt_trans; [exact Hsize | by compute]).
  pose proof (length_slot total Htot') as Ltotal.
  pose proof (f_equal length Hbytes) as Lraw. rewrite !length_app, LID, Ltotal in Lraw.
  assert (size < 2 ^ 49) as Hsz by (unfold size, total in *; lia).
  assert (size < 2 ^ 56) as Hsz' by (eapply N.lt_trans; [done | by compute]).
  pose proof (length_slot size Hsz') as Lsize.
  assert (length bytes = (24 + length payload + length (frame_blocks entries))%nat) as Lbytes
    by lia.
  split; [done|]. split.
  { exists (slot (ID p) ++ slot size), (payload ++ frame_blocks entries). split.
    - rewrite Hbytes at 1. by rewrite <- !app_assoc.
    - rewrite length_app, LID, Lsize. done. }
  intros sp Hcap. destruct fuel as [|fuel]; [lia|]. cbn [UnmarshalBinary_fuel].
  assert (len (mkSlice bytes sp) = total) as Hlen' by done. rewrite Hlen'.
  destruct (N.eqb_spec total 0); [unfold total in *; lia|].
  destruct (Uvarint_slot_at [] (ID p)
              (slot size ++ slot total ++ payload ++ frame_blocks entries) sp 0 HID eq_refl)
    as (r1 & E1 & H1).
  cbn [app] in E1. rewrite <- Hbytes in E1. change (0 + 7) with 7 in E1. rewrite E1.
  destruct (Z.eqb_spec r1 0); [lia|]. destruct (Z.ltb_spec r1 0); [lia|].
  destruct (Uvarint_slot_at (slot (ID p)) size
              (slot total ++ payload ++ frame_blocks entries) sp 8 Hsz) as (r2 & E2 & H2);
    [by rewrite LID|].
  rewrite <- Hbytes in E2. change (8 + 7) with 15 in E2. rewrite E2.
  destruct (Z.eqb_spec r2 0); [lia|]. destruct (Z.ltb_spec r2 0); [lia|].
  pose proof (subslice_mid (slot (ID p) ++ slot size ++ slot total) payload
                (frame_blocks entries) sp 24) as Es.
  rewrite <- !app_assoc in Es. rewrite <- Hbytes in Es. fold size in Es.
  rewrite Es by (rewrite !length_app, LID, Lsize, Ltotal; done). clear Es.
  cbn [elems]. unfold payload at 1. rewrite BitSet_roundtrip by done.
  fold size. destruct entries as [|e entries].
  - (* no block follows the payload *)
    destruct (N.ltb_spec (24 + size) total) as [Hlt|_].
    { change (length (frame_blocks [])) with 0%nat in Lbytes. unfold total, size in Hlt. lia. }
    f_equal. f_equal. rewrite normalize_unfold. unfold with_bits, with_ID. simpl. f_equal.
    destruct (children p) as [m|]; [|done].
    pose proof (Hr _ (MarshalBinary range <$> m)) as Hperm. rewrite Hentries in Hperm.
    simpl in Hperm. symmetry in Hperm. apply Permutation_nil_r in Hperm.
    apply map_to_list_empty_iff, fmap_empty_inv in Hperm as ->.
    by rewrite map_to_list_empty.
  - (* the blocks of the children *)
    destruct (children p) as [m|] eqn:Hch; [|done].
    destruct (range_entries range m (e :: entries) Hr Hentries) as [Hchild Hkeys].
    pose proof (frame_blocks_nonempty e entries) as Hne.
    rewrite Forall_cons in HF. specialize (Hne (proj1 HF)).
    destruct (N.ltb_spec (24 + size) total) as [_|Hge];
      [|unfold total, size in Hge; lia].
    assert (bytes = (slot (ID p) ++ slot size ++ slot total ++ payload)
                      ++ frame_blocks (e :: entries)) as Hsplit
      by (rewrite Hbytes at 1; by rewrite <- !app_assoc).
    rewrite Hsplit.
    rewrite (UnmarshalBinary_children_blocks fuel
               (fun i => normalize (default newPermissionSet (m !! i))) (e :: entries)).
    + f_equal. f_equal. rewrite normalize_unfold. unfold with_children, with_bits, with_ID.
      cbn [ID bits children newPermissionSet]. f_equal. rewrite Hch.
      destruct (map_to_list m) as [|x l] eqn:Hl.
      * apply map_to_list_empty_iff in Hl as ->.
        destruct (proj1 (Hkeys (fst e))) as [? Habs];
          [rewrite fmap_cons; apply list_elem_of_here | by rewrite lookup_empty in Habs].
      * f_equal. apply map_eq. intros j.
        rewrite (foldl_insert_keyed (fun i => normalize (default newPermissionSet (m !! i)))).
        rewrite lookup_fmap, lookup_empty.
        destruct (decide (j ∈ (e :: entries).*1)) as [Hin|Hin].
        -- apply Hkeys in Hin as [c Hc]. by rewrite Hc.
        -- destruct (m !! j) as [c|] eqn:Hc; [|done]. destruct Hin. apply Hkeys. by eexists.
    + apply Forall_forall. intros e' He'. destruct (Hchild e' He') as (c & Hc & Henc).
      assert (child_at p (fst e') = Some c) as Hat by (unfold child_at; by rewrite Hch).
      split; [by eapply Hidx|]. rewrite Hc. simpl. eapply IH; [done..|].
      apply length_frame_blocks_elem in He'. unfold total in Hsize. lia.
    + rewrite !length_app, LID, Lsize, Ltotal. unfold size. lia.
    + by rewrite <- Hsplit.
    + unfold total. rewrite Lbytes.
      pose proof (length_frame_blocks_entries (e :: entries)) as Hle.
      rewrite Forall_cons in Hle. specialize (Hle HF). lia.
    + rewrite <- Hsplit. lia.
Qed.

(** Within the slots of the frame the binary codec round-trips: a set whose
    identifiers and indices of children are below [2^49] and whose frame is
    shorter than [2^49] bytes is decoded, into a new set, as the same tree,
    whatever the order in which the encoder visited the children. *)
Theorem binary_roundtrip_within_slots range p bytes :
  range_ok range -> fits_binary p ->
  MarshalBinary range p = Some bytes -> N.of_nat (length bytes) < 2 ^ 49 ->
  UnmarshalBinary newPermissionSet (slice_of bytes) = Returns (normalize p, None).
Proof.
  intros Hr Hp Hm Hsize. unfold UnmarshalBinary, slice_of.
  destruct (MarshalBinary_decodes range p Hr Hp bytes
              (S (N.to_nat (cap (mkSlice bytes [])))) Hm Hsize) as (_ & _ & Hdec).
  apply Hdec. lia.
Qed.

(** ** The encoder succeeds *)

Lemma length_uvarint_bytes steps x : (length (Binary.uvarint_bytes steps x) <= S steps)%nat.
Proof.
  revert x. induction steps as [|steps IH]; intros x; cbn [Binary.uvarint_bytes]; [done|].
  destruct (x <? 128); [simpl; lia|]. specialize (IH (N.shiftr x 7)). simpl. lia.
Qed.

Lemma PutUvarint_at_is_Some data off x :
  (off + 11 <= length data)%nat -> is_Some (PutUvarint_at data off x).
Proof.
  intros H. unfold PutUvarint_at, Binary.PutUvarint.
  pose proof (length_uvarint_bytes Binary.MaxVarintLen64 x) as Hl.
  unfold Binary.MaxVarintLen64 in *. rewrite length_drop.
  destruct (Nat.leb_spec (length (Binary.uvarint_bytes 10 x)) (length data - off)); [|lia].
  by eexists.
Qed.

Lemma MarshalBinary_children_is_Some l size data :
  Forall (fun ie => fst ie < 2 ^ 56 /\ is_Some (snd ie)) l ->
  exists size' data', foldl MarshalBinary_child (Some (size, data)) l = Some (size', data')
                      /\ (length data <= length data')%nat.
Proof.
  intros HF. revert size data. induction HF as [|[i enc] l [Hi [b Hb]] _ IH]; intros size data.
  - by exists size, data.
  - cbn [fst snd] in *. subst enc. cbn [foldl MarshalBinary_child].
    change (replicate 8 0) with (replicate 8 0 ++ []).
    rewrite PutUvarint_zeros by done.
    destruct (IH (size + (8 + N.of_nat (length b))) (data ++ (slot i ++ []) ++ b))
      as (size' & data' & -> & Hlen).
    exists size', data'. split; [done|]. rewrite length_app in Hlen. lia.
Qed.

(** A set that fits the slots is encoded without a panic. *)
Lemma MarshalBinary_succeeds range p :
  range_ok range -> fits_binary p -> is_Some (MarshalBinary range p).
Proof.
  intros Hr. induction 1 as [p HID Hwf Hlen Hidx _ IH].
  rewrite MarshalBinary_unfold. cbv zeta.
  pose proof (length_BitSet_MarshalBinary (bits p)) as Lp.
  set (payload := BitSet.MarshalBinary (bits p)) in *.
  set (size := N.of_nat (length payload)).
  destruct (PutUvarint_at_is_Some (replicate (N.to_nat (24 + size)) 0) 0 (ID p)) as [d1 E1].
  { rewrite length_replicate. unfold size. lia. }
  rewrite E1. cbn [mbind option_bind]. apply PutUvarint_at_length in E1 as L1.
  rewrite length_replicate in L1.
  destruct (PutUvarint_at_is_Some d1 8 size) as [d2 E2]; [unfold size in *; lia|].
  rewrite E2. cbn [mbind option_bind]. apply PutUvarint_at_length in E2 as L2.
  set (d3 := copy_at d2 24 payload).
  assert (length d3 = length d2) as L3.
  { unfold d3, copy_at. rewrite !length_app, length_take, length_drop. unfold size in *. lia. }
  assert (exists size' data',
             match children p with
             | Some m => foldl MarshalBinary_child (Some (size, d3))
                               (range _ (MarshalBinary range <$> m))
             | None => Some (size, d3)
             end = Some (size', data') /\ (length d3 <= length data')%nat)
    as (size' & data' & -> & Hlen').
  { destruct (children p) as [m|] eqn:Hch; [|by exists size, d3].
    apply MarshalBinary_children_is_Some. apply Forall_forall. intros [i enc] Hin.
    rewrite (Hr _ (MarshalBinary range <$> m)) in Hin.
    apply elem_of_map_to_list in Hin. rewrite lookup_fmap in Hin.
    destruct (m !! i) as [c|] eqn:Hc; [|done]. injection Hin as <-.
    assert (child_at p i = Some c) as Hat by (unfold child_at; by rewrite Hch).
    cbn [fst snd]. split; [|by eapply IH].
    eapply N.lt_trans; [by eapply Hidx | by compute]. }
  cbn [mbind option_bind]. apply PutUvarint_at_is_Some. unfold size in *. lia.
Qed.

(** ** The decoded tree, seen through the queries *)

Lemma child_at_normalize p i : child_at (normalize p) i = normalize <$> child_at p i.
Proof.
  rewrite normalize_unfold. unfold child_at. cbn [children].
  destruct (children p) as [m|]; [|done].
  destruct (map_to_list m) as [|x l] eqn:E.
  - apply map_to_list_empty_iff in E as ->. by rewrite lookup_empty.
  - by rewrite lookup_fmap.
Qed.

Lemma same_tree_normalize p : fits_binary p -> same_tree p (normalize p).
Proof.
  induction 1 as [p _ _ _ _ _ IH]. constructor.
  - by rewrite normalize_unfold.
  - intros i. unfold Has. by rewrite normalize_unfold.
  - intros i. rewrite child_at_normalize. by destruct (child_at p i).
  - intros i cx cy Hx. rewrite child_at_normalize, Hx. intros [= <-]. by eapply IH.
Qed.

(** The round trip in the words of the specification: the decoded set has
    the same identifier, the same bits and the same indices of children at
    every level. *)
Theorem binary_roundtrip_same_tree range p :
  range_ok range -> fits_binary p ->
  exists bytes, MarshalBinary range p = Some bytes /\
    (N.of_nat (length bytes) < 2 ^ 49 ->
     exists q, UnmarshalBinary newPermissionSet (slice_of bytes) = Returns (q, None)
               /\ same_tree p q).
Proof.
  intros Hr Hp. destruct (MarshalBinary_succeeds range p Hr Hp) as [bytes Hm].
  exists bytes. split; [done|]. intros Hsize. exists (normalize p).
  split; [by apply (binary_roundtrip_within_slots range) | by apply same_tree_normalize].
Qed.

(** The set of the [Walk] scenario, with an identifier, fits the slots and
    round-trips. *)
Lemma fits_binary_scenario_walk : fits_binary (with_ID scenario_walk 1234).
Proof.
  assert (forall i c, child_at (with_ID scenario_walk 1234) i = Some c ->
                      i = 5 /\ c = Set_ newPermissionSet [2]) as Hch.
  { intros i c. change (child_at (with_ID scenario_walk 1234) i) with (child_at scenario_walk i).
    unfold scenario_walk. rewrite child_at_update_child.
    destruct (decide (5 = i)) as [<-|_]; [by intros [= <-]|]. done. }
  constructor.
  - by vm_compute.
  - change (bits (with_ID scenario_walk 1234)) with (bits scenario_walk).
    unfold scenario_walk. rewrite bits_update_child. apply Set_keeps_wf, wf_zero.
  - by vm_compute.
  - intros i c Hc. apply Hch in Hc as [-> _]. by vm_compute.
  - intros i c Hc. apply Hch in Hc as [_ ->]. constructor.
    + by vm_compute.
    + apply Set_keeps_wf, wf_zero.
    + by vm_compute.
    + intros j d Hd. done.
    + intros j d Hd. done.
Qed.

Example binary_roundtrip_scenario_walk :
  exists bytes q,
    MarshalBinary range_to_list (with_ID scenario_walk 1234) = Some bytes /\
    length bytes = 88%nat /\
    UnmarshalBinary newPermissionSet (slice_of bytes) = Returns (q, None) /\
    same_tree (with_ID scenario_walk 1234) q.
Proof.
  destruct (binary_roundtrip_same_tree range_to_list (with_ID scenario_walk 1234)
              range_ok_to_list fits_binary_scenario_walk) as (bytes & Hm & Hdec).
  assert (length bytes = 88%nat) as Hlen.
  { assert (length <$> MarshalBinary range_to_list (with_ID scenario_walk 1234) = Some 88%nat)
      as Hl by (vm_compute; reflexivity).
    rewrite Hm in Hl. by injection Hl. }
  destruct Hdec as (q & Hq & Hsame); [rewrite Hlen; by vm_compute|].
  by exists bytes, q.
Qed.

(** * The structured round trip for small identifiers and indices *)

Lemma MarshalJSON_unfold range p :
  MarshalJSON range p =
    {| doc_ID := ID p;
       doc_bits := BitSet.MarshalBinary (bits p);
       doc_children :=
         match children p with
         | Some m =>
             Some (foldl (fun children kb => <[int_of_uint (fst kb) := snd kb]> children)
                         ∅ (range _ (MarshalJSON range <$> m)))
         | None => None
         end |}.
Proof. by destruct p. Qed.

Lemma UnmarshalJSON_unfold rangeZ d :
  UnmarshalJSON rangeZ d =
    let id := uint64_of_float64 (float64_of_literal (doc_ID d)) in
    match BitSet.UnmarshalBinary (doc_bits d) with
    | inl e => JError e
    | inr b =>
        match doc_children d with
        | None => JReturns {| ID := id; bits := b; children := None |}
        | Some childData =>
            match
              foldl (fun acc kv =>
                       match acc, snd kv with
                       | Some m, JReturns child => Some (<[ParseUint_of (fst kv) := child]> m)
                       | _, _ => None
                       end)
                    (Some ∅) (rangeZ _ (UnmarshalJSON rangeZ <$> childData))
            with
            | Some m => JReturns {| ID := id; bits := b; children := Some m |}
            | None => JNilChild
            end
        end
    end.
Proof. by destruct d. Qed.

Lemma float64_exact n : n < 2 ^ 53 -> uint64_of_float64 (float64_of_literal n) = n.
Proof.
  intros H. unfold uint64_of_float64, float64_of_literal.
  destruct (N.ltb_spec n (2 ^ 53)); [|lia].
  destruct (N.ltb_spec n (2 ^ 64)) as [|Hge]; [done|].
  assert (2 ^ 53 < 2 ^ 64) by (by vm_compute). lia.
Qed.

Lemma int_of_uint_small i : i < 2 ^ 63 -> int_of_uint i = Z.of_N i.
Proof. intros H. unfold int_of_uint. by destruct (N.ltb_spec i (2 ^ 63)); [|lia]. Qed.

Lemma ParseUint_of_small i : i < 2 ^ 63 -> ParseUint_of (Z.of_N i) = i.
Proof.
  intros H. unfold ParseUint_of. destruct (Z.ltb_spec (Z.of_N i) 0); [lia|].
  assert (2 ^ 63 < 2 ^ 64) by (by vm_compute).
  destruct (Z.ltb_spec (Z.of_N i) (2 ^ 64)) as [|Hge]; [lia|].
  assert (Z.of_N (2 ^ 64) = (2 ^ 64)%Z) by (by vm_compute). lia.
Qed.

(** A fold that stores, under the key of each entry, a value that depends
    on the key only. *)
Lemma foldl_insert_by_key {K A E} `{Countable K} (key : E -> K) (f : K -> A)
      (l : list E) (m : gmap K A) j :
  foldl (fun m e => <[key e := f (key e)]> m) m l !! j
  = if decide (j ∈ key <$> l) then Some (f j) else m !! j.
Proof.
  revert m. induction l as [|e l IH]; intros m.
  - cbn [foldl]. rewrite decide_False; [done | apply not_elem_of_nil].
  - cbn [foldl]. rewrite IH, fmap_cons.
    destruct (decide (j ∈ key <$> l)) as [Hin|Hin].
    + by rewrite decide_True by (by apply list_elem_of_further).
    + rewrite lookup_insert. destruct (decide (key e = j)) as [<-|Hne].
      * by rewrite decide_True by apply list_elem_of_here.
      * rewrite decide_False; [done|]. rewrite elem_of_cons. intros [->|?]; done.
Qed.

Lemma foldl_ext_in {A B} (f g : A -> B -> A) (l : list B) a :
  (forall a b, b ∈ l -> f a b = g a b) -> foldl f a l = foldl g a l.
Proof.
  revert a. induction l as [|b l IH]; intros a Hfg; [done|].
  cbn [foldl]. rewrite Hfg by apply list_elem_of_here.
  apply IH. intros a' b' Hb'. apply Hfg. by apply list_elem_of_further.
Qed.

Lemma foldl_Some_step {A B} (f : A -> B -> A) (l : list B) a :
  foldl (fun acc b => match acc with Some x => Some (f x b) | None => None end) (Some a) l
  = Some (foldl f a l).
Proof. revert a. induction l as [|b l IH]; intros a; [done|]. cbn [foldl]. apply IH. Qed.

(** X28.  Within the range of a [float64] and of an [int] the structured codec
    round-trips exactly, a [nil] map of children staying [nil]. *)
Theorem json_roundtrip_small range rangeZ p :
  range_ok range -> rangeZ_ok rangeZ -> fits_json p ->
  UnmarshalJSON rangeZ (MarshalJSON range p) = JReturns p.
Proof.
  intros Hr Hz. induction 1 as [p HID Hwf Hlen Hidx _ IH].
  rewrite UnmarshalJSON_unfold, MarshalJSON_unfold. cbn [doc_ID doc_bits doc_children]. cbv zeta.
  rewrite float64_exact, BitSet_roundtrip by done.
  destruct p as [id b [m|]]; [|done]. cbn [ID bits children] in *.
  assert (forall i c, m !! i = Some c -> i < 2 ^ 63) as Hidx'
    by (intros i c Hc; by apply (Hidx i c)).
  assert (forall i c, m !! i = Some c ->
                      UnmarshalJSON rangeZ (MarshalJSON range c) = JReturns c) as IH'
    by (intros i c Hc; by apply (IH i c)).
  clear Hidx IH.
  set (l := range _ (MarshalJSON range <$> m)).
  assert (forall i d, (i, d) ∈ l <-> exists c, m !! i = Some c /\ d = MarshalJSON range c) as Hl.
  { intros i d. unfold l. rewrite (Hr _ (MarshalJSON range <$> m)), elem_of_map_to_list,
      lookup_fmap. destruct (m !! i) as [c|]; simpl; split.
    - intros [= <-]. by exists c.
    - by intros (c' & [= <-] & ->).
    - done.
    - by intros (c' & ? & _). }
  set (enc := fun z : Z => MarshalJSON range (default newPermissionSet (m !! Z.to_N z))).
  set (D := foldl _ ∅ l).
  assert (forall z, D !! z = if decide (z ∈ (fun kb => Z.of_N (fst kb)) <$> l)
                             then Some (enc z) else None) as HD.
  { intros z. unfold D.
    rewrite (foldl_ext_in _ (fun children kb => <[Z.of_N (fst kb) := enc (Z.of_N (fst kb))]> children)).
    - by rewrite (foldl_insert_by_key (fun kb => Z.of_N (fst kb)) enc), lookup_empty.
    - intros acc [i d] Hin. apply Hl in Hin as (c & Hc & ->). cbn [fst snd].
      rewrite int_of_uint_small by (by eapply Hidx'). unfold enc.
      by rewrite N2Z.id, Hc. }
  assert (forall z, z ∈ (fun kb => Z.of_N (fst kb)) <$> l <->
                    exists i c, z = Z.of_N i /\ m !! i = Some c) as Hkeys.
  { intros z. rewrite list_elem_of_fmap. split.
    - intros ([i d] & -> & Hin). apply Hl in Hin as (c & Hc & _). by exists i, c.
    - intros (i & c & -> & Hc). exists (i, MarshalJSON range c). split; [done|].
      apply Hl. by exists c. }
  set (L := rangeZ _ (UnmarshalJSON rangeZ <$> D)).
  assert (forall z r, (z, r) ∈ L <->
                      exists i c, z = Z.of_N i /\ m !! i = Some c /\ r = JReturns c) as HL.
  { intros z r. unfold L. rewrite (Hz _ (UnmarshalJSON rangeZ <$> D)), elem_of_map_to_list,
      lookup_fmap, HD. destruct (decide (z ∈ _)) as [Hin|Hin]; simpl.
    - apply Hkeys in Hin as (i & c & -> & Hc). unfold enc. rewrite N2Z.id, Hc. simpl.
      rewrite (IH' i c Hc). split.
      + intros [= <-]. by exists i, c.
      + intros (i' & c' & Hi' & Hc' & ->). apply N2Z.inj in Hi' as <-. congruence.
    - split; [done|]. intros (i & c & -> & Hc & _). destruct Hin. apply Hkeys. by exists i, c. }
  set (dec := fun j : N => default newPermissionSet (m !! j)).
  rewrite (foldl_ext_in _
             (fun acc kv => match acc with
                            | Some m0 => Some (<[Z.to_N (fst kv) := dec (Z.to_N (fst kv))]> m0)
                            | None => None
                            end)).
  2:{ intros acc [z r] Hin. apply HL in Hin as (i & c & -> & Hc & ->). cbn [fst snd].
      destruct acc as [m0|]; [|done].
      rewrite ParseUint_of_small by (by eapply Hidx'). unfold dec. by rewrite N2Z.id, Hc. }
  rewrite (foldl_Some_step (fun m0 kv => <[Z.to_N (fst kv) := dec (Z.to_N (fst kv))]> m0)).
  f_equal. f_equal. f_equal. apply map_eq. intros j.
  rewrite (foldl_insert_by_key (fun kv : Z * json_result => Z.to_N (fst kv)) dec), lookup_empty.
  destruct (decide (j ∈ _)) as [Hin|Hin].
  - apply list_elem_of_fmap in Hin as ([z r] & -> & Hin).
    apply HL in Hin as (i & c & -> & Hc & _). cbn [fst]. unfold dec. by rewrite N2Z.id, Hc.
  - destruct (m !! j) as [c|] eqn:Hc; [|done]. destruct Hin. apply list_elem_of_fmap.
    exists (Z.of_N j, JReturns c). split; [cbn [fst]; by rewrite N2Z.id|].
    apply HL. by exists j, c.
Qed.

(** * The bit vector: what the loop over [NextSet] visits, and the queries
      built on it *)

Module BitSetLoops.
Import BitSet.

Lemma bit_lt b i : bit b i = true -> i < 64 * N.of_nat (length (b_set b)).
Proof.
  unfold bit. intros H.
  destruct (N.lt_ge_cases i (64 * N.of_nat (length (b_set b)))) as [|Hge]; [done|].
  rewrite word_ge in H by lia. by rewrite N.bits_0 in H.
Qed.

Lemma elem_of_set_bits b i : i ∈ set_bits b <-> bit b i = true.
Proof.
  unfold set_bits. rewrite list_elem_of_filter, list_elem_of_fmap. split.
  - by intros [? _].
  - intros H. split; [done|]. exists (N.to_nat i). split; [lia|].
    apply elem_of_seq. pose proof (bit_lt _ _ H). lia.
Qed.

Lemma NoDup_set_bits b : NoDup (set_bits b).
Proof.
  unfold set_bits. apply NoDup_filter, NoDup_fmap_2; [apply _ | apply NoDup_seq].
Qed.

Lemma filter_none {A} (P : A -> Prop) `{forall x, Decision (P x)} (l : list A) :
  (forall x, x ∈ l -> ~ P x) -> filter P l = [].
Proof.
  induction l as [|x l IH]; intros Hl; [done|].
  rewrite filter_cons_False by (apply Hl, list_elem_of_here).
  apply IH. intros y Hy. apply Hl. by apply list_elem_of_further.
Qed.

(** The loop from [i] on visits the stored bits at or after [i], in
    increasing order. *)
Lemma forNextSet_set_bits {A} b (body : N -> A -> A) :
  Forall (fun w => w < 2 ^ 64) (b_set b) ->
  forall fuel i a,
    (64 * length (b_set b) - i < fuel)%nat ->
    forNextSet fuel b (NextSet b (N.of_nat i)) body a =
      foldl (fun a j => body j a) a
            (filter (fun j => bit b j = true)
                    (N.of_nat <$> seq i (64 * length (b_set b) - i))).
Proof.
  intros Hb fuel. induction fuel as [|fuel IH]; intros i a Hfuel; [lia|].
  pose proof (NextSet_sound b (N.of_nat i)) as Hsound.
  pose proof (NextSet_complete b (N.of_nat i) Hb) as Hcomplete.
  destruct (NextSet b (N.of_nat i)) as [j|]; cbn [forNextSet].
  - destruct (Hsound j Hb eq_refl) as (Hij & Hj & Hset).
    replace (64 * length (b_set b) - i)%nat
      with ((N.to_nat j - i) + S (64 * length (b_set b) - S (N.to_nat j)))%nat by lia.
    rewrite seq_app, fmap_app, filter_app.
    rewrite filter_none.
    2:{ intros x (k & -> & Hk)%list_elem_of_fmap. apply elem_of_seq in Hk.
        rewrite Hcomplete by lia. done. }
    replace (i + (N.to_nat j - i))%nat with (N.to_nat j) by lia.
    cbn [seq fmap list_fmap app]. rewrite N2Nat.id.
    rewrite filter_cons_True by done. cbn [foldl].
    replace (j + 1) with (N.of_nat (S (N.to_nat j))) by lia.
    apply IH. lia.
  - rewrite filter_none; [done|].
    intros x (k & -> & Hk)%list_elem_of_fmap. apply elem_of_seq in Hk.
    rewrite Hcomplete by lia. done.
Qed.

(** The whole loop visits exactly the stored bits, each once, in increasing
    order. *)
Lemma forEachSet_set_bits {A} b (body : N -> A -> A) a :
  Forall (fun w => w < 2 ^ 64) (b_set b) ->
  forEachSet b body a = foldl (fun a j => body j a) a (set_bits b).
Proof.
  intros Hb. unfold forEachSet, set_bits.
  rewrite (forNextSet_set_bits b body Hb _ 0%nat a) by lia.
  by rewrite Nat.sub_0_r.
Qed.

(** ** [New] *)

Lemma word_New n x : word (New n) x = 0.
Proof.
  rewrite word_lookup. unfold New. cbn [b_set].
  destruct (replicate _ _ !! _) as [w|] eqn:E; [|done].
  by apply lookup_replicate in E as [-> _].
Qed.

Lemma bit_New n i : bit (New n) i = false.
Proof. unfold bit. by rewrite word_New, N.bits_0. Qed.

Lemma New_wf n : wf (New n).
Proof.
  split; [|split].
  - unfold New. cbn [b_set b_length]. by rewrite length_replicate.
  - unfold New. cbn [b_set]. apply Forall_replicate. lia.
  - intros i _. apply bit_New.
Qed.

Lemma Test_New n i : Test (New n) i = false.
Proof. rewrite Test_bit by apply New_wf. apply bit_New. Qed.

Lemma Sets_wf b l : wf b -> wf (foldl Set_ b l).
Proof. revert b. induction l as [|i l IH]; intros b Hb; [done|]. apply IH. by apply Set_wf. Qed.

Lemma Test_Sets b l j : wf b -> Test (foldl Set_ b l) j = bool_decide (j ∈ l) || Test b j.
Proof.
  revert b. induction l as [|i l IH]; intros b Hb.
  - rewrite bool_decide_eq_false_2; [done | apply not_elem_of_nil].
  - cbn [foldl]. rewrite IH by (by apply Set_wf). rewrite Test_Set by done.
    destruct (N.eqb_spec j i) as [->|Hne].
    + rewrite (bool_decide_eq_true_2 (i ∈ i :: l)) by apply list_elem_of_here.
      by rewrite orb_true_r.
    + cbn [orb]. f_equal. apply bool_decide_ext. rewrite elem_of_cons. naive_solver.
Qed.

Lemma Sets_length_le b l : b_length b <= b_length (foldl Set_ b l).
Proof.
  revert b. induction l as [|i l IH]; intros b; [cbn; lia|].
  cbn [foldl]. etransitivity; [|apply IH].
  unfold Set_. cbn [b_length]. rewrite extendSetMaybe_length. lia.
Qed.

(** ** [IsSuperSet] *)

Lemma forNextSet_and_false fuel other cur (f : N -> bool) :
  forNextSet fuel other cur (fun i acc => acc && f i) false = false.
Proof. revert cur. induction fuel as [|fuel IH]; intros [i|]; cbn; auto. Qed.

Lemma IsSuperSet_from_forNextSet fuel b other cur :
  IsSuperSet_from fuel b other cur
  = forNextSet fuel other cur (fun i acc => acc && Test b i) true.
Proof.
  revert cur. induction fuel as [|fuel IH]; intros [i|]; cbn [IsSuperSet_from forNextSet]; try done.
  destruct (Test b i); cbn [andb]; [apply IH|]. by rewrite forNextSet_and_false.
Qed.

Lemma foldl_and_true (f : N -> bool) l :
  foldl (fun acc j => acc && f j) true l = true <-> forall j, j ∈ l -> f j = true.
Proof.
  induction l as [|i l IH] using rev_ind.
  - split; [|done]. by intros _ j ?%elem_of_nil.
  - rewrite foldl_app. cbn [foldl]. rewrite andb_true_iff, IH. split.
    + intros [Hl Hi] j [Hj|Hj%list_elem_of_singleton]%elem_of_app; [auto | by subst].
    + intros H. split; [|apply H; set_solver]. intros j Hj. apply H. set_solver.
Qed.

(** [IsSuperSet] says whether every stored bit of [other] is a bit of [b]
    below its length. *)
Lemma IsSuperSet_spec b other :
  Forall (fun w => w < 2 ^ 64) (b_set other) ->
  IsSuperSet b other = true <-> forall i, bit other i = true -> Test b i = true.
Proof.
  intros Hb. unfold IsSuperSet.
  rewrite IsSuperSet_from_forNextSet.
  change (forNextSet _ other (NextSet other 0) ?f ?a) with (forEachSet other f a).
  rewrite forEachSet_set_bits by done. rewrite foldl_and_true.
  by setoid_rewrite elem_of_set_bits.
Qed.

(** ** [None], [Any] and [Intersection] *)

Lemma None_spec b :
  Forall (fun w => w < 2 ^ 64) (b_set b) ->
  None_ b = true <-> forall i, bit b i = false.
Proof.
  intros Hb. unfold None_. rewrite forallb_forall. split.
  - intros Hz i. unfold bit. rewrite word_lookup.
    destruct (b_set b !! N.to_nat (i / 64)) as [w|] eqn:E; [|by rewrite N.bits_0].
    cbn [default]. apply list_elem_of_lookup_2, list_elem_of_In, Hz in E.
    assert (w = 0) as -> by (destruct (N.ltb_spec 0 w); [done|lia]).
    by rewrite N.bits_0.
  - intros Hbits w Hw%list_elem_of_In. apply list_elem_of_lookup in Hw as [x Hx].
    assert (w = 0) as ->; [|done].
    apply N.bits_inj. intros n. rewrite N.bits_0.
    destruct (N.lt_ge_cases n 64) as [Hn|Hn].
    + specialize (Hbits (64 * N.of_nat x + n)). unfold bit in Hbits.
      replace ((64 * N.of_nat x + n) / 64) with (N.of_nat x) in Hbits by lia.
      replace ((64 * N.of_nat x + n) mod 64) with n in Hbits by lia.
      rewrite word_lookup, Nat2N.id, Hx in Hbits. done.
    + rewrite Forall_forall in Hb. apply list_elem_of_lookup_2 in Hx.
      specialize (Hb w Hx). cbv beta in Hb.
      destruct (N.eq_dec w 0) as [->|Hne]; [apply N.bits_0|].
      apply N.bits_above_log2. apply N.log2_lt_pow2 in Hb; lia.
Qed.

Lemma Intersection_loop (cs : list N) l :
  forall k set,
    (k + length l <= length set)%nat -> (k + length l <= length cs)%nat ->
    exists set',
      foldl (fun acc iw =>
               set ← acc;
               c ← cs !! fst iw;
               if (fst iw <? length set)%nat
               then Some (<[fst iw := N.land (snd iw) c]> set)
               else None)
            (Some set) (imap (fun i w => ((k + i)%nat, w)) l) = Some set' /\
      length set' = length set /\
      forall x, set' !! x =
                if decide (k <= x < k + length l)%nat
                then Some (N.land (default 0 (l !! (x - k)%nat)) (default 0 (cs !! x)))
                else set !! x.
Proof.
  induction l as [|w l IH]; intros k set Hset Hcs.
  - exists set. split; [done|]. split; [done|]. intros x. cbn [length].
    case_decide; [lia | done].
  - cbn [imap foldl fst snd length] in *. cbn [mbind option_bind].
    rewrite Nat.add_0_r.
    destruct (cs !! k) as [c|] eqn:Ec; [|apply lookup_ge_None in Ec; lia].
    cbn [mbind option_bind].
    destruct (Nat.ltb_spec k (length set)) as [_|]; [|lia].
    destruct (IH (S k) (<[k := N.land w c]> set)) as (set' & Hfold & Hlen & Hset');
      [rewrite length_insert; lia | lia |].
    exists set'. split; [|split].
    + rewrite <- Hfold. f_equal. apply imap_ext. intros i x _. cbn. f_equal. lia.
    + by rewrite Hlen, length_insert.
    + intros x. rewrite Hset'.
      destruct (decide (x = k)) as [->|Hne].
      * rewrite decide_False by lia. rewrite decide_True by lia.
        rewrite list_lookup_insert_eq by lia. rewrite Nat.sub_diag, Ec. done.
      * rewrite list_lookup_insert_ne by done.
        repeat case_decide; try lia; [|done].
        replace (x - k)%nat with (S (x - S k)) by lia. done.
Qed.

(** When the receiver is the shorter vector and both keep the invariant,
    [Intersection] does not panic and its result holds the bits that both
    have. *)
Lemma Intersection_spec b c :
  wf b -> wf c -> b_length b <= b_length c ->
  exists r, Intersection b c = Some r /\ wf r /\ b_length r = b_length b /\
            forall i, bit r i = bit b i && bit c i.
Proof.
  intros (Hbl & Hbw & Hbs) (Hcl & Hcw & Hcs) Hle.
  unfold Intersection, sortByLength.
  destruct (N.leb_spec (b_length b) (b_length c)) as [_|]; [|lia].
  destruct (Intersection_loop (b_set c) (b_set b) 0 (b_set (New (b_length b))))
    as (set' & Hfold & Hlen & Hset').
  { unfold New. cbn [b_set]. rewrite length_replicate. lia. }
  { rewrite Hbl, Hcl. cbn. by apply wordsNeeded_mono. }
  change (imap pair (b_set b)) with (imap (fun i w => ((0 + i)%nat, w)) (b_set b)).
  rewrite Hfold. cbn [mbind option_bind].
  eexists. split; [done|].
  assert (forall x, word {| b_length := b_length (New (b_length b)); b_set := set' |} x
                    = N.land (word b x) (word c x)) as Hword.
  { intros x. rewrite !word_lookup. cbn [b_set]. rewrite Hset'.
    case_decide as Hx.
    - cbn [default]. by rewrite Nat.sub_0_r.
    - rewrite (lookup_ge_None_2 (b_set b)) by lia. cbn [default N.land].
      rewrite lookup_ge_None_2; [done|].
      unfold New. cbn [b_set]. rewrite length_replicate. lia. }
  assert (forall i, bit {| b_length := b_length (New (b_length b)); b_set := set' |} i
                    = bit b i && bit c i) as Hbit.
  { intros i. unfold bit. by rewrite Hword, N.land_spec. }
  split; [|split; [done|done]].
  split; [|split].
  - cbn [b_set b_length]. rewrite Hlen. unfold New. cbn [b_set b_length].
    by rewrite length_replicate.
  - apply words_bounded_testbit. intros x n Hn. rewrite Hword, N.land_spec.
    rewrite words_bounded_testbit in Hbw. by rewrite Hbw.
  - intros i Hi. rewrite Hbit. cbn [b_length New] in Hi. by rewrite Hbs.
Qed.

End BitSetLoops.

Import BitSetLoops.

(** * Further properties of the permission set *)

(** ** [Set], [Clear] and [Len] *)

Lemma Test_Clear b i j :
  BitSet.Test (BitSet.Clear b i) j = BitSet.Test b j && negb (j =? i).
Proof.
  unfold BitSet.Clear, BitSet.Test.
  destruct (N.leb_spec (BitSet.b_length b) i) as [Hi|Hi].
  - destruct (N.leb_spec (BitSet.b_length b) j) as [|Hj]; [done|].
    destruct (N.eqb_spec j i); [lia|]. by rewrite andb_true_r.
  - cbn [BitSet.b_length].
    destruct (N.leb_spec (BitSet.b_length b) j) as [|Hj]; [done|].
    unfold BitSet.bit. rewrite !word_lookup. cbn [BitSet.b_set].
    destruct (N.eqb_spec (j / 64) (i / 64)) as [Hx|Hx].
    + rewrite Hx, list_lookup_alter_eq.
      destruct (BitSet.b_set b !! N.to_nat (i / 64)) as [w|]; cbn.
      * rewrite N.ldiff_spec, N.shiftl_1_l, N.pow2_bits_eqb. f_equal. f_equal.
        destruct (N.eqb_spec (i mod 64) (j mod 64)), (N.eqb_spec j i); lia.
      * done.
    + rewrite list_lookup_alter_ne by lia.
      destruct (N.eqb_spec j i) as [->|]; [done|]. by rewrite andb_true_r.
Qed.

(** X1.  After [Set(indices...)] a bit is set when it was set before or is one
    of the indices; [Set] never clears a bit. *)
Theorem Has_after_Set (p : PermissionSet) (indices : list N) (j : N) :
  BitSet.wf (bits p) ->
  Has (Set_ p indices) j = bool_decide (j ∈ indices) || Has p j.
Proof. apply Has_Set. Qed.

Lemma Has_after_Set_witness :
  BitSet.wf (bits scenario_bare) /\
  Has (Set_ scenario_bare [70; 2]) 70 = bool_decide (70 ∈ [70; 2]) || Has scenario_bare 70.
Proof.
  assert (BitSet.wf (bits scenario_bare)) as Hwf by apply Set_keeps_wf, wf_zero.
  split; [exact Hwf|]. apply (Has_after_Set scenario_bare [70; 2] 70 Hwf).
Defined.

(** X2.  After [Clear(indices...)] a bit is set when it was set before and is
    none of the indices, whatever the state of the bit vector; an index at
    or past the length is ignored. *)
Theorem Has_after_Clear (p : PermissionSet) (indices : list N) (j : N) :
  Has (Clear p indices) j = Has p j && negb (bool_decide (j ∈ indices)).
Proof.
  unfold Has, Clear. cbn [bits with_bits]. generalize (bits p).
  induction indices as [|i l IH]; intros b.
  - rewrite bool_decide_eq_false_2 by apply not_elem_of_nil. by rewrite andb_true_r.
  - cbn [foldl]. rewrite IH, Test_Clear, <- andb_assoc. f_equal.
    rewrite <- negb_orb. f_equal.
    destruct (N.eqb_spec j i) as [->|Hne].
    + by rewrite (bool_decide_eq_true_2 (i ∈ i :: l)) by apply list_elem_of_here.
    + cbn [orb]. apply bool_decide_ext. rewrite elem_of_cons. naive_solver.
Qed.

(** X3.  [Set] grows the vector just enough to hold the largest index and never
    shrinks it; [Clear] leaves the length alone. *)
Theorem Len_after_Set_and_Clear (p : PermissionSet) (indices : list N) :
  Len (Set_ p indices) = foldl (fun n i => N.max n (i + 1)) (Len p) indices /\
  Len p <= Len (Set_ p indices) /\
  Len (Clear p indices) = Len p.
Proof.
  unfold Len, BitSet.Len, Set_, Clear. cbn [bits with_bits]. generalize (bits p).
  induction indices as [|i l IH]; intros b; [by repeat split|].
  cbn [foldl]. destruct (IH (BitSet.Set_ b i)) as (H1 & H2 & _).
  destruct (IH (BitSet.Clear b i)) as (_ & _ & H3).
  assert (BitSet.b_length (BitSet.Set_ b i) = N.max (BitSet.b_length b) (i + 1)) as Hs.
  { unfold BitSet.Set_. cbn [BitSet.b_length]. apply extendSetMaybe_length. }
  assert (BitSet.b_length (BitSet.Clear b i) = BitSet.b_length b) as Hc.
  { unfold BitSet.Clear. by destruct (_ <=? _). }
  rewrite H1, H3, Hs, Hc. split; [done|]. split; [|done].
  rewrite H1, Hs in H2. lia.
Qed.

(** ** [Child] *)

(** X4.  [Child] returns the stored child, or a new empty set that it stores;
    it touches neither the identifier, nor the bits, nor any other child,
    and a second call returns the same child and changes nothing. *)
Theorem Child_stores_once (p : PermissionSet) (i : N) :
  let p1 := (Child p i).1 in
  let c := (Child p i).2 in
  c = child_or_new p i /\
  ID p1 = ID p /\ bits p1 = bits p /\
  child_at p1 i = Some c /\
  (forall j, j <> i -> child_at p1 j = child_at p j) /\
  Child p1 i = (p1, c).
Proof.
  cbv zeta. split; [apply Child_returns|]. split; [apply ID_Child|].
  split; [apply bits_Child|]. split; [|split].
  - rewrite child_at_Child, Child_returns. by rewrite decide_True.
  - intros j Hj. rewrite child_at_Child. by rewrite decide_False.
  - unfold Child. destruct (children p) as [m|]; cbn [fst snd].
    + destruct (m !! i) as [c|] eqn:E; cbn [fst snd children with_children].
      * by rewrite E.
      * by rewrite lookup_insert_eq.
    + rewrite lookup_empty. cbn [fst snd children with_children].
      by rewrite lookup_insert_eq.
Qed.

(** ** [Walk] *)

Lemma Walk_from_roots p q set l :
  children p <> None -> children q <> None -> Walk_from p set l = Walk_from q set l.
Proof.
  intros Hp Hq. revert set. induction l as [|i l IH]; intros set; [done|].
  cbn [Walk_from]. destruct (BitSet.Test (bits set) i); [|done].
  destruct (children p), (children q); try done.
  destruct (child_at set i); [apply IH | done].
Qed.

Lemma Walk_from_root p set l : children p <> None -> Walk_from p set l = Walk set l.
Proof.
  intros Hp. unfold Walk. destruct (children set) as [m|] eqn:E.
  - apply Walk_from_roots; [done | by rewrite E].
  - destruct l as [|i l]; [done|]. cbn [Walk_from].
    destruct (BitSet.Test (bits set) i); [|done].
    rewrite E. unfold child_at. rewrite E. by destruct (children p).
Qed.

Lemma Walk_cons p i l :
  Walk p (i :: l) =
    Has p i && match child_at p i with Some c => Walk c l | None => true end.
Proof.
  unfold Walk at 1. cbn [Walk_from]. fold (Has p i). destruct (Has p i); [|done].
  cbn [andb]. destruct (children p) as [m|] eqn:E.
  - destruct (child_at p i); [|done]. apply Walk_from_root. by rewrite E.
  - unfold child_at. by rewrite E.
Qed.




(** X5.  [Walk] is a plain descent: the first index must be set, and the rest is
    walked from the child at that index when there is one.  That the loop
    tests [p.children == nil] on the receiver instead of the current set
    changes no answer. *)
Theorem Walk_descends (p : PermissionSet) (i : N) (l : list N) :
  Walk p (i :: l) =
    Has p i && match child_at p i with Some c => Walk c l | None => true end.
Proof. apply Walk_cons. Qed.

(** X6.  A walk that succeeds succeeds for every prefix of its indices. *)
Theorem Walk_prefix (p : PermissionSet) (l l' : list N) :
  Walk p (l ++ l') = true -> Walk p l = true.
Proof.
  revert p. induction l as [|i l IH]; intros p; [done|].
  cbn [app]. rewrite !Walk_cons. destruct (Has p i); [|done]. cbn [andb].
  destruct (child_at p i); [apply IH | done].
Qed.

Lemma Walk_prefix_witness :
  Walk scenario_walk ([5] ++ [2]) = true /\ Walk scenario_walk [5] = true.
Proof.
  split; [reflexivity|]. apply (Walk_prefix scenario_walk [5] [2]). reflexivity.
Defined.


(** X8.  Reading a missing child takes permissions away: with bit [k] set and no
    child at [k] every walk through [k] succeeds, and after [Child(k)] has
    stored the empty set there, no walk that goes further than [k] does. *)
Theorem Child_revokes_walks (p : PermissionSet) (k j : N) (l : list N) :
  Has p k = true -> child_at p k = None ->
  Walk p (k :: j :: l) = true /\ Walk (Child p k).1 (k :: j :: l) = false.
Proof.
  intros Hk Hnone. rewrite !Walk_cons. unfold Has in *.
  rewrite bits_Child, Hk, Hnone, child_at_Child. rewrite decide_True by done.
  split; [done|]. unfold child_or_new. rewrite Hnone. cbn [default andb].
  rewrite Walk_cons. by rewrite Has_newPermissionSet.
Qed.

Lemma Child_revokes_walks_witness :
  Has scenario_bare 5 = true /\ child_at scenario_bare 5 = None /\
  Walk scenario_bare [5; 1] = true /\ Walk (Child scenario_bare 5).1 [5; 1] = false.
Proof.
  split; [reflexivity|]. split; [reflexivity|].
  apply (Child_revokes_walks scenario_bare 5 1 []); reflexivity.
Defined.

(** ** [Union] and [InPlaceIntersection] below the root *)

(** The loop of [Union] and of [InPlaceIntersection] over the distinct
    indices [l]: [pre] is what the body does to the receiver first, [guard]
    the test it makes. *)
Lemma loop_children (sub : gmap N (PermissionSet -> PermissionSet))
      (pre : N -> PermissionSet -> PermissionSet) (guard : PermissionSet -> N -> bool) :
  (forall i p, children (pre i p) = children p) ->
  (forall i p j, guard (pre i p) j = guard p j) ->
  (forall i p f j, guard (update_child p i f) j = guard p j) ->
  forall l p j,
    NoDup l ->
    child_at
      (foldl (fun p i =>
                if guard p i then
                  match sub !! i with
                  | Some f => update_child (pre i p) i f
                  | None => pre i p
                  end
                else p) p l) j =
    if bool_decide (j ∈ l) && guard p j then
      match sub !! j with
      | Some f => Some (f (child_or_new p j))
      | None => child_at p j
      end
    else child_at p j.
Proof.
  intros Hpre Hguard_pre Hguard_upd.
  assert (forall i p j, child_at (pre i p) j = child_at p j) as Hpre_at
    by (intros; unfold child_at; by rewrite Hpre).
  induction l as [|i l IH]; intros p j Hnd; [done|].
  apply NoDup_cons in Hnd as [Hi Hnd]. cbn [foldl]. rewrite IH by done.
  set (q := if guard p i then _ else p).
  assert (guard q j = guard p j) as Hg.
  { unfold q. destruct (guard p i); [|done].
    destruct (sub !! i); by rewrite ?Hguard_upd, ?Hguard_pre. }
  assert (forall x, child_at q x =
            if decide (i = x) then
              if guard p i then
                match sub !! i with
                | Some f => Some (f (child_or_new p i))
                | None => child_at p i
                end
              else child_at p i
            else child_at p x) as Hq.
  { intros x. unfold q. destruct (guard p i).
    - destruct (sub !! i) as [f|].
      + rewrite child_at_update_child. case_decide; [|apply Hpre_at].
        unfold child_or_new. by rewrite Hpre_at.
      + rewrite Hpre_at. case_decide; by subst.
    - case_decide; by subst. }
  rewrite Hg. destruct (decide (j = i)) as [->|Hne].
  - rewrite (bool_decide_eq_false_2 (i ∈ l)) by done.
    rewrite (bool_decide_eq_true_2 (i ∈ i :: l)) by apply list_elem_of_here.
    cbn [andb]. rewrite Hq. by rewrite decide_True.
  - assert (bool_decide (j ∈ i :: l) = bool_decide (j ∈ l)) as ->.
    { apply bool_decide_ext. rewrite elem_of_cons. naive_solver. }
    unfold child_or_new. rewrite Hq. by rewrite decide_False.
Qed.

(** The bits of the receiver after a loop that sets every index it visits. *)
Lemma loop_bits (sub : gmap N (PermissionSet -> PermissionSet)) l p :
  bits (foldl (fun p i =>
                 let p := Set_ p [i] in
                 match sub !! i with
                 | Some f => update_child p i f
                 | None => p
                 end) p l)
  = foldl BitSet.Set_ (bits p) l.
Proof.
  revert p. induction l as [|i l IH]; intros p; [done|].
  cbn [foldl]. rewrite IH. cbv zeta. f_equal.
  destruct (sub !! i); by rewrite ?bits_update_child.
Qed.

Lemma bool_decide_set_bits b j :
  BitSet.wf b -> bool_decide (j ∈ set_bits b) = BitSet.Test b j.
Proof.
  intros Hb. rewrite Test_bit by done.
  destruct (BitSet.bit b j) eqn:E.
  - apply bool_decide_eq_true_2. by apply elem_of_set_bits.
  - apply bool_decide_eq_false_2. rewrite elem_of_set_bits. by rewrite E.
Qed.

Lemma child_at_Union a b j :
  BitSet.wf (bits b) ->
  child_at (Union a b) j =
    match child_at b j with
    | Some cb => if Has b j then Some (Union (child_or_new a j) cb) else child_at a j
    | None => child_at a j
    end.
Proof.
  intros Hb. unfold Union. rewrite Union_with_unfold. cbv zeta.
  change (child_at (with_bits ?x _) j) with (child_at x j).
  rewrite forEachSet_set_bits by apply Hb.
  pose proof (loop_children
                (match children b with Some m => Union_with <$> m | None => ∅ end)
                (fun i p => Set_ p [i]) (fun _ _ => true)
                ltac:(done) ltac:(done) ltac:(done)
                (set_bits (bits b)) a j (NoDup_set_bits _)) as H.
  cbv beta iota in H. rewrite H. clear H.
  rewrite andb_true_r, bool_decide_set_bits by done. fold (Has b j).
  assert (match children b with Some m => Union_with <$> m | None => ∅ end !! j
          = Union_with <$> child_at b j) as ->.
  { unfold child_at. destruct (children b); [apply lookup_fmap | apply lookup_empty]. }
  destruct (child_at b j); by destruct (Has b j).
Qed.

Lemma child_at_InPlaceIntersection a b j :
  BitSet.wf (bits b) ->
  child_at (InPlaceIntersection a b) j =
    match child_at b j with
    | Some cb =>
        if Has a j && Has b j
        then Some (InPlaceIntersection (child_or_new a j) cb) else child_at a j
    | None => child_at a j
    end.
Proof.
  intros Hb. unfold InPlaceIntersection. rewrite InPlaceIntersection_with_unfold. cbv zeta.
  change (child_at (with_bits ?x _) j) with (child_at x j).
  rewrite forEachSet_set_bits by apply Hb.
  pose proof (loop_children
                (match children b with Some m => InPlaceIntersection_with <$> m | None => ∅ end)
                (fun _ p => p) Has
                ltac:(done) ltac:(done)
                ltac:(by intros; unfold Has; rewrite bits_update_child)
                (set_bits (bits b)) a j (NoDup_set_bits _)) as H.
  cbv beta in H. rewrite H. clear H.
  rewrite bool_decide_set_bits by done. fold (Has b j). rewrite andb_comm.
  assert (match children b with Some m => InPlaceIntersection_with <$> m | None => ∅ end !! j
          = InPlaceIntersection_with <$> child_at b j) as ->.
  { unfold child_at. destruct (children b); [apply lookup_fmap | apply lookup_empty]. }
  destruct (child_at b j); by destruct (Has a j && Has b j).
Qed.

(** X9.  [Union] below the root: where [other] has the bit [j] and a child at
    [j], the receiver's child at [j] (a new empty set when it had none)
    is united with it; every other child of the receiver stays as it was,
    so a child of [other] under a bit that is not set is ignored.  The
    identifier of the receiver stays. *)
Theorem Union_children (a b : PermissionSet) (j : N) :
  BitSet.wf (bits b) ->
  ID (Union a b) = ID a /\
  child_at (Union a b) j =
    match child_at b j with
    | Some cb => if Has b j then Some (Union (child_or_new a j) cb) else child_at a j
    | None => child_at a j
    end.
Proof.
  intros Hb. split; [|by apply child_at_Union].
  unfold Union. rewrite Union_with_unfold. cbv zeta. cbn [ID with_bits].
  apply (forEachSet_preserves (fun x => ID x = ID a)); [|done].
  intros i x Hx. cbv zeta. destruct (_ !! i); by rewrite ?ID_update_child.
Qed.

Lemma Union_children_witness :
  BitSet.wf (bits scenario_walk) /\
  child_at (Union scenario_bare scenario_walk) 5 =
    match child_at scenario_walk 5 with
    | Some cb =>
        if Has scenario_walk 5
        then Some (Union (child_or_new scenario_bare 5) cb) else child_at scenario_bare 5
    | None => child_at scenario_bare 5
    end.
Proof.
  assert (BitSet.wf (bits scenario_walk)) as Hwf.
  { unfold scenario_walk. rewrite bits_update_child. apply Set_keeps_wf, wf_zero. }
  split; [exact Hwf|]. apply (Union_children scenario_bare scenario_walk 5 Hwf).
Defined.

(** X10.  [InPlaceIntersection] below the root: where both sets have the bit [j]
    and [other] has a child at [j], the receiver's child at [j] (a new
    empty set when it had none) is intersected with it; every other child
    of the receiver stays, also under a bit that the intersection clears.
    The identifier of the receiver stays. *)
Theorem InPlaceIntersection_children (a b : PermissionSet) (j : N) :
  BitSet.wf (bits b) ->
  ID (InPlaceIntersection a b) = ID a /\
  child_at (InPlaceIntersection a b) j =
    match child_at b j with
    | Some cb =>
        if Has a j && Has b j
        then Some (InPlaceIntersection (child_or_new a j) cb) else child_at a j
    | None => child_at a j
    end.
Proof.
  intros Hb. split; [apply ID_InPlaceIntersection | by apply child_at_InPlaceIntersection].
Qed.

Lemma InPlaceIntersection_children_witness :
  BitSet.wf (bits scenario_walk) /\
  child_at (InPlaceIntersection scenario_bare scenario_walk) 5 =
    match child_at scenario_walk 5 with
    | Some cb =>
        if Has scenario_bare 5 && Has scenario_walk 5
        then Some (InPlaceIntersection (child_or_new scenario_bare 5) cb)
        else child_at scenario_bare 5
    | None => child_at scenario_bare 5
    end.
Proof.
  assert (BitSet.wf (bits scenario_walk)) as Hwf.
  { unfold scenario_walk. rewrite bits_update_child. apply Set_keeps_wf, wf_zero. }
  split; [exact Hwf|].
  apply (InPlaceIntersection_children scenario_bare scenario_walk 5 Hwf).
Defined.

(** ** The invariant at every level *)

Lemma wf_tree_bits p : wf_tree p -> BitSet.wf (bits p).
Proof. by intros [? ? ?]. Qed.

Lemma wf_tree_child p i c : wf_tree p -> child_at p i = Some c -> wf_tree c.
Proof. intros [? ? Hc]. apply Hc. Qed.

Lemma wf_tree_new : wf_tree newPermissionSet.
Proof. constructor; [apply wf_zero | done]. Qed.

Lemma wf_tree_child_or_new p i : wf_tree p -> wf_tree (child_or_new p i).
Proof.
  intros Hp. unfold child_or_new. destruct (child_at p i) eqn:E; cbn.
  - by apply (wf_tree_child p i).
  - apply wf_tree_new.
Qed.

Lemma Union_wf_tree a b : wf_tree a -> wf_tree b -> wf_tree (Union a b).
Proof.
  intros Ha Hb. revert a Ha. induction Hb as [b Hbits Hch IH]. intros a Ha.
  constructor.
  - apply Union_keeps_wf; [by apply wf_tree_bits | done].
  - intros j c. rewrite child_at_Union by done.
    destruct (child_at b j) as [cb|] eqn:E; [|by apply wf_tree_child].
    destruct (Has b j); [|by apply wf_tree_child].
    intros [= <-]. apply (IH j cb E). by apply wf_tree_child_or_new.
Qed.

Lemma InPlaceIntersection_wf_tree a b :
  wf_tree a -> wf_tree b -> wf_tree (InPlaceIntersection a b).
Proof.
  intros Ha Hb. revert a Ha. induction Hb as [b Hbits Hch IH]. intros a Ha.
  constructor.
  - apply InPlaceIntersection_keeps_wf; [by apply wf_tree_bits | done].
  - intros j c. rewrite child_at_InPlaceIntersection by done.
    destruct (child_at b j) as [cb|] eqn:E; [|by apply wf_tree_child].
    destruct (Has a j && Has b j); [|by apply wf_tree_child].
    intros [= <-]. apply (IH j cb E). by apply wf_tree_child_or_new.
Qed.

(** X11.  Every operation that changes a set keeps the invariant of the bit
    vectors at every level of the tree: [Set], [Clear], [Child] (for the
    receiver and for the child returned), [Union] and
    [InPlaceIntersection]. *)
Theorem operations_keep_wf_tree (a b : PermissionSet) (l : list N) (i : N) :
  wf_tree a -> wf_tree b ->
  wf_tree (Set_ a l) /\ wf_tree (Clear a l) /\
  wf_tree (Child a i).1 /\ wf_tree (Child a i).2 /\
  wf_tree (Union a b) /\ wf_tree (InPlaceIntersection a b).
Proof.
  intros Ha Hb.
  split; [|split; [|split; [|split; [|split]]]].
  - constructor; [by apply Set_keeps_wf, wf_tree_bits|].
    intros j c. change (child_at (Set_ a l) j) with (child_at a j). by apply wf_tree_child.
  - constructor; [by apply Clear_keeps_wf, wf_tree_bits|].
    intros j c. change (child_at (Clear a l) j) with (child_at a j). by apply wf_tree_child.
  - constructor; [rewrite bits_Child; by apply wf_tree_bits|].
    intros j c. rewrite child_at_Child. case_decide.
    + intros [= <-]. by apply wf_tree_child_or_new.
    + by apply wf_tree_child.
  - rewrite Child_returns. by apply wf_tree_child_or_new.
  - by apply Union_wf_tree.
  - by apply InPlaceIntersection_wf_tree.
Qed.

Lemma wf_tree_scenario_walk : wf_tree scenario_walk.
Proof.
  constructor.
  - unfold scenario_walk. rewrite bits_update_child. apply Set_keeps_wf, wf_zero.
  - intros j c. unfold scenario_walk. rewrite child_at_update_child. case_decide; [|done].
    intros [= <-]. constructor; [apply Set_keeps_wf, wf_zero | done].
Qed.

Lemma wf_tree_scenario_bare : wf_tree scenario_bare.
Proof. constructor; [apply Set_keeps_wf, wf_zero | done]. Qed.

Lemma operations_keep_wf_tree_witness :
  wf_tree scenario_walk /\ wf_tree scenario_bare /\
  wf_tree (Union scenario_walk scenario_bare) /\
  wf_tree (InPlaceIntersection scenario_walk scenario_bare).
Proof.
  split; [exact wf_tree_scenario_walk|]. split; [exact wf_tree_scenario_bare|].
  pose proof (operations_keep_wf_tree scenario_walk scenario_bare [] 0
                wf_tree_scenario_walk wf_tree_scenario_bare) as (_ & _ & _ & _ & Hu & Hi).
  split; [exact Hu | exact Hi].
Defined.

(** ** Lengths and the second revision of the intersection *)

Lemma Sets_length b l :
  BitSet.b_length (foldl BitSet.Set_ b l)
  = foldl (fun n i => N.max n (i + 1)) (BitSet.b_length b) l.
Proof.
  revert b. induction l as [|i l IH]; intros b; [done|].
  cbn [foldl]. rewrite IH. f_equal. unfold BitSet.Set_. cbn [BitSet.b_length].
  apply extendSetMaybe_length.
Qed.

Lemma foldl_max_bound (n m : N) l :
  n <= m -> (forall i, i ∈ l -> i < m) ->
  n <= foldl (fun n i => N.max n (i + 1)) n l <= m.
Proof.
  revert n. induction l as [|i l IH]; intros n Hn Hl; [cbn; lia|].
  cbn [foldl].
  assert (i < m) by (apply Hl, list_elem_of_here).
  destruct (IH (N.max n (i + 1))) as [H1 H2]; [lia| |lia].
  intros k Hk. apply Hl. by apply list_elem_of_further.
Qed.

Lemma set_bits_lt b i : BitSet.wf b -> i ∈ set_bits b -> i < BitSet.b_length b.
Proof.
  intros (_ & _ & Hs) Hi%elem_of_set_bits.
  destruct (N.lt_ge_cases i (BitSet.b_length b)) as [|Hge]; [done|].
  by rewrite Hs in Hi.
Qed.

(** X12.  After [Union] and after [InPlaceIntersection] the length of the
    receiver is the larger of the two lengths: the intersection also grows
    the receiver to the length of its argument. *)
Theorem Len_after_Union_and_InPlaceIntersection (a b : PermissionSet) :
  BitSet.wf (bits b) ->
  Len (Union a b) = N.max (Len a) (Len b) /\
  Len (InPlaceIntersection a b) = N.max (Len a) (Len b).
Proof.
  intros Hb. split.
  - unfold Len, BitSet.Len, Union. rewrite Union_with_unfold. cbv zeta. cbn [bits with_bits].
    rewrite InPlaceUnion_length, forEachSet_set_bits by apply Hb.
    rewrite loop_bits, Sets_length.
    pose proof (foldl_max_bound (BitSet.b_length (bits a))
                  (N.max (BitSet.b_length (bits a)) (BitSet.b_length (bits b)))
                  (set_bits (bits b)) ltac:(lia)) as H.
    destruct H; [|lia]. intros i Hi%set_bits_lt; [lia | done].
  - unfold Len, BitSet.Len. by rewrite bits_InPlaceIntersection, InPlaceIntersection_length.
Qed.

Lemma Len_after_Union_and_InPlaceIntersection_witness :
  BitSet.wf (bits scenario_bare) /\
  Len (Union scenario_walk scenario_bare) = N.max (Len scenario_walk) (Len scenario_bare) /\
  Len (InPlaceIntersection scenario_walk scenario_bare)
    = N.max (Len scenario_walk) (Len scenario_bare).
Proof.
  assert (BitSet.wf (bits scenario_bare)) as Hwf by apply Set_keeps_wf, wf_zero.
  split; [exact Hwf|].
  apply (Len_after_Union_and_InPlaceIntersection scenario_walk scenario_bare Hwf).
Defined.

(** X13.  The second revision of [InPlaceIntersection] sets every bit of its
    argument before it intersects: the receiver ends with exactly the bits
    of the argument, whatever it held. *)
Theorem InPlaceIntersection_rev2_copies (a b : PermissionSet) (i : N) :
  BitSet.wf (bits a) -> BitSet.wf (bits b) ->
  Has (InPlaceIntersection_rev2 a b) i = Has b i.
Proof.
  intros Ha Hb. unfold Has, InPlaceIntersection_rev2.
  rewrite InPlaceIntersection_rev2_with_unfold. cbv zeta. cbn [bits with_bits].
  rewrite forEachSet_set_bits by apply Hb. rewrite loop_bits.
  rewrite Test_InPlaceIntersection by (try apply Sets_wf; done).
  rewrite Test_Sets, bool_decide_set_bits by done.
  destruct (BitSet.Test (bits b) i); [done | by rewrite andb_false_r].
Qed.

Lemma InPlaceIntersection_rev2_copies_witness :
  BitSet.wf (bits (Set_ newPermissionSet [70])) /\
  BitSet.wf (bits (Set_ newPermissionSet [5])) /\
  Has (InPlaceIntersection_rev2 (Set_ newPermissionSet [70]) (Set_ newPermissionSet [5])) 5
    = Has (Set_ newPermissionSet [5]) 5.
Proof.
  assert (forall l, BitSet.wf (bits (Set_ newPermissionSet l))) as Hwf
    by (intros l; apply Set_keeps_wf, wf_zero).
  split; [apply Hwf|]. split; [apply Hwf|].
  apply (InPlaceIntersection_rev2_copies _ _ 5 (Hwf [70]) (Hwf [5])).
Defined.

(** X14.  On the bits, [Union] and [InPlaceIntersection] obey the laws of a
    lattice of sets: both are associative, each absorbs the other, and the
    intersection distributes over the union. *)
Theorem Union_InPlaceIntersection_lattice (a b c : PermissionSet) (i : N) :
  BitSet.wf (bits a) -> BitSet.wf (bits b) -> BitSet.wf (bits c) ->
  Has (Union (Union a b) c) i = Has (Union a (Union b c)) i /\
  Has (InPlaceIntersection (InPlaceIntersection a b) c) i
    = Has (InPlaceIntersection a (InPlaceIntersection b c)) i /\
  Has (InPlaceIntersection (Union a b) a) i = Has a i /\
  Has (Union (InPlaceIntersection a b) a) i = Has a i /\
  Has (InPlaceIntersection (Union a b) c) i
    = Has (Union (InPlaceIntersection a c) (InPlaceIntersection b c)) i.
Proof.
  intros Ha Hb Hc.
  rewrite ?Has_Union, ?Has_InPlaceIntersection, ?Has_Union, ?Has_InPlaceIntersection
    by auto using Union_keeps_wf, InPlaceIntersection_keeps_wf.
  destruct (Has a i), (Has b i), (Has c i); done.
Qed.

Lemma Union_InPlaceIntersection_lattice_witness :
  BitSet.wf (bits (Set_ newPermissionSet [3; 5])) /\
  Has (InPlaceIntersection (Union (Set_ newPermissionSet [3; 5]) (Set_ newPermissionSet [5; 9]))
                           (Set_ newPermissionSet [3; 5])) 9
    = Has (Set_ newPermissionSet [3; 5]) 9.
Proof.
  assert (forall l, BitSet.wf (bits (Set_ newPermissionSet l))) as Hwf
    by (intros l; apply Set_keeps_wf, wf_zero).
  split; [apply Hwf|].
  apply (Union_InPlaceIntersection_lattice
           (Set_ newPermissionSet [3; 5]) (Set_ newPermissionSet [5; 9])
           (Set_ newPermissionSet [1]) 9 (Hwf [3; 5]) (Hwf [5; 9]) (Hwf [1])).
Defined.

(** * Calls on two sets of one tree *)

(** ** Paths *)

Lemma node_at_app root p q :
  node_at root (p ++ q) = node_at root p ≫= fun x => node_at x q.
Proof.
  revert root. induction p as [|i p IH]; intros root; [done|].
  cbn [app node_at]. destruct (child_at root i); [apply IH | done].
Qed.

Lemma child_at_with_children x m i : child_at (with_children x m) i = m !! i.
Proof. done. Qed.

Lemma child_at_update_at root i rest f j :
  child_at (update_at root (i :: rest) f) j =
    if decide (i = j) then (fun c => update_at c rest f) <$> child_at root i
    else child_at root j.
Proof.
  cbn [update_at]. unfold child_at. destruct (children root) as [m|] eqn:E.
  - destruct (m !! i) as [c|] eqn:Ei; cbn [children with_children].
    + rewrite lookup_insert. by case_decide.
    + rewrite E. case_decide; [by subst; rewrite Ei | done].
  - rewrite E. by case_decide.
Qed.

Lemma node_at_update_at root p f x :
  node_at root p = Some x -> node_at (update_at root p f) p = Some (f x).
Proof.
  revert root. induction p as [|i p IH]; intros root; [by intros [= ->]|].
  cbn [node_at]. rewrite child_at_update_at, decide_True by done.
  destruct (child_at root i) as [c|]; [|done]. cbn. apply IH.
Qed.

Lemma node_at_update_at_below root p q f x :
  node_at root p = Some x -> node_at (update_at root p f) (p ++ q) = node_at (f x) q.
Proof.
  intros Hx. rewrite node_at_app. by rewrite (node_at_update_at _ _ _ x).
Qed.

Lemma apart_cons i p j q : apart (i :: p) (j :: q) <-> i <> j \/ apart p q.
Proof.
  unfold apart. split.
  - intros [H1 H2]. destruct (decide (i = j)) as [->|]; [right | by left].
    split; intros H; [apply H1 | apply H2]; by apply prefix_cons.
  - intros [Hne|[H1 H2]]; split; intros H.
    + by apply prefix_cons_inv_1 in H.
    + by apply prefix_cons_inv_1 in H.
    + by apply prefix_cons_inv_2 in H.
    + by apply prefix_cons_inv_2 in H.
Qed.

Lemma apart_nil_l q : ~ apart [] q.
Proof. intros [H _]. apply H, prefix_nil. Qed.

Lemma apart_nil_r p : ~ apart p [].
Proof. intros [_ H]. apply H, prefix_nil. Qed.

Lemma apart_snoc p q i j : apart p q -> apart (p ++ [i]) (q ++ [j]).
Proof.
  revert q. induction p as [|a p IH]; intros q Hpq; [by apply apart_nil_l in Hpq|].
  destruct q as [|b q]; [by apply apart_nil_r in Hpq|].
  cbn [app]. apply apart_cons. apply apart_cons in Hpq as [?|?]; [by left|].
  right. by apply IH.
Qed.

Lemma apart_sym p q : apart p q -> apart q p.
Proof. by intros [? ?]. Qed.

(** A change at [p] is not seen at a path apart from [p]. *)
Lemma node_at_update_at_apart root p q f :
  apart p q -> node_at (update_at root p f) q = node_at root q.
Proof.
  revert root q. induction p as [|i p IH]; intros root q Hpq; [by apply apart_nil_l in Hpq|].
  destruct q as [|j q]; [by apply apart_nil_r in Hpq|].
  cbn [node_at]. rewrite child_at_update_at. case_decide as Hij; [|done].
  subst j. apply apart_cons in Hpq as [?|Hpq]; [done|].
  destruct (child_at root i); [|done]. cbn. by apply IH.
Qed.

Lemma update_at_update_at root p f g :
  update_at (update_at root p f) p g = update_at root p (fun x => g (f x)).
Proof.
  revert root. induction p as [|i p IH]; intros root; [done|].
  cbn [update_at]. destruct (children root) as [m|] eqn:E; [|by rewrite E].
  destruct (m !! i) as [c|] eqn:Ei; [|by rewrite E, Ei].
  cbn [children with_children]. rewrite lookup_insert_eq.
  unfold with_children. cbn [ID bits]. by rewrite insert_insert_eq, IH.
Qed.

Lemma update_at_app root p q f :
  update_at root (p ++ q) f = update_at root p (fun x => update_at x q f).
Proof.
  revert root. induction p as [|i p IH]; intros root; [done|].
  cbn [app update_at]. destruct (children root) as [m|]; [|done].
  destruct (m !! i); [|done]. by rewrite IH.
Qed.

Lemma update_at_ext root p f g x :
  node_at root p = Some x -> f x = g x -> update_at root p f = update_at root p g.
Proof.
  revert root. induction p as [|i p IH]; intros root; [by intros [= ->]|].
  cbn [node_at update_at]. unfold child_at. destruct (children root) as [m|]; [|done].
  destruct (m !! i) as [c|]; [|done]. intros Hx Hfg. by rewrite (IH c Hx Hfg).
Qed.

Lemma update_at_missing root p f : node_at root p = None -> update_at root p f = root.
Proof.
  revert root. induction p as [|i p IH]; intros root; [done|].
  cbn [node_at update_at]. unfold child_at. destruct (children root) as [m|] eqn:E; [|done].
  destruct (m !! i) as [c|] eqn:Ei; [|done]. intros Hc. rewrite (IH c Hc).
  rewrite insert_id by done. destruct root. cbn in *. by subst.
Qed.

(** What a call does, through the pointer that [Child] returned, to the
    child at [i]. *)
Lemma update_child_update_at x i f : update_child x i f = update_at (Child x i).1 [i] f.
Proof.
  unfold update_child. pose proof (child_at_Child x i i) as Hc.
  pose proof (Child_returns x i) as Hr.
  destruct (Child x i) as [x1 c] eqn:E. cbn [fst snd] in *. subst c.
  rewrite decide_True in Hc by done. unfold child_at in Hc.
  cbn [update_at]. destruct (children x1) as [m|]; [|done]. by rewrite Hc.
Qed.

Lemma node_at_Child_snoc x i : node_at (Child x i).1 [i] = Some (child_or_new x i).
Proof. cbn [node_at]. rewrite child_at_Child, decide_True by done. done. Qed.

(** ** The size of a tree *)

Lemma words_bits p : (length (BitSet.b_set (bits p)) <= words p)%nat.
Proof. destruct p as [id b [m|]]; cbn; lia. Qed.

Lemma words_child p i c : child_at p i = Some c -> (words c <= words p)%nat.
Proof.
  destruct p as [id b [m|]]; unfold child_at; cbn [children]; [|done].
  intros Hc. cbn [words children bits].
  enough (words c <= map_fold (fun _ c acc => Nat.max (words c) acc) 0%nat m)%nat by lia.
  revert c Hc. induction m as [|j x m Hj Hfold IH] using map_first_key_ind; [done|].
  intros c Hc. rewrite map_fold_insert_first_key by done.
  apply lookup_insert_Some in Hc as [[-> ->]|[_ Hc]]; [lia|].
  apply IH in Hc. lia.
Qed.

(** ** The loop on a tree *)

(** While [other] stays what it is, the loop on the tree runs its body on
    the stored bits of [other], in increasing order. *)
Lemma forNextSet_at_set_bits other o (body : N -> PermissionSet -> option PermissionSet)
      (step : N -> PermissionSet -> PermissionSet) (J : PermissionSet -> Prop) :
  Forall (fun w => w < 2 ^ 64) (BitSet.b_set (bits o)) ->
  (forall r, J r -> node_at r other = Some o) ->
  (forall i r, BitSet.bit (bits o) i = true -> J r -> body i r = Some (step i r) /\ J (step i r)) ->
  forall turns i root,
    J root ->
    (64 * length (BitSet.b_set (bits o)) - i <= turns)%nat ->
    forNextSet_at turns other (BitSet.NextSet (bits o) (N.of_nat i)) body root =
      Some (foldl (fun r j => step j r) root
                  (filter (fun j => BitSet.bit (bits o) j = true)
                          (N.of_nat <$> seq i (64 * length (BitSet.b_set (bits o)) - i)))).
Proof.
  intros Hb Hother Hbody turns. induction turns as [|turns IH]; intros i root HJ Hturns.
  - replace (64 * length (BitSet.b_set (bits o)) - i)%nat with 0%nat by lia.
    pose proof (NextSet_sound (bits o) (N.of_nat i)) as Hsound.
    destruct (BitSet.NextSet (bits o) (N.of_nat i)) as [j|]; [|done].
    destruct (Hsound j Hb eq_refl) as (? & ? & _). lia.
  - pose proof (NextSet_sound (bits o) (N.of_nat i)) as Hsound.
    pose proof (NextSet_complete (bits o) (N.of_nat i) Hb) as Hcomplete.
    destruct (BitSet.NextSet (bits o) (N.of_nat i)) as [j|]; cbn [forNextSet_at].
    + destruct (Hsound j Hb eq_refl) as (Hij & Hj & Hset).
      destruct (Hbody j root Hset HJ) as [-> HJ']. cbn [mbind option_bind].
      rewrite (Hother _ HJ'). cbn [mbind option_bind].
      replace (64 * length (BitSet.b_set (bits o)) - i)%nat
        with ((N.to_nat j - i) + S (64 * length (BitSet.b_set (bits o)) - S (N.to_nat j)))%nat
        by lia.
      rewrite seq_app, fmap_app, filter_app.
      rewrite filter_none.
      2:{ intros x (k & -> & Hk)%list_elem_of_fmap. apply elem_of_seq in Hk.
          rewrite Hcomplete by lia. done. }
      replace (i + (N.to_nat j - i))%nat with (N.to_nat j) by lia.
      cbn [seq fmap list_fmap app]. rewrite N2Nat.id.
      rewrite filter_cons_True by done. cbn [foldl].
      replace (j + 1) with (N.of_nat (S (N.to_nat j))) by lia.
      apply IH; [done | lia].
    + rewrite filter_none; [done|].
      intros x (k & -> & Hk)%list_elem_of_fmap. apply elem_of_seq in Hk.
      rewrite Hcomplete by lia. done.
Qed.

Lemma update_at_id root p : update_at root p (fun x => x) = root.
Proof.
  revert root. induction p as [|i p IH]; intros root; [done|].
  cbn [update_at]. destruct (children root) as [m|] eqn:E; [|done].
  destruct (m !! i) as [c|] eqn:Ei; [|done].
  rewrite IH, insert_id by done. destruct root. cbn in *. by subst.
Qed.

Lemma update_at_ext_all root p f g :
  (forall x, f x = g x) -> update_at root p f = update_at root p g.
Proof.
  intros Hfg. revert root. induction p as [|i p IH]; intros root; [apply Hfg|].
  cbn [update_at]. destruct (children root) as [m|]; [|done].
  destruct (m !! i); [|done]. by rewrite IH.
Qed.

Lemma foldl_update_at (body : N -> PermissionSet -> PermissionSet) p l root :
  foldl (fun r j => update_at r p (body j)) root l
  = update_at root p (fun x => foldl (fun x j => body j x) x l).
Proof.
  revert root. induction l as [|j l IH] using rev_ind; intros root.
  - cbn [foldl]. by rewrite update_at_id.
  - rewrite foldl_app. cbn [foldl]. rewrite IH, update_at_update_at.
    apply update_at_ext_all. intros x. by rewrite foldl_app.
Qed.

(** ** Sets that share nothing *)

(** For two sets of a tree that lie apart, [Union] on the tree does to the
    receiver what [Union] on values does, and changes nothing else. *)
Lemma Union_at_apart_tree o :
  wf_tree o ->
  forall fuel root p other,
    apart p other -> node_at root other = Some o -> is_Some (node_at root p) ->
    (depth o + 64 * words o < fuel)%nat ->
    Union_at fuel root p other = Some (update_at root p (fun x => Union x o)).
Proof.
  induction 1 as [o Hbits Hch IH]. intros fuel root p other Hap Ho Hp Hfuel.
  destruct fuel as [|fuel']; [lia|]. cbn [Union_at]. rewrite Ho. cbn [mbind option_bind].
  set (sub := match children o with Some m => Union_with <$> m | None => ∅ end).
  set (body_val := fun i x =>
                     let x := Set_ x [i] in
                     match sub !! i with
                     | Some u => update_child x i u
                     | None => x
                     end).
  assert (forall i, sub !! i = Union_with <$> child_at o i) as Hsub.
  { intros i. unfold sub, child_at.
    destruct (children o); [apply lookup_fmap | apply lookup_empty]. }
  pose proof (words_bits o) as Hwords.
  change (BitSet.NextSet (bits o) 0) with (BitSet.NextSet (bits o) (N.of_nat 0)).
  rewrite (forNextSet_at_set_bits other o _ (fun i r => update_at r p (body_val i))
             (fun r => node_at r other = Some o /\ is_Some (node_at r p)));
    [|apply Hbits|by intros r [? ?]| |done|lia].
  - rewrite Nat.sub_0_r. fold (set_bits (bits o)).
    cbn [mbind option_bind]. rewrite foldl_update_at.
    rewrite node_at_update_at_apart, Ho by done. cbn [mbind option_bind].
    rewrite update_at_update_at. f_equal. apply update_at_ext_all. intros x.
    unfold Union. rewrite Union_with_unfold. cbv zeta.
    by rewrite forEachSet_set_bits by apply Hbits.
  - intros i r Hi [Hro [x Hrp]]. split.
    2:{ split; [by rewrite node_at_update_at_apart|].
        rewrite (node_at_update_at _ _ _ x) by done. by eexists. }
    cbv zeta. rewrite node_at_update_at_apart, Hro by done. cbn [mbind option_bind].
    destruct (child_at o i) as [c|] eqn:Ec.
    + rewrite (IH i c Ec).
      * f_equal. rewrite update_at_app, !update_at_update_at.
        apply update_at_ext_all. intros y. unfold body_val. cbv zeta.
        rewrite Hsub, Ec. cbn [fmap option_fmap option_map].
        by rewrite update_child_update_at.
      * by apply apart_snoc.
      * rewrite node_at_app, node_at_update_at_apart, node_at_update_at_apart, Hro by done.
        cbn [mbind option_bind node_at]. by rewrite Ec.
      * rewrite update_at_update_at, node_at_app.
        rewrite (node_at_update_at _ _ _ x) by done. cbn [mbind option_bind].
        rewrite node_at_Child_snoc. by eexists.
      * pose proof (depth_child _ _ _ Ec). pose proof (words_child _ _ _ Ec). lia.
    + f_equal. apply update_at_ext_all. intros y. unfold body_val. cbv zeta.
      by rewrite Hsub, Ec.
Qed.

(** The same for [InPlaceIntersection]. *)
Lemma InPlaceIntersection_at_apart_tree o :
  wf_tree o ->
  forall fuel root p other,
    apart p other -> node_at root other = Some o -> is_Some (node_at root p) ->
    (depth o + 64 * words o < fuel)%nat ->
    InPlaceIntersection_at fuel root p other
    = Some (update_at root p (fun x => InPlaceIntersection x o)).
Proof.
  induction 1 as [o Hbits Hch IH]. intros fuel root p other Hap Ho Hp Hfuel.
  destruct fuel as [|fuel']; [lia|]. cbn [InPlaceIntersection_at].
  rewrite Ho. cbn [mbind option_bind].
  set (sub := match children o with Some m => InPlaceIntersection_with <$> m | None => ∅ end).
  set (body_val := fun i x =>
                     if Has x i then
                       match sub !! i with
                       | Some u => update_child x i u
                       | None => x
                       end
                     else x).
  assert (forall i, sub !! i = InPlaceIntersection_with <$> child_at o i) as Hsub.
  { intros i. unfold sub, child_at.
    destruct (children o); [apply lookup_fmap | apply lookup_empty]. }
  pose proof (words_bits o) as Hwords.
  change (BitSet.NextSet (bits o) 0) with (BitSet.NextSet (bits o) (N.of_nat 0)).
  rewrite (forNextSet_at_set_bits other o _ (fun i r => update_at r p (body_val i))
             (fun r => node_at r other = Some o /\ is_Some (node_at r p)));
    [|apply Hbits|by intros r [? ?]| |done|lia].
  - rewrite Nat.sub_0_r. fold (set_bits (bits o)).
    cbn [mbind option_bind]. rewrite foldl_update_at.
    rewrite node_at_update_at_apart, Ho by done. cbn [mbind option_bind].
    rewrite update_at_update_at. f_equal. apply update_at_ext_all. intros x.
    unfold InPlaceIntersection. rewrite InPlaceIntersection_with_unfold. cbv zeta.
    by rewrite forEachSet_set_bits by apply Hbits.
  - intros i r Hi [Hro [x Hrp]]. split.
    2:{ split; [by rewrite node_at_update_at_apart|].
        rewrite (node_at_update_at _ _ _ x) by done. by eexists. }
    rewrite Hrp. cbn [mbind option_bind].
    assert (update_at r p (fun y => y) = r) as Hid by apply update_at_id.
    destruct (Has x i) eqn:Hx.
    2:{ rewrite <- Hid at 1. f_equal. apply (update_at_ext _ _ _ _ x); [done|].
        unfold body_val. by rewrite Hx. }
    rewrite Hro. cbn [mbind option_bind].
    destruct (child_at o i) as [c|] eqn:Ec.
    + cbv zeta. rewrite (IH i c Ec).
      * f_equal. rewrite update_at_app, !update_at_update_at.
        apply (update_at_ext _ _ _ _ x); [done|]. unfold body_val.
        rewrite Hx, Hsub, Ec. cbn [fmap option_fmap option_map].
        by rewrite update_child_update_at.
      * by apply apart_snoc.
      * rewrite node_at_app, node_at_update_at_apart, Hro by done.
        cbn [mbind option_bind node_at]. by rewrite Ec.
      * rewrite node_at_app.
        rewrite (node_at_update_at _ _ _ x) by done. cbn [mbind option_bind].
        rewrite node_at_Child_snoc. by eexists.
      * pose proof (depth_child _ _ _ Ec). pose proof (words_child _ _ _ Ec). lia.
    + rewrite <- Hid at 1. f_equal. apply (update_at_ext _ _ _ _ x); [done|].
      unfold body_val. by rewrite Hx, Hsub, Ec.
Qed.

(** X15.  For two sets of one tree that lie apart, and an argument whose bit
    vectors keep the library's invariant at every level, a call on the tree
    does to the receiver what the call on values does and leaves the rest
    of the tree alone: [Union] and [InPlaceIntersection] on values are the
    calls whose argument shares nothing with the receiver. *)
Theorem calls_on_sets_apart (fuel : nat) (root : PermissionSet) (p other : list N)
        (x o : PermissionSet) :
  apart p other -> node_at root p = Some x -> node_at root other = Some o ->
  wf_tree o -> (depth o + 64 * words o < fuel)%nat ->
  Union_at fuel root p other = Some (update_at root p (fun x => Union x o)) /\
  InPlaceIntersection_at fuel root p other
    = Some (update_at root p (fun x => InPlaceIntersection x o)) /\
  node_at (update_at root p (fun x => Union x o)) p = Some (Union x o) /\
  node_at (update_at root p (fun x => Union x o)) other = Some o.
Proof.
  intros Hap Hx Ho Hwf Hfuel. split; [|split; [|split]].
  - apply Union_at_apart_tree; by eauto.
  - apply InPlaceIntersection_at_apart_tree; by eauto.
  - exact (node_at_update_at root p (fun y => Union y o) x Hx).
  - by rewrite node_at_update_at_apart.
Qed.

Lemma apart_0_1 : apart [0] [1].
Proof. split; intros H; by apply prefix_cons_inv_1 in H. Qed.

Lemma calls_on_sets_apart_witness :
  apart [0] [1] /\
  node_at scenario_pair [0] = Some scenario_bare /\
  node_at scenario_pair [1] = Some scenario_walk /\
  wf_tree scenario_walk /\
  (depth scenario_walk + 64 * words scenario_walk < 100)%nat /\
  Union_at 100 scenario_pair [0] [1]
    = Some (update_at scenario_pair [0] (fun x => Union x scenario_walk)).
Proof.
  assert (node_at scenario_pair [0] = Some scenario_bare) as H0 by (vm_compute; reflexivity).
  assert (node_at scenario_pair [1] = Some scenario_walk) as H1 by (vm_compute; reflexivity).
  assert (depth scenario_walk + 64 * words scenario_walk < 100)%nat as Hf
    by (vm_compute; lia).
  split; [exact apart_0_1|]. split; [exact H0|]. split; [exact H1|].
  split; [exact wf_tree_scenario_walk|]. split; [exact Hf|].
  apply (calls_on_sets_apart 100 scenario_pair [0] [1] scenario_bare scenario_walk
           apart_0_1 H0 H1 wf_tree_scenario_walk Hf).
Defined.

(** ** An argument below or above the receiver *)

(** With [b := a.Child(5)] as the argument, [a.Union(b)] writes into [b]
    while it reads it: the child of [b] at 5 is united into [b], the loop
    then finds bit 7 in [b], and [a] ends with bit 7, which neither [a] nor
    [b] had.  On values, where the argument is what it was before the call,
    bit 7 does not appear. *)
Lemma Union_at_descendant_adds :
  exists b root',
    node_at scenario_nested [5] = Some b /\
    Has scenario_nested 7 = false /\ Has b 7 = false /\
    Union_at 66 scenario_nested [] [5] = Some root' /\
    Has root' 7 = true /\
    Has (Union scenario_nested b) 7 = false.
Proof.
  eexists _, _. split; [vm_compute; reflexivity|].
  split; [vm_compute; reflexivity|]. split; [vm_compute; reflexivity|].
  split; [vm_compute; reflexivity|]. split; vm_compute; reflexivity.
Qed.

Lemma node_at_update_at_above root p q f :
  node_at (update_at root (p ++ q) f) p = (fun x => update_at x q f) <$> node_at root p.
Proof.
  rewrite update_at_app. destruct (node_at root p) as [x|] eqn:E.
  - by rewrite (node_at_update_at _ _ _ x).
  - by rewrite update_at_missing.
Qed.

Lemma NextSet_lowest b k :
  BitSet.wf b -> BitSet.bit b k = true -> (forall j, j < k -> BitSet.bit b j = false) ->
  BitSet.NextSet b 0 = Some k.
Proof.
  intros (_ & Hb & _) Hk Hlow.
  pose proof (NextSet_sound b 0) as Hsound.
  pose proof (NextSet_complete b 0 Hb) as Hcomplete.
  destruct (BitSet.NextSet b 0) as [j|].
  - destruct (Hsound j Hb eq_refl) as (_ & _ & Hj). f_equal.
    destruct (N.lt_trichotomy j k) as [Hlt|[->|Hgt]]; [|done|].
    + by rewrite Hlow in Hj.
    + rewrite Hcomplete in Hk by lia. done.
  - rewrite Hcomplete in Hk by lia. done.
Qed.

Lemma chain_from_new k : chain_from k newPermissionSet.
Proof.
  constructor; [apply wf_zero | | done].
  intros j _. unfold BitSet.bit. rewrite word_ge by (cbn; lia). apply N.bits_0.
Qed.

Lemma chain_from_step k y :
  chain_from k y ->
  chain_from k (Child (Set_ y [k]) k).1 /\
  Has (Child (Set_ y [k]) k).1 k = true /\
  is_Some (child_at (Child (Set_ y [k]) k).1 k).
Proof.
  intros [x Hwf Hlow Hch]. split; [|split].
  - constructor.
    + rewrite bits_Child. by apply Set_keeps_wf.
    + intros j Hj. rewrite bits_Child, bits_Set_one, bit_Set by apply Hwf.
      rewrite Hlow by done. destruct (N.eqb_spec j k); [lia | done].
    + intros c. rewrite child_at_Child, decide_True by done. intros [= <-].
      unfold child_or_new. change (child_at (Set_ x [k]) k) with (child_at x k).
      destruct (child_at x k) as [c|] eqn:E; cbn [default]; [by apply Hch | apply chain_from_new].
  - unfold Has. rewrite bits_Child. fold (Has (Set_ x [k]) k).
    rewrite Has_Set_one by done. by rewrite N.eqb_refl.
  - rewrite child_at_Child, decide_True by done. by eexists.
Qed.

Lemma Union_at_parent_None k :
  forall fuel root path o,
    node_at root path = Some o -> chain_from k o -> Has o k = true ->
    is_Some (child_at o k) ->
    Union_at fuel root (path ++ [k]) path = None.
Proof.
  induction fuel as [|fuel IH]; intros root path o Ho Hchain Hk [x Hx]; [done|].
  cbn [Union_at]. rewrite Ho. cbn [mbind option_bind].
  destruct Hchain as [o Hwf Hlow Hch].
  assert (BitSet.bit (bits o) k = true) as Hbit.
  { unfold Has in Hk. by rewrite Test_bit in Hk. }
  rewrite (NextSet_lowest _ k) by done. cbn [forNextSet_at].
  cbv zeta. rewrite node_at_update_at_above, Ho. cbn [fmap option_fmap option_map mbind option_bind].
  rewrite child_at_update_at, decide_True by done. rewrite Hx.
  cbn [fmap option_fmap option_map].
  rewrite update_at_update_at.
  destruct (chain_from_step k x (Hch x Hx)) as (Hchain' & Hk' & Hsome').
  rewrite (IH _ (path ++ [k]) (Child (Set_ x [k]) k).1); [done| |done..].
  rewrite (node_at_update_at _ _ _ x); [done|].
  rewrite node_at_app, Ho. cbn [mbind option_bind node_at]. by rewrite Hx.
Qed.

(** X16.  A call that never returns: when the lowest bit [k] of a set is set and
    the set has a child at [k] (with no bit below [k] down its own children
    at [k]), uniting the set into that child recurses without end, a new
    child being made at every level: no recursion bound is large enough. *)
Theorem Union_into_child_never_returns (k : N) (fuel : nat) (root : PermissionSet)
        (path : list N) (o : PermissionSet) :
  node_at root path = Some o -> chain_from k o -> Has o k = true ->
  is_Some (child_at o k) ->
  Union_at fuel root (path ++ [k]) path = None.
Proof. apply Union_at_parent_None. Qed.

Lemma chain_from_scenario_parent : chain_from 5 scenario_parent.
Proof.
  constructor.
  - unfold scenario_parent. rewrite bits_Child. apply Set_keeps_wf, wf_zero.
  - intros j Hj. unfold scenario_parent.
    rewrite bits_Child, bits_Set_one, bit_Set by apply wf_zero.
    destruct (N.eqb_spec j 5); [lia|]. cbn [orb].
    unfold BitSet.bit. rewrite word_ge by (cbn; lia). apply N.bits_0.
  - intros c. unfold scenario_parent. rewrite child_at_Child, decide_True by done.
    intros [= <-]. apply chain_from_new.
Qed.

Lemma Union_into_child_never_returns_witness :
  node_at scenario_parent [] = Some scenario_parent /\
  chain_from 5 scenario_parent /\ Has scenario_parent 5 = true /\
  is_Some (child_at scenario_parent 5) /\
  Union_at 1000 scenario_parent ([] ++ [5]) [] = None.
Proof.
  assert (is_Some (child_at scenario_parent 5)) as Hc by (eexists; reflexivity).
  split; [reflexivity|]. split; [exact chain_from_scenario_parent|].
  split; [reflexivity|]. split; [exact Hc|].
  apply (Union_into_child_never_returns 5 1000 scenario_parent [] scenario_parent
           eq_refl chain_from_scenario_parent eq_refl Hc).
Defined.

(** * Queries *)

(** ** [HasMultiple] and the order of the visit *)

Lemma PermissionSet_ext x y :
  ID x = ID y -> bits x = bits y -> (forall j, child_at x j = child_at y j) ->
  (children x = None <-> children y = None) -> x = y.
Proof.
  destruct x as [ix bx cx], y as [iy by_ cy]. unfold child_at. cbn.
  intros -> -> Hch Hnone. f_equal.
  destruct cx as [mx|], cy as [my|]; try done.
  - f_equal. by apply map_eq.
  - by destruct (proj2 Hnone eq_refl).
  - by destruct (proj1 Hnone eq_refl).
Qed.

Lemma HasMultiple_children_None range p sets :
  range_ok range ->
  children (HasMultiple range p sets).2 = None <->
  children p = None /\ forall k, queried sets k -> Has p k = false.
Proof.
  intros Hr. rewrite HasMultiple_flat.
  destruct (HasMultiple_receiver (HasMultiple_entries range sets) ∅ p)
    as (_ & _ & _ & H4 & H5). cbv zeta in *.
  set (p' := (foldl _ _ _).2) in *. split.
  - intros Hnone.
    assert (forall k, queried sets k -> Has p k = false) as Hq.
    { intros k Hk. destruct (Has p k) eqn:E; [|done].
      specialize (H4 k). rewrite E in H4.
      rewrite bool_decide_eq_true_2 in H4 by (by apply queried_entries).
      unfold child_at in H4. by rewrite Hnone in H4. }
    split; [|done]. rewrite <- H5; [done|].
    intros k Hk. apply Hq. by apply (queried_entries range).
  - intros [Hnone Hq]. rewrite H5; [done|].
    intros k Hk. apply Hq. by apply (queried_entries range).
Qed.

Lemma HasMultiple_child_at range p sets j :
  child_at (HasMultiple range p sets).2 j =
    if bool_decide (j ∈ (HasMultiple_entries range sets).*1) && Has p j
    then Some (child_or_new p j) else child_at p j.
Proof.
  rewrite HasMultiple_flat.
  by destruct (HasMultiple_receiver (HasMultiple_entries range sets) ∅ p)
    as (_ & _ & _ & H4 & _).
Qed.

Lemma queried_entries_bool range1 range2 sets j :
  range_ok range1 -> range_ok range2 ->
  bool_decide (j ∈ (HasMultiple_entries range1 sets).*1)
  = bool_decide (j ∈ (HasMultiple_entries range2 sets).*1).
Proof. intros H1 H2. apply bool_decide_ext. by rewrite !queried_entries. Qed.

Lemma HasMultiple_bits range p sets :
  ID (HasMultiple range p sets).2 = ID p /\ bits (HasMultiple range p sets).2 = bits p /\
  forall j, child_or_new (HasMultiple range p sets).2 j = child_or_new p j.
Proof.
  rewrite HasMultiple_flat.
  by destruct (HasMultiple_receiver (HasMultiple_entries range sets) ∅ p)
    as (? & ? & ? & _ & _).
Qed.

(** X17.  Go does not fix the order in which [range] visits a map: the answer
    of [HasMultiple] and the receiver after the call do not depend on it. *)
Theorem HasMultiple_order_independent (range1 range2 : range_order)
        (p : PermissionSet) (sets : list (gmap N (list N))) :
  range_ok range1 -> range_ok range2 ->
  HasMultiple range1 p sets = HasMultiple range2 p sets.
Proof.
  intros H1 H2.
  destruct (HasMultiple_bits range1 p sets) as (Hi1 & Hb1 & _).
  destruct (HasMultiple_bits range2 p sets) as (Hi2 & Hb2 & _).
  rewrite (surjective_pairing (HasMultiple range1 p sets)).
  rewrite (surjective_pairing (HasMultiple range2 p sets)). f_equal.
  - apply map_eq. intros k. by rewrite !HasMultiple_results.
  - apply PermissionSet_ext.
    + by rewrite Hi1, Hi2.
    + by rewrite Hb1, Hb2.
    + intros j. rewrite !HasMultiple_child_at.
      by rewrite (queried_entries_bool range1 range2).
    + by rewrite !HasMultiple_children_None.
Qed.

Lemma HasMultiple_order_independent_witness :
  range_ok range_to_list /\
  range_ok (fun A m => reverse (map_to_list m)) /\
  HasMultiple range_to_list scenario_query [ {[ 5 := [1; 2]; 7 := [] ]} ]
  = HasMultiple (fun A m => reverse (map_to_list m)) scenario_query
                [ {[ 5 := [1; 2]; 7 := [] ]} ].
Proof.
  assert (range_ok (fun A m => reverse (map_to_list m))) as Hrev
    by (intros A m; apply reverse_Permutation).
  split; [exact range_ok_to_list|]. split; [exact Hrev|].
  apply (HasMultiple_order_independent range_to_list _ scenario_query _ range_ok_to_list Hrev).
Defined.

(** X18.  Asking again changes nothing: although [HasMultiple] stores new
    children in its receiver, a second call with the same batches gives the
    same answer and leaves the receiver as the first call left it. *)
Theorem HasMultiple_repeatable (range : range_order)
        (p : PermissionSet) (sets : list (gmap N (list N))) :
  range_ok range ->
  HasMultiple range (HasMultiple range p sets).2 sets = HasMultiple range p sets.
Proof.
  intros Hr. set (p' := (HasMultiple range p sets).2).
  destruct (HasMultiple_bits range p sets) as (Hi & Hb & Hc). fold p' in Hi, Hb, Hc.
  destruct (HasMultiple_bits range p' sets) as (Hi' & Hb' & _).
  assert (forall k, Has p' k = Has p k) as Hhas by (intros k; unfold Has; by rewrite Hb).
  rewrite (surjective_pairing (HasMultiple range p' sets)).
  rewrite (surjective_pairing (HasMultiple range p sets)). f_equal.
  - apply map_eq. intros k. rewrite !HasMultiple_results by done.
    destruct (last_query sets k); [|done]. cbn. f_equal.
    by apply HasMultiple_values_ext.
  - fold p'. apply PermissionSet_ext; [done..| |].
    + intros j. rewrite HasMultiple_child_at. rewrite Hhas, Hc.
      unfold p'. rewrite HasMultiple_child_at.
      by destruct (bool_decide _ && Has p j).
    + rewrite HasMultiple_children_None by done. split; [by intros [? _]|].
      intros Hnone. split; [done|]. intros k Hk. rewrite Hhas.
      unfold p' in Hnone. apply HasMultiple_children_None in Hnone as [_ Hq]; auto.
Qed.

Lemma HasMultiple_repeatable_witness :
  range_ok range_to_list /\
  HasMultiple range_to_list
    (HasMultiple range_to_list scenario_bare [ {[ 5 := [1; 2] ]} ]).2 [ {[ 5 := [1; 2] ]} ]
  = HasMultiple range_to_list scenario_bare [ {[ 5 := [1; 2] ]} ].
Proof.
  split; [exact range_ok_to_list|].
  apply (HasMultiple_repeatable range_to_list scenario_bare _ range_ok_to_list).
Defined.

(** ** [All], [Any] and [IsEmpty] *)

Lemma scratch_bit p l i :
  BitSet.bit (foldl BitSet.Set_ (BitSet.New (BitSet.Len (bits p))) l) i = bool_decide (i ∈ l).
Proof.
  rewrite <- Test_bit by apply Sets_wf, New_wf.
  rewrite Test_Sets by apply New_wf. by rewrite Test_New, orb_false_r.
Qed.

(** X19.  [All(indices...)] says whether every index is a bit of the receiver;
    with no index it is true. *)
Theorem All_is_forallb (p : PermissionSet) (indices : list N) :
  All p indices = forallb (Has p) indices.
Proof.
  apply eq_true_iff_eq. unfold All. rewrite IsSuperSet_spec by apply Sets_wf, New_wf.
  rewrite forallb_forall. setoid_rewrite scratch_bit.
  setoid_rewrite bool_decide_eq_true. setoid_rewrite <- list_elem_of_In. done.
Qed.

(** X20.  [Any(indices...)] on a bit vector that keeps the library's invariant
    does not panic and says whether some index is a bit of the receiver;
    with no index it is false. *)
Theorem Any_is_existsb (p : PermissionSet) (indices : list N) :
  BitSet.wf (bits p) ->
  Any p indices = Some (existsb (Has p) indices).
Proof.
  intros Hp. unfold Any.
  set (other := foldl BitSet.Set_ (BitSet.New (BitSet.Len (bits p))) indices).
  destruct (Intersection_spec (bits p) other Hp) as (r & -> & Hr & _ & Hbit).
  { apply Sets_wf, New_wf. }
  { apply (Sets_length_le (BitSet.New (BitSet.Len (bits p)))). }
  cbn [fmap option_fmap option_map]. f_equal. unfold BitSet.Any.
  assert (forall i, BitSet.bit r i = Has p i && bool_decide (i ∈ indices)) as Hbit'.
  { intros i. rewrite Hbit. unfold other. rewrite scratch_bit. unfold Has.
    by rewrite Test_bit. }
  destruct (existsb (Has p) indices) eqn:E.
  - apply existsb_exists in E as (i & Hin%list_elem_of_In & Hi).
    destruct (BitSet.None_ r) eqn:En; [|done].
    pose proof (proj1 (None_spec r (proj1 (proj2 Hr))) En i) as Hn.
    rewrite Hbit', Hi, bool_decide_eq_true_2 in Hn; done.
  - apply negb_false_iff. apply (None_spec r (proj1 (proj2 Hr))). intros i. rewrite Hbit'.
    destruct (bool_decide_reflect (i ∈ indices)) as [Hin|]; [|apply andb_false_r].
    rewrite andb_true_r. destruct (Has p i) eqn:Hi; [|done].
    assert (existsb (Has p) indices = true) as Ht; [|by rewrite Ht in E].
    apply existsb_exists. exists i. split; [by apply list_elem_of_In | done].
Qed.

Lemma Any_is_existsb_witness :
  BitSet.wf (bits scenario_bare) /\
  Any scenario_bare [2; 7] = Some (existsb (Has scenario_bare) [2; 7]).
Proof.
  assert (BitSet.wf (bits scenario_bare)) as Hwf by apply Set_keeps_wf, wf_zero.
  split; [exact Hwf|]. apply (Any_is_existsb scenario_bare [2; 7] Hwf).
Defined.

(** X21.  [IsEmpty] on a bit vector that keeps the library's invariant says
    whether [Has] is false everywhere. *)
Theorem IsEmpty_iff_no_bit (p : PermissionSet) :
  BitSet.wf (bits p) ->
  IsEmpty p = true <-> forall i, Has p i = false.
Proof.
  intros Hp. unfold IsEmpty, Has. rewrite (None_spec _ (proj1 (proj2 Hp))).
  by setoid_rewrite Test_bit.
Qed.

Lemma IsEmpty_iff_no_bit_witness :
  BitSet.wf (bits (Clear scenario_bare [5; 7])) /\
  (IsEmpty (Clear scenario_bare [5; 7]) = true <->
   forall i, Has (Clear scenario_bare [5; 7]) i = false).
Proof.
  assert (BitSet.wf (bits (Clear scenario_bare [5; 7]))) as Hwf
    by apply Clear_keeps_wf, Set_keeps_wf, wf_zero.
  split; [exact Hwf|]. apply (IsEmpty_iff_no_bit (Clear scenario_bare [5; 7]) Hwf).
Defined.

(** ** [Bytes] *)

(** X22.  [Bytes(indices...)] returns the words of the set at the end of the
    path.  Where the path leaves the tree, [Child] makes the missing sets:
    the words are those of a new empty set, none, and the receiver keeps the
    new sets; where the whole path exists the receiver keeps its sets, bits
    and identifiers. *)
Theorem Bytes_follows_and_makes_path (p : PermissionSet) (indices : list N) :
  (Bytes p indices).2
    = BitSet.b_set (bits (default newPermissionSet (node_at p indices))) /\
  node_at (Bytes p indices).1 indices
    = Some (default newPermissionSet (node_at p indices)) /\
  (forall x, node_at p indices = Some x -> (Bytes p indices).1 = p).
Proof.
  revert p. induction indices as [|i l IH]; intros p.
  { cbn. repeat split. }
  cbn [Bytes node_at].
  pose proof (child_at_Child p i i) as Hc. rewrite decide_True in Hc by done.
  pose proof (Child_returns p i) as Hr.
  pose proof (bits_Child p i) as Hb. pose proof (ID_Child p i) as Hi.
  destruct (Child p i) as [p1 set] eqn:E. cbn [fst snd] in *. subst set.
  destruct (IH (child_or_new p i)) as (IH1 & IH2 & IH3).
  destruct (Bytes (child_or_new p i) l) as [set' ws] eqn:EB. cbn [fst snd] in *.
  assert (default newPermissionSet (node_at (child_or_new p i) l)
          = default newPermissionSet (child_at p i ≫= fun c => node_at c l)) as Hdef.
  { unfold child_or_new. destruct (child_at p i) as [c|]; [done|].
    by destruct l as [|j l']. }
  assert (match child_at p i with Some c => node_at c l | None => None end
          = child_at p i ≫= fun c => node_at c l) as Hbind by (by destruct (child_at p i)).
  rewrite Hbind. split; [by rewrite IH1, Hdef|]. split.
  - rewrite child_at_with_children, lookup_insert_eq. by rewrite IH2, Hdef.
  - intros x Hx. destruct (child_at p i) as [c|] eqn:Ec; [|done].
    cbn [mbind option_bind] in Hx.
    assert (set' = c) as ->.
    { unfold child_or_new in IH3. rewrite Ec in IH3. by apply (IH3 x). }
    unfold child_at in Hc, Ec. destruct p as [ip bp [m|]]; [|done].
    cbn [children] in Ec. unfold Child in E. cbn [children] in E. rewrite Ec in E.
    injection E as <- _. cbn [children with_children ID bits].
    unfold with_children. cbn [ID bits]. by rewrite insert_id.
Qed.

(** * Further properties of the codecs *)

Lemma UnmarshalBinary_short_panics_witness :
  0 < len (slice_of [1; 2; 3]) /\ cap (slice_of [1; 2; 3]) < 7 /\
  UnmarshalBinary scenario_walk (slice_of [1; 2; 3]) = Panic.
Proof.
  split; [reflexivity|]. split; [reflexivity|].
  apply (UnmarshalBinary_short_panics scenario_walk (slice_of [1; 2; 3])); reflexivity.
Defined.

(** X23.  Within the slots of the frame the binary codec round-trips.  For a set
    whose identifiers and indices of children are below [2^49] at every
    level and whose bit vectors keep the library's invariant, the encoder
    does not panic, whatever the order in which it visits the children; and
    when the frame is shorter than [2^49] bytes the decoder, given a new
    set, returns without error the same tree, except that a map of children
    that is empty but not [nil] comes back [nil]: same identifier, same
    bits and same indices of children at every level. *)
Theorem MarshalBinary_UnmarshalBinary_roundtrip (range : range_order) (p : PermissionSet) :
  range_ok range -> fits_binary p ->
  exists bytes,
    MarshalBinary range p = Some bytes /\
    (N.of_nat (length bytes) < 2 ^ 49 ->
     UnmarshalBinary newPermissionSet (slice_of bytes) = Returns (normalize p, None) /\
     same_tree p (normalize p)).
Proof.
  intros Hr Hp. destruct (MarshalBinary_succeeds range p Hr Hp) as [bytes Hm].
  exists bytes. split; [done|]. intros Hlen.
  split; [by apply (binary_roundtrip_within_slots range) | by apply same_tree_normalize].
Qed.

Lemma MarshalBinary_UnmarshalBinary_roundtrip_witness :
  range_ok range_to_list /\ fits_binary (with_ID scenario_walk 1234) /\
  exists bytes,
    MarshalBinary range_to_list (with_ID scenario_walk 1234) = Some bytes /\
    (N.of_nat (length bytes) < 2 ^ 49 ->
     UnmarshalBinary newPermissionSet (slice_of bytes)
       = Returns (normalize (with_ID scenario_walk 1234), None) /\
     same_tree (with_ID scenario_walk 1234) (normalize (with_ID scenario_walk 1234))).
Proof.
  split; [exact range_ok_to_list|]. split; [exact fits_binary_scenario_walk|].
  apply (MarshalBinary_UnmarshalBinary_roundtrip range_to_list (with_ID scenario_walk 1234)
           range_ok_to_list fits_binary_scenario_walk).
Defined.

(** ** An index that does not fit its slot *)

Lemma uvarint_bytes_long n :
  forall steps x,
    2 ^ (7 * N.of_nat n) <= x -> (n <= steps)%nat ->
    (n < length (Binary.uvarint_bytes steps x))%nat.
Proof.
  induction n as [|n IH]; intros steps x Hx Hn.
  - destruct steps; cbn [Binary.uvarint_bytes]; [cbn; lia|].
    destruct (x <? 128); cbn; lia.
  - destruct steps as [|steps]; [lia|]. cbn [Binary.uvarint_bytes].
    replace (7 * N.of_nat (S n)) with (7 * N.of_nat n + 7) in Hx by lia.
    rewrite N.pow_add_r in Hx.
    assert (0 < 2 ^ (7 * N.of_nat n)) by (apply N.neq_0_lt_0, N.pow_nonzero; lia).
    change (2 ^ 7) with 128 in Hx.
    destruct (N.ltb_spec x 128); [nia|]. cbn [length].
    apply Nat.succ_lt_mono with (n := n), IH; [|lia].
    rewrite N.shiftr_div_pow2. change (2 ^ 7) with 128.
    apply N.div_le_lower_bound; lia.
Qed.

Lemma PutUvarint_header_None i :
  2 ^ 56 <= i -> Binary.PutUvarint (replicate 8 0) i = None.
Proof.
  intros Hi. unfold Binary.PutUvarint.
  pose proof (uvarint_bytes_long 8 Binary.MaxVarintLen64 i Hi) as Hlen.
  unfold Binary.MaxVarintLen64 in *. specialize (Hlen ltac:(lia)).
  rewrite length_replicate. by destruct (Nat.leb_spec (length (Binary.uvarint_bytes 10 i)) 8); [lia|].
Qed.

Lemma MarshalBinary_children_None l : foldl MarshalBinary_child None l = None.
Proof. induction l as [|e l IH]; [done|]. apply IH. Qed.

Lemma MarshalBinary_children_panic l acc i e :
  (i, e) ∈ l -> 2 ^ 56 <= i -> foldl MarshalBinary_child acc l = None.
Proof.
  intros Hin Hi. revert acc. induction l as [|x l IH]; intros acc; [by apply elem_of_nil in Hin|].
  cbn [foldl]. apply elem_of_cons in Hin as [<-|Hin]; [|by apply IH].
  assert (MarshalBinary_child acc (i, e) = None) as ->; [|apply MarshalBinary_children_None].
  unfold MarshalBinary_child. destruct acc as [[size data]|]; [|done].
  destruct e; [|done]. by rewrite PutUvarint_header_None.
Qed.

(** X27.  [MarshalBinary] panics on a set that has a child at an index of [2^56]
    or more, at any level it comes to: the index is written with
    [binary.PutUvarint] into a header of eight bytes, which nine bytes
    overrun. *)
Theorem MarshalBinary_panics_on_large_index (range : range_order) (p : PermissionSet)
        (i : N) (c : PermissionSet) :
  range_ok range -> child_at p i = Some c -> 2 ^ 56 <= i ->
  MarshalBinary range p = None.
Proof.
  intros Hr Hc Hi. rewrite MarshalBinary_unfold. cbv zeta.
  destruct (PutUvarint_at _ 0 (ID p)) as [data1|]; [|done]. cbn [mbind option_bind].
  destruct (PutUvarint_at data1 8 _) as [data2|]; [|done]. cbn [mbind option_bind].
  unfold child_at in Hc. destruct (children p) as [m|]; [|done].
  rewrite (MarshalBinary_children_panic _ _ i (MarshalBinary range c)); [done| |done].
  rewrite (Hr _ (MarshalBinary range <$> m)). apply elem_of_map_to_list.
  by rewrite lookup_fmap, Hc.
Qed.

Lemma MarshalBinary_panics_on_large_index_witness :
  range_ok range_to_list /\
  child_at (Child scenario_bare (2 ^ 56)).1 (2 ^ 56) = Some newPermissionSet /\
  2 ^ 56 <= 2 ^ 56 /\
  MarshalBinary range_to_list (Child scenario_bare (2 ^ 56)).1 = None.
Proof.
  assert (child_at (Child scenario_bare (2 ^ 56)).1 (2 ^ 56) = Some newPermissionSet) as Hc
    by (vm_compute; reflexivity).
  assert (2 ^ 56 <= 2 ^ 56) as Hle by reflexivity.
  split; [exact range_ok_to_list|]. split; [exact Hc|]. split; [exact Hle|].
  apply (MarshalBinary_panics_on_large_index range_to_list _ (2 ^ 56) newPermissionSet
           range_ok_to_list Hc Hle).
Defined.

(** ** The structured codec *)

Lemma rangeZ_ok_to_list : rangeZ_ok (fun A => map_to_list).
Proof. by intros A m. Qed.

Lemma fits_json_scenario_walk : fits_json scenario_walk.
Proof.
  assert (forall i c, child_at scenario_walk i = Some c ->
                      i = 5 /\ c = Set_ newPermissionSet [2]) as Hch.
  { intros i c. unfold scenario_walk. rewrite child_at_update_child.
    destruct (decide (5 = i)) as [<-|_]; [by intros [= <-]|]. done. }
  constructor.
  - by vm_compute.
  - unfold scenario_walk. rewrite bits_update_child. apply Set_keeps_wf, wf_zero.
  - by vm_compute.
  - intros i c Hc. apply Hch in Hc as [-> _]. by vm_compute.
  - intros i c Hc. apply Hch in Hc as [_ ->]. constructor.
    + by vm_compute.
    + apply Set_keeps_wf, wf_zero.
    + by vm_compute.
    + intros j d Hd. done.
    + intros j d Hd. done.
Qed.

Lemma json_roundtrip_small_witness :
  range_ok range_to_list /\ rangeZ_ok (fun A => map_to_list) /\ fits_json scenario_walk /\
  UnmarshalJSON (fun A => map_to_list) (MarshalJSON range_to_list scenario_walk)
  = JReturns scenario_walk.
Proof.
  split; [exact range_ok_to_list|]. split; [exact rangeZ_ok_to_list|].
  split; [exact fits_json_scenario_walk|].
  apply (json_roundtrip_small range_to_list (fun A => map_to_list) scenario_walk
           range_ok_to_list rangeZ_ok_to_list fits_json_scenario_walk).
Defined.

(** X29.  The third revision of [UnmarshalJSON] reads the identifier and the
    bits only: what [MarshalJSON] wrote for a set comes back without any of
    its children. *)
Theorem UnmarshalJSON_rev3_drops_children (range : range_order) (p : PermissionSet) :
  ID p < 2 ^ 53 -> BitSet.wf (bits p) -> BitSet.b_length (bits p) < 2 ^ 64 ->
  UnmarshalJSON_rev3 (MarshalJSON range p)
  = JReturns {| ID := ID p; bits := bits p; children := None |}.
Proof.
  intros Hid Hwf Hlen. rewrite MarshalJSON_unfold. unfold UnmarshalJSON_rev3.
  cbn [doc_ID doc_bits]. cbv zeta. by rewrite float64_exact, BitSet_roundtrip.
Qed.

Lemma UnmarshalJSON_rev3_drops_children_witness :
  ID scenario_walk < 2 ^ 53 /\ BitSet.wf (bits scenario_walk) /\
  BitSet.b_length (bits scenario_walk) < 2 ^ 64 /\
  UnmarshalJSON_rev3 (MarshalJSON range_to_list scenario_walk)
  = JReturns {| ID := ID scenario_walk; bits := bits scenario_walk; children := None |}.
Proof.
  assert (ID scenario_walk < 2 ^ 53) as Hid by reflexivity.
  assert (BitSet.wf (bits scenario_walk)) as Hwf by apply wf_tree_bits, wf_tree_scenario_walk.
  assert (BitSet.b_length (bits scenario_walk) < 2 ^ 64) as Hlen by (vm_compute; reflexivity).
  split; [exact Hid|]. split; [exact Hwf|]. split; [exact Hlen|].
  apply (UnmarshalJSON_rev3_drops_children range_to_list scenario_walk Hid Hwf Hlen).
Defined.
